(** * git-review hooks: installation, dispatch and the commit-msg handler

    A shallow embedding of [git-review/hook.go] and the properties of its
    specification.  Go strings are [string], byte slices are [list byte],
    the file system is a finite map from path names to nodes, and the
    functions of the program are state-passing computations over a [world]
    that holds everything the program can observe or change. *)

From Stdlib Require Import ZArith Lia List.
From Stdlib.Strings Require Import Ascii String Byte.
From stdpp Require Import gmap strings list fin_maps.

(** ** Go strings and byte slices *)

Abbreviation bytes := (list byte).

#[global] Instance byte_eq_dec : EqDecision byte := Byte.byte_eq_dec.

(** [[]byte(s)] and [string(b)]. *)
Definition of_string (s : string) : bytes := list_byte_of_string s.
Definition to_string (b : bytes) : string := string_of_list_byte b.

(** Characters that a Rocq literal cannot hold. *)
Definition nl : string := String "010"%char EmptyString.
Definition dq : string := String "034"%char EmptyString.
Definition blank : string := EmptyString.

(** The newline byte ['\n']. *)
Definition LF : byte := x0a.

Module Bytes.

(** [bytes.HasPrefix]. *)
Fixpoint HasPrefix (s prefix : bytes) {struct prefix} : bool :=
  match prefix, s with
  | [], _ => true
  | _ :: _, [] => false
  | p :: prefix', c :: s' => Byte.eqb c p && HasPrefix s' prefix'
  end.

(** [bytes.Contains(b, subslice)]: [subslice] occurs at some offset of [b]. *)
Fixpoint Contains (b subslice : bytes) : bool :=
  HasPrefix b subslice ||
  match b with
  | [] => false
  | _ :: b' => Contains b' subslice
  end.

End Bytes.

(** ** The operating system

    Everything outside the program: the file tree, the working directory,
    the random source, the verbosity flag and the error stream.  Failures
    that depend on what the model does not hold (access rights of parent
    directories, a read-only medium, a full disk) are looked up in
    [faults], a fixed table from system call and path to the error the
    call fails with. *)

Module OS.

Inductive fault := EACCES | EPERM | EIO | EROFS | ENOSPC | ENOTDIR | EBUSY.

Inductive errno := ENOENT | EISDIR | EFAULT (f : fault).

Inductive error :=
| PathError (op path : string) (e : errno)
| SyscallError (call : string) (e : errno)
| EOF
| ErrUnexpectedEOF.

Definition fault_text (f : fault) : string :=
  match f with
  | EACCES => "permission denied"
  | EPERM => "operation not permitted"
  | EIO => "input/output error"
  | EROFS => "read-only file system"
  | ENOSPC => "no space left on device"
  | ENOTDIR => "not a directory"
  | EBUSY => "device or resource busy"
  end.

Definition errno_text (e : errno) : string :=
  match e with
  | ENOENT => "no such file or directory"
  | EISDIR => "is a directory"
  | EFAULT f => fault_text f
  end.

(** [err.Error()], which is what [%v] prints. *)
Definition Error (e : error) : string :=
  match e with
  | PathError op path e => op +:+ " " +:+ path +:+ ": " +:+ errno_text e
  | SyscallError call e => call +:+ ": " +:+ errno_text e
  | EOF => "EOF"
  | ErrUnexpectedEOF => "unexpected EOF"
  end.

(** [os.IsNotExist]. *)
Definition IsNotExist (e : error) : bool :=
  match e with
  | PathError _ _ ENOENT | SyscallError _ ENOENT => true
  | _ => false
  end.

(** What a Go call returning [(value, error)] returns. *)
Inductive result (A : Type) :=
| Ok (a : A)
| Err (e : error).
Arguments Ok {A} a.
Arguments Err {A} e.

Definition is_ok {A} (r : result A) : bool :=
  match r with Ok _ => true | Err _ => false end.

Record file := mkFile { data : bytes; mode : Z }.

Inductive node :=
| File (f : file)
| Directory.

(** The steps of a system call that can fail for reasons of the
    environment: resolving a path, opening a file for reading, removing
    an entry, creating a file, opening an existing file for writing. *)
Inductive step := Resolve | OpenRead | Unlink | Create | OpenWrite.

(** The calls that change the file tree, as the program issues them. *)
Inductive call :=
| CallRemove (name : string)
| CallWriteFile (name : string) (content : bytes) (perm : Z).

Record world := mkWorld {
  fs : gmap string node;
  faults : step → gmap string fault;
  umask : Z;
  cwd : option string;
  entropy : bytes;
  verbose : Z;
  stderr : list string;
  calls : list call
}.

Definition set_fs (m : gmap string node) (w : world) : world :=
  mkWorld m (faults w) (umask w) (cwd w) (entropy w) (verbose w)
    (stderr w) (calls w).

Definition set_entropy (e : bytes) (w : world) : world :=
  mkWorld (fs w) (faults w) (umask w) (cwd w) e (verbose w)
    (stderr w) (calls w).

Definition print_stderr (line : string) (w : world) : world :=
  mkWorld (fs w) (faults w) (umask w) (cwd w) (entropy w) (verbose w)
    (stderr w ++ [line]) (calls w).

Definition record_call (c : call) (w : world) : world :=
  mkWorld (fs w) (faults w) (umask w) (cwd w) (entropy w) (verbose w)
    (stderr w) (calls w ++ [c]).

Definition fault_at (s : step) (name : string) (w : world) : option fault :=
  faults w s !! name.

(** Path resolution, shared by every call that takes a name.  The map
    is flat: it holds the entries that exist, each under its full name,
    and the names above an entry are not looked at.  A name that lies
    below a regular file is the fault [ENOTDIR] at [Resolve]. *)
Definition resolve (op name : string) (w : world) : result node :=
  match fault_at Resolve name w with
  | Some f => Err (PathError op name (EFAULT f))
  | None =>
      match fs w !! name with
      | Some n => Ok n
      | None => Err (PathError op name ENOENT)
      end
  end.

(** [os.Stat]; the program only looks at the error. *)
Definition Stat (name : string) (w : world) : result node :=
  resolve "stat" name w.

(** [ioutil.ReadFile]. *)
Definition ReadFile (name : string) (w : world) : result bytes :=
  match resolve "open" name w with
  | Err e => Err e
  | Ok Directory => Err (PathError "read" name EISDIR)
  | Ok (File f) =>
      match fault_at OpenRead name w with
      | Some x => Err (PathError "open" name (EFAULT x))
      | None => Ok (data f)
      end
  end.

(** [os.Remove].  A directory that is not empty is a fault at [Unlink]. *)
Definition Remove (name : string) (w : world) : result unit * world :=
  let w := record_call (CallRemove name) w in
  match resolve "remove" name w with
  | Err e => (Err e, w)
  | Ok _ =>
      match fault_at Unlink name w with
      | Some x => (Err (PathError "remove" name (EFAULT x)), w)
      | None => (Ok tt, set_fs (delete name (fs w)) w)
      end
  end.

(** [ioutil.WriteFile(name, content, perm)]: open with
    [O_WRONLY|O_CREATE|O_TRUNC], write, close.  [perm], less the umask,
    is the mode of a file the call creates; an existing file keeps its
    mode.  A call that fails, fails where the file is opened: a write
    that fails after that is not described.  The directory that is to
    hold a new file is not looked for; a property of a file that is
    created where no entry was names that directory. *)
Definition WriteFile (name : string) (content : bytes) (perm : Z)
    (w : world) : result unit * world :=
  let w := record_call (CallWriteFile name content perm) w in
  match fault_at Resolve name w with
  | Some x => (Err (PathError "open" name (EFAULT x)), w)
  | None =>
      match fs w !! name with
      | Some Directory => (Err (PathError "open" name EISDIR), w)
      | Some (File f) =>
          match fault_at OpenWrite name w with
          | Some x => (Err (PathError "open" name (EFAULT x)), w)
          | None =>
              (Ok tt, set_fs (<[name := File (mkFile content (mode f))]> (fs w)) w)
          end
      | None =>
          match fault_at Create name w with
          | Some x => (Err (PathError "open" name (EFAULT x)), w)
          | None =>
              (Ok tt,
               set_fs (<[name := File (mkFile content (Z.ldiff perm (umask w)))]>
                         (fs w)) w)
          end
      end
  end.

(** [os.Getwd]. *)
Definition Getwd (w : world) : result string :=
  match cwd w with
  | Some dir => Ok dir
  | None => Err (SyscallError "getwd" ENOENT)
  end.

(** [io.ReadFull(rand.Reader, buf)] for a buffer of [n] bytes: the
    error is [EOF] when no byte could be read and [ErrUnexpectedEOF]
    when some but fewer than [n] could. *)
Definition ReadRandom (n : nat) (w : world) : result bytes * world :=
  if decide (n ≤ length (entropy w))
  then (Ok (take n (entropy w)), set_entropy (drop n (entropy w)) w)
  else (Err (match entropy w with
             | [] => EOF
             | _ :: _ => ErrUnexpectedEOF
             end),
        set_entropy [] w).

End OS.
Export OS.

(** ** Formatting *)

Module Fmt.

(** Lower-case digits, as [fmt] uses them for [%x]. *)
Definition ldigits : list ascii := list_ascii_of_string "0123456789abcdef".

Definition hexdigit (n : N) : ascii := nth (N.to_nat n) ldigits "?"%char.

(** [%x] on a byte slice: two lower-case digits per byte, high nibble
    first. *)
Fixpoint hex (b : bytes) : string :=
  match b with
  | [] => EmptyString
  | c :: b' =>
      String (hexdigit (Byte.to_N c / 16))
        (String (hexdigit (Byte.to_N c mod 16)) (hex b'))
  end.

Definition is_lower_hex (c : ascii) : bool :=
  bool_decide (c ∈ ldigits).

(** The operands the program passes to [Sprintf] and friends. *)
Inductive arg :=
| AString (s : string)
| ABytes (b : bytes)
| AError (e : error).

Definition verb (v : ascii) (a : arg) : option string :=
  match a with
  | AString s =>
      if (v =? "s")%char || (v =? "v")%char then Some s else None
  | ABytes b =>
      if (v =? "x")%char then Some (hex b) else None
  | AError e =>
      if (v =? "v")%char then Some (Error e) else None
  end.

(** [fmt.Sprintf] for the verbs [%s], [%v] and [%x]: each verb consumes
    the next operand; text outside verbs is copied. *)
Fixpoint Sprintf (format : string) (args : list arg) : string :=
  match format with
  | EmptyString => EmptyString
  | String c rest =>
      if (c =? "%")%char then
        match rest, args with
        | String v rest', a :: args' =>
            match verb v a with
            | Some s => s +:+ Sprintf rest' args'
            | None => String c (Sprintf rest args)
            end
        | _, _ => String c (Sprintf rest args)
        end
      else String c (Sprintf rest args)
  end.

End Fmt.

#[global] Arguments Fmt.Sprintf : simpl never.

(** ** Computations of the program

    A function of the program takes the world and gives back an outcome
    and the world it leaves.  [Fatal] is the end of the process by [dief];
    [OutOfFuel] says that a loop of the model was cut off, and stands for
    no behaviour of the program. *)

Inductive outcome (A : Type) :=
| Return (a : A)
| Fatal (msg : string)
| OutOfFuel.
Arguments Return {A} a.
Arguments Fatal {A} msg.
Arguments OutOfFuel {A}.

Definition M (A : Type) : Type := world → outcome A * world.

#[global] Instance M_ret : MRet M := λ A a w, (Return a, w).

#[global] Instance M_bind : MBind M := λ A B k m w,
  match m w with
  | (Return a, w') => k a w'
  | (Fatal msg, w') => (Fatal msg, w')
  | (OutOfFuel, w') => (OutOfFuel, w')
  end.

(** A call that only reads the world, and one that changes it. *)
Definition ask {A} (f : world → A) : M A := λ w, (Return (f w), w).
Definition sys {A} (f : world → A * world) : M A :=
  λ w, let '(a, w') := f w in (Return a, w').

(** Modelled from the spec: [dief] is declared in another file of the
    program.  A fatal condition ends the process with a message on the
    error stream; nothing after the call runs. *)
Definition dief {A} (format : string) (args : list Fmt.arg) : M A :=
  λ w, let msg := Fmt.Sprintf format args in (Fatal msg, print_stderr msg w).

(** Modelled from the spec: [verbosef] is declared in another file of the
    program.  A diagnostic is reported only when the verbosity flag is
    set; it never changes what the program does next. *)
Definition verbosef (format : string) (args : list Fmt.arg) : M unit :=
  λ w, if decide (0 < verbose w)%Z
       then (Return tt, print_stderr (Fmt.Sprintf format args) w)
       else (Return tt, w).

(** [for _, x := range xs { body }]. *)
Fixpoint forRange {A} (xs : list A) (body : A → M unit) : M unit :=
  match xs with
  | [] => mret tt
  | x :: xs' => body x ≫= λ _, forRange xs' body
  end.

(** ** The platform

    What [path/filepath] and [runtime] give the program.  The functions
    differ between operating systems; the program is written against
    their interface. *)

Class Filepath := {
  GOOS : string;
  Separator : ascii;
  VolumeName : string → string;
  IsAbs : string → bool;
  Dir : string → string;
  Join : string → string → string
}.

(** ** hook.go *)

Definition hookPath : string := ".git/hooks/".

Definition hookFiles : list string := ["commit-msg"].

Definition hookScript : string :=
  "#!/bin/sh" +:+ nl +:+
  "exec git-review hook-invoke %s " +:+ dq +:+ "$@" +:+ dq +:+ nl.

(** The text of the [oldCommitMsgHook] literal, line by line; every line
    ends with a newline. *)
Definition oldCommitMsgHook_lines : list string :=
  [ "#!/bin/sh"
  ; "# From Gerrit Code Review 2.2.1"
  ; "#"
  ; "# Part of Gerrit Code Review (http://code.google.com/p/gerrit/)"
  ; "#"
  ; "# Copyright (C) 2009 The Android Open Source Project"
  ; "#"
  ; "# Licensed under the Apache License, Version 2.0 (the " +:+ dq +:+ "License" +:+ dq +:+ ");"
  ; "# you may not use this file except in compliance with the License."
  ; "# You may obtain a copy of the License at"
  ; "#"
  ; "# http://www.apache.org/licenses/LICENSE-2.0"
  ; "#"
  ; "# Unless required by applicable law or agreed to in writing, software"
  ; "# distributed under the License is distributed on an " +:+ dq +:+ "AS IS" +:+ dq +:+ " BASIS,"
  ; "# WITHOUT WARRANTIES OR CONDITIONS OF ANY KIND, either express or implied."
  ; "# See the License for the specific language governing permissions and"
  ; "# limitations under the License."
  ; "#"
  ; blank
  ; "CHANGE_ID_AFTER=" +:+ dq +:+ "Bug|Issue" +:+ dq
  ; "MSG=" +:+ dq +:+ "$1" +:+ dq
  ; blank
  ; "# Check for, and add if missing, a unique Change-Id"
  ; "#"
  ; "add_ChangeId() {"
  ; "	clean_message=`sed -e '"
  ; "		/^diff --git a\/.*/{"
  ; "			s///"
  ; "			q"
  ; "		}"
  ; "		/^Signed-off-by:/d"
  ; "		/^#/d"
  ; "	' " +:+ dq +:+ "$MSG" +:+ dq +:+ " | git stripspace`"
  ; "	if test -z " +:+ dq +:+ "$clean_message" +:+ dq
  ; "	then"
  ; "		return"
  ; "	fi"
  ; blank
  ; "	if grep -i '^Change-Id:' " +:+ dq +:+ "$MSG" +:+ dq +:+ " >/dev/null"
  ; "	then"
  ; "		return"
  ; "	fi"
  ; blank
  ; "	id=`_gen_ChangeId`"
  ; "	perl -e '"
  ; "		$MSG = shift;"
  ; "		$id = shift;"
  ; "		$CHANGE_ID_AFTER = shift;"
  ; blank
  ; "		undef $/;"
  ; "		open(I, $MSG); $_ = <I>; close I;"
  ; "		s|^diff --git a/.*||ms;"
  ; "		s|^#.*$||mg;"
  ; "		exit unless $_;"
  ; blank
  ; "		@message = split /\n/;"
  ; "		$haveFooter = 0;"
  ; "		$startFooter = @message;"
  ; "		for($line = @message - 1; $line >= 0; $line--) {"
  ; "			$_ = $message[$line];"
  ; blank
  ; "			if (/^[a-zA-Z0-9-]+:/ && !m,^[a-z0-9-]+://,) {"
  ; "				$haveFooter++;"
  ; "				next;"
  ; "			}"
  ; "			next if /^[ []/;"
  ; "			$startFooter = $line if ($haveFooter && /^\r?$/);"
  ; "			last;"
  ; "		}"
  ; blank
  ; "		@footer = @message[$startFooter+1..@message];"
  ; "		@message = @message[0..$startFooter];"
  ; "		push(@footer, " +:+ dq +:+ dq +:+ ") unless @footer;"
  ; blank
  ; "		for ($line = 0; $line < @footer; $line++) {"
  ; "			$_ = $footer[$line];"
  ; "			next if /^($CHANGE_ID_AFTER):/i;"
  ; "			last;"
  ; "		}"
  ; "		splice(@footer, $line, 0, " +:+ dq +:+ "Change-Id: I$id" +:+ dq +:+ ");"
  ; blank
  ; "		$_ = join(" +:+ dq +:+ "\n" +:+ dq +:+ ", @message, @footer);"
  ; "		open(O, " +:+ dq +:+ ">$MSG" +:+ dq +:+ "); print O; close O;"
  ; "	' " +:+ dq +:+ "$MSG" +:+ dq +:+ " " +:+ dq +:+ "$id" +:+ dq +:+ " " +:+ dq +:+ "$CHANGE_ID_AFTER" +:+ dq
  ; "}"
  ; "_gen_ChangeIdInput() {"
  ; "	echo " +:+ dq +:+ "tree `git write-tree`" +:+ dq
  ; "	if parent=`git rev-parse HEAD^0 2>/dev/null`"
  ; "	then"
  ; "		echo " +:+ dq +:+ "parent $parent" +:+ dq
  ; "	fi"
  ; "	echo " +:+ dq +:+ "author `git var GIT_AUTHOR_IDENT`" +:+ dq
  ; "	echo " +:+ dq +:+ "committer `git var GIT_COMMITTER_IDENT`" +:+ dq
  ; "	echo"
  ; "	printf '%s' " +:+ dq +:+ "$clean_message" +:+ dq
  ; "}"
  ; "_gen_ChangeId() {"
  ; "	_gen_ChangeIdInput |"
  ; "	git hash-object -t commit --stdin"
  ; "}"
  ; blank
  ; blank
  ; "add_ChangeId"
  ].

Definition oldCommitMsgHook : string := Eval vm_compute in
    fold_right (λ line rest, line +:+ nl +:+ rest) EmptyString
      oldCommitMsgHook_lines.

Section Program.

Context {FP : Filepath}.

(** The [for] loop of [repoRoot].  [fuel] bounds the number of
    iterations the model follows. *)
Fixpoint repoRoot_loop (fuel rootlen : nat) (dir : string) : M string :=
  match fuel with
  | 0 => λ w, (OutOfFuel, w)
  | S fuel' =>
      st ← ask (Stat (Join dir ".git"));
      if is_ok st then mret dir
      else
        _ ← (if (String.length dir =? rootlen)%nat &&
                bool_decide (String.get (rootlen - 1) dir = Some Separator)
             then dief "git root not found. Rerun from within the Git tree." []
             else mret tt);
        repoRoot_loop fuel' rootlen (Dir dir)
  end.

Definition repoRoot (fuel : nat) : M string :=
  r ← ask Getwd;
  dir ← match r with
        | Ok dir => mret dir
        | Err err => dief "could not get current directory: %v" [Fmt.AError err]
        end;
  let rootlen :=
    (1 + if (GOOS =? "windows")%string
         then String.length (VolumeName dir) else 0)%nat in
  repoRoot_loop fuel rootlen dir.

(** The special case at the head of the loop body of [installHook]:
    remove the old commit-msg shell script. *)
Definition installHook_migrate (hookFile filename : string) : M unit :=
  if (hookFile =? "commit-msg")%string then
    r ← ask (ReadFile filename);
    match r with
    | Ok data =>
        if (to_string data =? oldCommitMsgHook)%string then
          _ ← verbosef "removing old commit-msg hook" [];
          _ ← sys (Remove filename);
          mret tt
        else mret tt
    | Err _ => mret tt
    end
  else mret tt.

(** The rest of the loop body, from [hookContent := ...] on. *)
Definition installHook_write (hookFile filename : string) : M unit :=
  let hookContent := Fmt.Sprintf hookScript [Fmt.AString hookFile] in
  st ← ask (Stat filename);
  match st with
  | Ok _ =>
      v ← ask verbose;
      if decide (0 < v)%Z then
        r ← ask (ReadFile filename);
        match r with
        | Err err => verbosef "reading hook: %v" [Fmt.AError err]
        | Ok data =>
            if negb (to_string data =? hookContent)%string
            then verbosef "unexpected hook content in %s" [Fmt.AString filename]
            else mret tt
        end
      else mret tt
  | Err err =>
      _ ← (if negb (IsNotExist err)
           then dief "checking hook: %v" [Fmt.AError err]
           else mret tt);
      _ ← verbosef "installing %s hook" [Fmt.AString hookFile];
      r ← sys (WriteFile filename (of_string hookContent) 448 (* 0700 *));
      match r with
      | Err err => dief "writing hook: %v" [Fmt.AError err]
      | Ok _ => mret tt
      end
  end.

Definition installHook_body (fuel : nat) (hookFile : string) : M unit :=
  root ← repoRoot fuel;
  let filename := Join root (hookPath +:+ hookFile) in
  _ ← installHook_migrate hookFile filename;
  installHook_write hookFile filename.

Definition installHook (fuel : nat) : M unit :=
  forRange hookFiles (installHook_body fuel).

End Program.

(** [for n > 0 && data[n-1] == '\n' { n-- }] *)
Fixpoint trim_loop (data : bytes) (n : nat) : nat :=
  match n with
  | 0 => 0
  | S m => if bool_decide (data !! m = Some LF) then trim_loop data m else n
  end.

Definition hookCommitMsg (args : list string) : M unit :=
  match args with
  | [file] =>
      r ← ask (ReadFile file);
      data ← match r with
             | Ok data => mret data
             | Err err => dief "%v" [Fmt.AError err]
             end;
      if Bytes.Contains data (of_string (nl +:+ "Change-Id: ")) then mret tt
      else
        let n := trim_loop data (length data) in
        r ← sys (ReadRandom 20);
        id ← match r with
             | Ok id => mret id
             | Err err => dief "generating Change-Id: %v" [Fmt.AError err]
             end;
        let data :=
          take n data ++
          of_string (Fmt.Sprintf (nl +:+ nl +:+ "Change-Id: I%x" +:+ nl)
                       [Fmt.ABytes id]) in
        r ← sys (WriteFile file data 438 (* 0666 *));
        match r with
        | Err err => dief "%v" [Fmt.AError err]
        | Ok _ => mret tt
        end
  | _ => dief ("usage: git-review hook-invoke commit-msg message.txt" +:+ nl) []
  end.

Definition hookInvoke (args : list string) : M unit :=
  match args with
  | [] => dief "usage: git-review hook-invoke <hook-name> [args...]" []
  | name :: rest =>
      if (name =? "commit-msg")%string then hookCommitMsg rest else mret tt
  end.

(** ** [path/filepath] on Unix

    The functions of the interface as [path/filepath] documents them for
    Unix, where the separator is a slash and there are no volume names.
    They work on the list of characters of a path. *)

Module Unix.

Abbreviation chars := (list ascii).

Definition sep : ascii := "/"%char.

Definition IsPathSeparator (c : ascii) : bool := bool_decide (c = sep).

(** The elements of a path: what lies between its separators. *)
Fixpoint split (s : chars) : list chars :=
  match s with
  | [] => [[]]
  | c :: s' =>
      if IsPathSeparator c then [] :: split s'
      else match split s' with
           | h :: t => (c :: h) :: t
           | [] => [[c]]
           end
  end.

Fixpoint join (elems : list chars) : chars :=
  match elems with
  | [] => []
  | [e] => e
  | e :: elems' => e ++ sep :: join elems'
  end.

Definition dot : chars := ["."%char].
Definition dotdot : chars := ["."%char; "."%char].

(** One element read by [Clean]; [out] holds the elements written so
    far, the last one first.  Empty elements and [.] are dropped; [..]
    removes the element before it, is dropped at the root, and is kept
    where a relative path has nothing left to remove. *)
Definition clean_step (rooted : bool) (out : list chars) (e : chars) : list chars :=
  if decide (e = []) then out
  else if decide (e = dot) then out
  else if decide (e = dotdot) then
    match out with
    | top :: rest => if decide (top = dotdot) then e :: out else rest
    | [] => if rooted then [] else [e]
    end
  else e :: out.

(** [filepath.Clean]. *)
Definition Clean (path : chars) : chars :=
  match path with
  | [] => dot
  | c :: _ =>
      let rooted := IsPathSeparator c in
      let out := rev (fold_left (clean_step rooted) (split path) []) in
      if rooted then sep :: join out
      else match out with
           | [] => dot
           | _ => join out
           end
  end.

(** The loop of [filepath.Dir]: drop the characters after the last
    separator, reading the path from its end. *)
Fixpoint drop_elem (rpath : chars) : chars :=
  match rpath with
  | [] => []
  | c :: rpath' => if IsPathSeparator c then rpath else drop_elem rpath'
  end.

(** [filepath.Dir]. *)
Definition Dir (path : chars) : chars := Clean (rev (drop_elem (rev path))).

(** [filepath.Join] of two elements. *)
Definition Join (a b : chars) : chars :=
  match a, b with
  | [], [] => []
  | [], _ => Clean b
  | _, _ => Clean (a ++ sep :: b)
  end.

(** [filepath.IsAbs]. *)
Definition IsAbs (path : chars) : bool :=
  match path with
  | c :: _ => IsPathSeparator c
  | [] => false
  end.

(** The characters and separators an element list stands for. *)
Definition weight (elems : list chars) : nat :=
  sum_list_with (λ e, S (length e)) elems.

(** The same for what [Clean] reads: empty elements are dropped with
    their separators. *)
Definition weight_read (elems : list chars) : nat :=
  sum_list_with (λ e, if decide (e = []) then 0 else S (length e)) elems.

(** No character of the element is a separator. *)
Definition sep_free (e : chars) : bool :=
  forallb (λ c, negb (IsPathSeparator c)) e.

(** An element that [Clean] keeps: a name other than [.] and [..]. *)
Definition plain (e : chars) : Prop :=
  e ≠ [] ∧ e ≠ dot ∧ e ≠ dotdot ∧ sep_free e = true.

(** The rooted path with the given elements. *)
Definition rooted_path (elems : list chars) : chars := sep :: join elems.

Definition git_elem : chars := list_ascii_of_string ".git".
Definition hook_elems : chars := list_ascii_of_string ".git/hooks/commit-msg".
Definition hooks_dir : chars := list_ascii_of_string ".git/hooks".
Definition hook_elem : chars := list_ascii_of_string "commit-msg".

End Unix.

Definition on_chars (f : list ascii → list ascii) (s : string) : string :=
  string_of_list_ascii (f (list_ascii_of_string s)).

#[global] Instance unix : Filepath := {
  GOOS := "linux";
  Separator := Unix.sep;
  VolumeName := λ _, EmptyString;
  IsAbs := λ path, Unix.IsAbs (list_ascii_of_string path);
  Dir := on_chars Unix.Dir;
  Join := λ a b,
    string_of_list_ascii
      (Unix.Join (list_ascii_of_string a) (list_ascii_of_string b))
}.

(** The absolute path with the given elements, as a Go string. *)
Definition unix_path (elems : list (list ascii)) : string :=
  string_of_list_ascii (Unix.rooted_path elems).

(** ** [path/filepath] on Windows

    A path starts with a volume name, which may be empty: a drive
    letter and a colon, or the host and the share of a UNC path.  Both
    the backslash and the slash separate elements; [Clean] writes the
    backslash.  The loop of [Clean] is the one of Unix. *)

Module Windows.

Abbreviation chars := (list ascii).

Definition sep : ascii := "\"%char.

Definition IsPathSeparator (c : ascii) : bool :=
  bool_decide (c = sep) || bool_decide (c = "/"%char).

Definition is_letter (c : ascii) : bool :=
  let n := nat_of_ascii c in
  (97 <=? n) && (n <=? 122) || (65 <=? n) && (n <=? 90).

(** The length of the share name that starts [s]: it ends before the
    next separator. *)
Fixpoint share_end (s : chars) : nat :=
  match s with
  | [] => 0
  | c :: s' => if IsPathSeparator c then 0 else S (share_end s')
  end.

(** The loop of [volumeNameLen] over the host name of a UNC path, with
    [s] the path from index [n] on: the first separator that has a
    character after it ends the host name, and a share name must follow
    it. *)
Fixpoint unc_scan (s : chars) (n : nat) : nat :=
  match s with
  | c :: ((d :: _) as s') =>
      if IsPathSeparator c then
        if IsPathSeparator d then 0
        else if bool_decide (d = "."%char) then 0
        else S n + share_end s'
      else unc_scan s' (S n)
  | _ => 0
  end.

(** [volumeNameLen]: the length of the leading volume name. *)
Definition volumeNameLen (path : chars) : nat :=
  match path with
  | c :: d :: rest =>
      if bool_decide (d = ":"%char) && is_letter c then 2
      else
        match rest with
        | e :: rest' =>
            if (5 <=? length path) && IsPathSeparator c &&
               IsPathSeparator d && negb (IsPathSeparator e) &&
               negb (bool_decide (e = "."%char))
            then unc_scan rest' 3
            else 0
        | [] => 0
        end
  | _ => 0
  end.

(** [filepath.VolumeName]. *)
Definition VolumeName (path : chars) : chars :=
  take (volumeNameLen path) path.

(** [filepath.IsAbs]. *)
Definition IsAbs (path : chars) : bool :=
  match volumeNameLen path with
  | 0 => false
  | l =>
      match drop l path with
      | [] => false
      | c :: _ => IsPathSeparator c
      end
  end.

(** [filepath.FromSlash]. *)
Definition FromSlash (path : chars) : chars :=
  map (λ c, if bool_decide (c = "/"%char) then sep else c) path.

(** The elements of a path: what lies between its separators. *)
Fixpoint split (s : chars) : list chars :=
  match s with
  | [] => [[]]
  | c :: s' =>
      if IsPathSeparator c then [] :: split s'
      else match split s' with
           | h :: t => (c :: h) :: t
           | [] => [[c]]
           end
  end.

Fixpoint join (elems : list chars) : chars :=
  match elems with
  | [] => []
  | [e] => e
  | e :: elems' => e ++ sep :: join elems'
  end.

(** [filepath.Clean]: the volume name is kept and the rest is cleaned
    as on Unix; slashes become backslashes. *)
Definition Clean (path : chars) : chars :=
  let volLen := volumeNameLen path in
  match drop volLen path with
  | [] =>
      if (1 <? volLen) && negb (bool_decide (path !! 1 = Some ":"%char))
      then FromSlash path
      else path ++ Unix.dot
  | (c :: _) as rest =>
      let rooted := IsPathSeparator c in
      let out := rev (fold_left (Unix.clean_step rooted) (split rest) []) in
      FromSlash
        (take volLen path ++
         (if rooted then sep :: join out
          else match out with
               | [] => Unix.dot
               | _ => join out
               end))
  end.

(** The loop of [filepath.Dir]: drop the characters after the last
    separator, reading the path from its end. *)
Fixpoint drop_elem (rpath : chars) : chars :=
  match rpath with
  | [] => []
  | c :: rpath' => if IsPathSeparator c then rpath else drop_elem rpath'
  end.

(** [filepath.Dir]: the volume name and the cleaned directory of the
    rest. *)
Definition Dir (path : chars) : chars :=
  let vol := VolumeName path in
  vol ++ Clean (rev (drop_elem (rev (drop (length vol) path)))).

(** [filepath.Join] of two elements. *)
Definition Join (a b : chars) : chars :=
  match a, b with
  | [], [] => []
  | [], _ => Clean b
  | _, _ => Clean (a ++ sep :: b)
  end.

(** No character of the element is a separator. *)
Definition sep_free (e : chars) : bool :=
  forallb (λ c, negb (IsPathSeparator c)) e.

(** An element that [Clean] keeps: a name other than [.] and [..]. *)
Definition plain (e : chars) : Prop :=
  e ≠ [] ∧ e ≠ Unix.dot ∧ e ≠ Unix.dotdot ∧ sep_free e = true.

(** A host or share name of a UNC path. *)
Definition unc_name (s : chars) : Prop :=
  sep_free s = true ∧ ∃ c s', s = c :: s' ∧ c ≠ "."%char.

(** The volume names of absolute paths: a drive, or [\\host\share]. *)
Inductive volume : chars → Prop :=
| drive (c : ascii) : is_letter c = true → volume [c; ":"%char]
| unc (host share : chars) :
    unc_name host → unc_name share →
    volume (sep :: sep :: host ++ sep :: share).

(** The path of the given elements on a volume. *)
Definition rooted_path (vol : chars) (elems : list chars) : chars :=
  vol ++ sep :: join elems.

End Windows.

Definition windows : Filepath := {|
  GOOS := "windows";
  Separator := Windows.sep;
  VolumeName := on_chars Windows.VolumeName;
  IsAbs := λ path, Windows.IsAbs (list_ascii_of_string path);
  Dir := on_chars Windows.Dir;
  Join := λ a b,
    string_of_list_ascii
      (Windows.Join (list_ascii_of_string a) (list_ascii_of_string b))
|}.

(** The absolute path with the given elements on a volume, as a Go
    string. *)
Definition windows_path (vol : list ascii) (elems : list (list ascii)) : string :=
  string_of_list_ascii (Windows.rooted_path vol elems).

(** * Vocabulary of the properties *)

(** [trimmed] is [data] with all its trailing newlines removed. *)
Definition newlines_removed (data trimmed : bytes) : Prop :=
  (∃ k, data = trimmed ++ replicate k LF) ∧ last trimmed ≠ Some LF.

Definition all_lower_hex (s : string) : bool :=
  forallb Fmt.is_lower_hex (list_ascii_of_string s).

(** The value of a lower-case hexadecimal digit, from its character
    code: [0] to [9] are the codes 48 to 57, [a] to [f] the codes 97 to
    102. *)
Definition hex_digit_value (c : ascii) : option N :=
  let n := N_of_ascii c in
  if (48 <=? n)%N && (n <=? 57)%N then Some (n - 48)%N
  else if (97 <=? n)%N && (n <=? 102)%N then Some (n - 87)%N
  else None.

(** The number that lower-case hexadecimal digits write after the
    digits of [acc]; the most significant digit comes first. *)
Fixpoint hex_number (s : string) (acc : N) : option N :=
  match s with
  | EmptyString => Some acc
  | String c s' =>
      match hex_digit_value c with
      | Some d => hex_number s' (16 * acc + d)%N
      | None => None
      end
  end.

(** The number that bytes write after the bytes of [acc]; the most
    significant byte comes first. *)
Fixpoint bytes_number (b : bytes) (acc : N) : N :=
  match b with
  | [] => acc
  | c :: b' => bytes_number b' (256 * acc + Byte.to_N c)%N
  end.

(** [h] is the bytes [id] in lower-case hexadecimal: two digits for
    each byte, which write the number the bytes write. *)
Definition encodes (h : string) (id : bytes) : Prop :=
  String.length h = 2 * length id ∧
  hex_number h 0 = Some (bytes_number id 0).

(** The trailer, as [Sprintf] renders it. *)
Definition trailer (id : bytes) : string :=
  nl +:+ nl +:+ "Change-Id: I" +:+ Fmt.hex id +:+ nl.

(** The byte sequence the handler looks for. *)
Definition change_id_marker : bytes := of_string (nl +:+ "Change-Id: ").

(** What the handler writes for the content [data] and the random bytes
    [id]. *)
Definition with_trailer (data id : bytes) : bytes :=
  take (trim_loop data (length data)) data ++ of_string (trailer id).

Section Walk.

Context {FP : Filepath}.

(** The length [repoRoot] computes before its loop. *)
Definition root_len (dir : string) : nat :=
  1 + if (GOOS =? "windows")%string
      then String.length (VolumeName dir) else 0.

(** The test that ends the loop of [repoRoot] at the root of the file
    system. *)
Definition at_root (rootlen : nat) (dir : string) : bool :=
  (String.length dir =? rootlen)%nat &&
  bool_decide (String.get (rootlen - 1) dir = Some Separator).

(** The directory holds an entry named [.git]. *)
Definition has_git (w : world) (dir : string) : bool :=
  is_ok (Stat (Join dir ".git") w).

(** The directory [k] levels above [dir]. *)
Definition up (k : nat) (dir : string) : string := Nat.iter k Dir dir.

(** The path of the commit-msg hook under [root]. *)
Definition hook_at (root : string) : string :=
  Join root (hookPath +:+ "commit-msg").

End Walk.

(** What the program relies on from [path/filepath]: the parent of an
    absolute path that is not a root is a shorter absolute path on the
    same volume, a root is its own parent, and a path to [.git] is never
    the path of the commit-msg hook. *)
Class FilepathLaws (FP : Filepath) : Prop := {
  Dir_shrinks : ∀ d,
    IsAbs d = true → at_root (root_len d) d = false →
    String.length (Dir d) < String.length d ∧
    IsAbs (Dir d) = true ∧ root_len (Dir d) = root_len d;
  Dir_root : ∀ d,
    IsAbs d = true → at_root (root_len d) d = true → Dir d = d;
  hook_not_git : ∀ d r,
    Join d ".git" ≠ Join r (hookPath +:+ "commit-msg")
}.

(** The paths of plain elements on one volume. *)
Definition on_volume (vol : list ascii) (d : string) : Prop :=
  ∃ elems, Forall Windows.plain elems ∧ d = windows_path vol elems.

(** What [repoRoot] needs of a platform, for the working directories
    [ok] that [Getwd] gives there: the parent of such a directory that
    is not a root is a shorter one on the same volume, and a root is its
    own parent. *)
Class WalkLaws (FP : Filepath) (ok : string → Prop) : Prop := {
  walk_shrinks : ∀ d,
    ok d → at_root (root_len d) d = false →
    String.length (Dir d) < String.length d ∧
    ok (Dir d) ∧ root_len (Dir d) = root_len d;
  walk_root : ∀ d,
    ok d → at_root (root_len d) d = true → Dir d = d
}.

(** The working directories of the two platforms: on Unix every
    absolute path, on Windows the path of plain elements on a drive or
    a share, as [Getwd] gives it. *)
Inductive working_directory : Filepath → string → Prop :=
| unix_wd (d : string) :
    Unix.IsAbs (list_ascii_of_string d) = true → working_directory unix d
| windows_wd (vol : list ascii) (elems : list (list ascii)) :
    Windows.volume vol → Forall Windows.plain elems →
    working_directory windows (windows_path vol elems).

(** The root of the volume of a path: its volume name and a separator. *)
Definition volume_root {FP : Filepath} (d : string) : string :=
  VolumeName d +:+ String Separator EmptyString.

Definition not_found : string :=
  "git root not found. Rerun from within the Git tree.".

(** The dispatcher script of a hook. *)
Definition hookContent (hookFile : string) : string :=
  Fmt.Sprintf hookScript [Fmt.AString hookFile].

(** The file that [WriteFile] creates for a hook. *)
Definition hook_file (hookFile : string) (w : world) : file :=
  mkFile (of_string (hookContent hookFile)) (Z.ldiff 448 (umask w)).

(** What no call of the program changes. *)
Definition same_env (w w' : world) : Prop :=
  faults w' = faults w ∧ cwd w' = cwd w ∧ verbose w' = verbose w ∧
  umask w' = umask w.

Definition removing : string := "removing old commit-msg hook".

(** The diagnostics [verbosef] adds for one message. *)
Definition said (w : world) (line : string) : list string :=
  if decide (0 < verbose w)%Z then [line] else [].

(** The diagnostics for a hook file that is already there. *)
Definition existing_note (hookFile filename : string) (w : world) : list string :=
  if decide (0 < verbose w)%Z then
    match ReadFile filename w with
    | Err err => [Fmt.Sprintf "reading hook: %v" [Fmt.AError err]]
    | Ok b =>
        if negb (to_string b =? hookContent hookFile)%string
        then [Fmt.Sprintf "unexpected hook content in %s" [Fmt.AString filename]]
        else []
    end
  else [].

Definition is_write (c : call) : bool :=
  match c with
  | CallWriteFile _ _ _ => true
  | CallRemove _ => false
  end.

(** A diagnostic reports an error when it holds the text of the error, as
    [%v] prints it in the other diagnostics of the program. *)
Definition reports (e : error) (line : string) : bool :=
  Bytes.Contains (of_string line) (of_string (Error e)).

(** Some line printed between [w] and [w'] reports [e]. *)
Definition failure_surfaced (e : error) (w w' : world) : bool :=
  existsb (reports e) (drop (length (stderr w)) (stderr w')).

(** The world a computation leaves when all it may do is die. *)
Definition left_by {A} (o : outcome A) (w : world) : world :=
  match o with
  | Fatal msg => print_stderr msg w
  | _ => w
  end.

(** * Examples *)

(** A message file and a world around it, for the examples. *)
Definition example_message (content : string) : file :=
  mkFile (of_string content) 420 (* 0644 *).

Definition example_world (content : string) : world :=
  mkWorld {[ ".git/COMMIT_EDITMSG" := File (example_message content) ]}
    (λ _, ∅) 18 (* 022 *) (Some "/home/gopher/src/review")
    (replicate 24 xab) 0 [] [].

Definition repo_root : string := "/home/gopher/src/review".
Definition repo_hook : string := "/home/gopher/src/review/.git/hooks/commit-msg".

(** A repository with the working directory two levels below its root;
    [hook] is what lies at the path of the commit-msg hook, [unlink] the
    fault of removing it, [v] the verbosity. *)
Definition repo_world (hook : option node) (unlink : option fault) (v : Z) : world :=
  mkWorld
    (match hook with
     | Some n => <[repo_hook := n]>
     | None => λ m, m
     end
       {[ "/home/gopher/src/review/.git" := Directory;
          "/home/gopher/src/review/.git/hooks" := Directory;
          "/home/gopher/src/review/cmd" := Directory;
          "/home/gopher/src/review/cmd/sub" := Directory ]})
    (λ s, match s, unlink with
          | Unlink, Some x => {[ repo_hook := x ]}
          | _, _ => ∅
          end)
    18 (* 022 *) (Some "/home/gopher/src/review/cmd/sub") [] v [] [].

Definition old_hook : node := File (mkFile (of_string oldCommitMsgHook) 493).

Definition custom_hook : file :=
  mkFile (of_string ("#!/bin/sh" +:+ nl +:+ "exit 0" +:+ nl)) 493.

(** The old script with a space after it. *)
Definition nearly_old_hook : file :=
  mkFile (of_string (oldCommitMsgHook +:+ " ")) 493.

(** * Further vocabulary *)

(** The end of the process with [msg] on the error stream. *)
Definition died {A} (msg : string) (w : world) : outcome A * world :=
  (Fatal msg, print_stderr msg w).

(** The file a call names. *)
Definition call_name (c : call) : string :=
  match c with
  | CallRemove name => name
  | CallWriteFile name _ _ => name
  end.

Definition usage_commit_msg : string :=
  "usage: git-review hook-invoke commit-msg message.txt" +:+ nl.

(** The lines of the dispatcher script for commit-msg. *)
Definition commit_msg_script : string :=
  "#!/bin/sh" +:+ nl +:+
  "exec git-review hook-invoke commit-msg " +:+ dq +:+ "$@" +:+ dq +:+ nl.

(** The world after the handler has drawn its random bytes and called
    [WriteFile] with the new content. *)
Definition after_write_call (name : string) (b : bytes) (w : world) : world :=
  record_call
    (CallWriteFile name (with_trailer b (take 20 (entropy w))) 438)
    (set_entropy (drop 20 (entropy w)) w).

(** The value of a hexadecimal digit: its place among the lower-case
    digits. *)
Definition hexval (c : ascii) : N :=
  match list_find (λ d, d = c) Fmt.ldigits with
  | Some (i, _) => N.of_nat i
  | None => 0
  end.

(** Reading back what [%x] printed: two digits make a byte. *)
Fixpoint unhex (s : string) : bytes :=
  match s with
  | String h (String l s') =>
      match Byte.of_N (16 * hexval h + hexval l) with
      | Some b => b :: unhex s'
      | None => []
      end
  | _ => []
  end.

(** The number of offsets of [b] at which [p] occurs. *)
Fixpoint occurrences (b p : bytes) : nat :=
  (if Bytes.HasPrefix b p then 1 else 0) +
  match b with
  | [] => 0
  | _ :: b' => occurrences b' p
  end.

(** No byte of [l] is a newline. *)
Definition no_lf (l : bytes) : bool :=
  forallb (λ b, negb (Byte.eqb b LF)) l.

(** * Further examples *)

(** The repository of [repo_world] with the faults [flt] gives for the
    steps of the calls that name the commit-msg hook. *)
Definition repo_world_fault
    (hook : option node) (flt : step → option fault) (v : Z) : world :=
  mkWorld (fs (repo_world hook None v))
    (λ s, match flt s with
          | Some x => {[ repo_hook := x ]}
          | None => ∅
          end)
    18 (* 022 *) (Some "/home/gopher/src/review/cmd/sub") [] v [] [].

Definition create_fails (s : step) : option fault :=
  match s with Create => Some EACCES | _ => None end.

Definition resolve_fails (s : step) : option fault :=
  match s with Resolve => Some EACCES | _ => None end.

(** A working directory outside every repository. *)
Definition bare_world : world :=
  mkWorld {[ "/tmp" := Directory; "/tmp/x" := Directory ]}
    (λ _, ∅) 18 (* 022 *) (Some "/tmp/x") [] 1 [] [].

(** Two message files and [n] bytes of randomness. *)
Definition two_messages (n : nat) : world :=
  mkWorld {[ "a.txt" := File (example_message ("first" +:+ nl));
             "b.txt" := File (example_message ("second" +:+ nl)) ]}
    (λ _, ∅) 18 (* 022 *) (Some "/home/gopher/src/review")
    (map (λ i, match Byte.of_nat i with Some b => b | None => x00 end)
         (seq 0 n)) 0 [] [].

(** The elements of the root of the example repository and of the
    working directory below it. *)
Definition repo_elems : list (list ascii) :=
  map list_ascii_of_string ["home"; "gopher"; "src"; "review"].

(** The elements of the directory that holds the hooks. *)
Definition hooks_dir_elems : list (list ascii) :=
  map list_ascii_of_string [".git"; "hooks"].

(** The elements of [hookPath] and the name of the commit-msg hook. *)
Definition hook_path_elems : list (list ascii) :=
  map list_ascii_of_string [".git"; "hooks"; "commit-msg"].

Definition sub_elems : list (list ascii) :=
  map list_ascii_of_string ["cmd"; "sub"].

Definition drive_c : list ascii := list_ascii_of_string "C:".

(** A repository on a Windows drive, with the working directory two
    levels below its root, when [git] is set; the same directories with
    no repository otherwise. *)
Definition windows_world (git : bool) : world :=
  mkWorld
    ((if git
      then <[windows_path drive_c (repo_elems ++ [Unix.git_elem]) := Directory]>
      else λ m, m)
       {[ windows_path drive_c repo_elems := Directory;
          windows_path drive_c (repo_elems ++ sub_elems) := Directory ]})
    (λ _, ∅) 0 (Some (windows_path drive_c (repo_elems ++ sub_elems)))
    [] 0 [] [].

(** * Properties *)

(** ** Byte slices *)

Lemma byte_eqb_true (a b : byte) : Byte.eqb a b = true ↔ a = b.
Proof. split; [apply Byte.byte_dec_bl | apply Byte.byte_dec_lb]. Qed.

Lemma HasPrefix_spec (s p : bytes) :
  Bytes.HasPrefix s p = true ↔ ∃ t, s = p ++ t.
Proof.
  revert s. induction p as [|c p IH]; intros s; simpl.
  - split; [intros _; by exists s | done].
  - destruct s as [|d s].
    + split; [done | intros [t Ht]; discriminate].
    + rewrite andb_true_iff, byte_eqb_true, IH. split.
      * intros [-> [t ->]]. by exists t.
      * intros [t Ht]. injection Ht as -> ->. eauto.
Qed.

(** [bytes.Contains] finds the sequence wherever it is. *)
Lemma Contains_spec (b p : bytes) :
  Bytes.Contains b p = true ↔ ∃ pre post, b = pre ++ p ++ post.
Proof.
  induction b as [|c b IH]; simpl.
  - rewrite orb_false_r, HasPrefix_spec. split.
    + intros [t Ht]. by exists [], t.
    + intros (pre & post & H). symmetry in H.
      apply app_eq_nil in H as [-> H]. exists post. done.
  - rewrite orb_true_iff, HasPrefix_spec, IH. split.
    + intros [[t Ht] | (pre & post & ->)].
      * by exists [], t.
      * by exists (c :: pre), post.
    + intros (pre & post & H). destruct pre as [|d pre].
      * left. by exists post.
      * right. injection H as -> ->. eauto.
Qed.

Lemma Contains_app_l (a b p : bytes) :
  Bytes.Contains b p = true → Bytes.Contains (a ++ b) p = true.
Proof.
  rewrite !Contains_spec. intros (pre & post & ->).
  exists (a ++ pre), post. by rewrite <- app_assoc.
Qed.

(** ** Trimming *)

Lemma trim_loop_le (data : bytes) (n : nat) : trim_loop data n ≤ n.
Proof.
  induction n as [|n IH]; simpl; [lia|]. case_bool_decide; lia.
Qed.

Lemma trim_loop_take (data : bytes) (n : nat) :
  n ≤ length data →
  take n data =
    take (trim_loop data n) data ++ replicate (n - trim_loop data n) LF.
Proof.
  induction n as [|n IH]; intros Hn; simpl.
  - done.
  - case_bool_decide as Hlf.
    + rewrite (take_S_r _ _ _ Hlf), IH by lia.
      pose proof (trim_loop_le data n).
      replace (S n - trim_loop data n) with (S (n - trim_loop data n)) by lia.
      rewrite <- app_assoc. f_equal.
      change [LF] with (replicate 1 LF). rewrite <- replicate_add.
      f_equal. lia.
    + replace (S n - S n) with 0 by lia. simpl. by rewrite app_nil_r.
Qed.

Lemma trim_loop_last (data : bytes) (n : nat) :
  n ≤ length data → last (take (trim_loop data n) data) ≠ Some LF.
Proof.
  induction n as [|n IH]; intros Hn; simpl.
  - done.
  - case_bool_decide as Hlf; [apply IH; lia|].
    destruct (data !! n) as [c|] eqn:Hc.
    + rewrite (take_S_r _ _ _ Hc), last_snoc. congruence.
    + apply lookup_ge_None in Hc. lia.
Qed.

Lemma trim_loop_spec (data : bytes) :
  newlines_removed data (take (trim_loop data (length data)) data).
Proof.
  split.
  - exists (length data - trim_loop data (length data)).
    rewrite <- trim_loop_take by lia. by rewrite firstn_all.
  - by apply trim_loop_last.
Qed.

(** The trimmed content is determined by the content. *)
Lemma newlines_removed_unique (data t1 t2 : bytes) :
  newlines_removed data t1 → newlines_removed data t2 → t1 = t2.
Proof.
  intros [[k1 H1] L1] [[k2 H2] L2]. subst data.
  revert k2 H2. induction k1 as [|k1 IH]; intros [|k2] H2.
  - by rewrite !app_nil_r in H2.
  - exfalso. apply L1. rewrite app_nil_r in H2. subst t1.
    rewrite replicate_S_end, app_assoc, last_snoc. done.
  - exfalso. apply L2. rewrite app_nil_r in H2. subst t2.
    rewrite replicate_S_end, app_assoc, last_snoc. done.
  - apply (IH k2). rewrite !replicate_S_end, !app_assoc in H2.
    by apply app_inj_tail in H2 as [H2 _].
Qed.

(** ** Formatting *)

Lemma hex_length (b : bytes) : String.length (Fmt.hex b) = 2 * length b.
Proof. induction b as [|c b IH]; simpl; [done | lia]. Qed.

Lemma hexdigit_nibbles (c : byte) :
  Fmt.is_lower_hex (Fmt.hexdigit (Byte.to_N c / 16)) = true ∧
  Fmt.is_lower_hex (Fmt.hexdigit (Byte.to_N c mod 16)) = true.
Proof. destruct c; vm_compute; done. Qed.

Lemma hex_lower (b : bytes) : all_lower_hex (Fmt.hex b) = true.
Proof.
  unfold all_lower_hex. induction b as [|c b IH]; [done|].
  destruct (hexdigit_nibbles c) as [Hhi Hlo].
  simpl. by rewrite Hhi, Hlo.
Qed.

Lemma of_string_app (s t : string) :
  of_string (s +:+ t) = of_string s ++ of_string t.
Proof.
  unfold of_string, list_byte_of_string.
  induction s as [|c s IH]; simpl; [done | by rewrite IH].
Qed.

Lemma Sprintf_trailer (id : bytes) :
  Fmt.Sprintf (nl +:+ nl +:+ "Change-Id: I%x" +:+ nl) [Fmt.ABytes id] = trailer id.
Proof. reflexivity. Qed.

Lemma trailer_has_change_id (id : bytes) :
  ∃ post, of_string (trailer id) =
          LF :: of_string (nl +:+ "Change-Id: ") ++ post.
Proof.
  exists (of_string ("I" +:+ Fmt.hex id +:+ nl)).
  unfold trailer. rewrite !of_string_app. reflexivity.
Qed.

(** ** The system calls *)

Lemma ReadFile_Ok (name : string) (w : world) (b : bytes) :
  ReadFile name w = Ok b ↔
  fault_at Resolve name w = None ∧ fault_at OpenRead name w = None ∧
  ∃ f, fs w !! name = Some (File f) ∧ data f = b.
Proof.
  unfold ReadFile, resolve.
  destruct (fault_at Resolve name w) as [x|].
  { split; [done | intros [? _]; done]. }
  destruct (fs w !! name) as [[g|]|].
  - destruct (fault_at OpenRead name w) as [x|].
    + split; [done | intros (_ & ? & _); done].
    + split.
      * intros [= <-]. eauto.
      * intros (_ & _ & f & [= <-] & <-). done.
  - split; [done | intros (_ & _ & f & ? & _); done].
  - split; [done | intros (_ & _ & f & ? & _); done].
Qed.

(** Reading looks at the file tree and at the fault table only. *)
Lemma ReadFile_ext (name : string) (w w' : world) :
  fs w' !! name = fs w !! name → faults w' = faults w →
  ReadFile name w' = ReadFile name w.
Proof.
  intros Hfs Hf. unfold ReadFile, resolve, fault_at. by rewrite Hfs, Hf.
Qed.

Lemma Stat_ext (name : string) (w w' : world) :
  fs w' !! name = fs w !! name → faults w' = faults w →
  Stat name w' = Stat name w.
Proof.
  intros Hfs Hf. unfold Stat, resolve, fault_at. by rewrite Hfs, Hf.
Qed.

(** ** The commit-msg handler *)

Ltac run :=
  unfold mbind, M_bind, mret, M_ret, ask, sys, dief; simpl.

(** A message without the marker, when reading, randomness and writing
    succeed: the world the handler leaves. *)
Lemma hookCommitMsg_fresh (name : string) (w : world) (f : file) :
  fs w !! name = Some (File f) →
  ReadFile name w = Ok (data f) →
  Bytes.Contains (data f) change_id_marker = false →
  20 ≤ length (entropy w) →
  fault_at OpenWrite name w = None →
  let id := take 20 (entropy w) in
  let new := with_trailer (data f) id in
  hookCommitMsg [name] w =
    (Return tt,
     set_fs (<[name := File (mkFile new (mode f))]> (fs w))
       (record_call (CallWriteFile name new 438)
          (set_entropy (drop 20 (entropy w)) w))).
Proof.
  intros Hfs Hread Hnot Hrand Hwrite. simpl.
  apply ReadFile_Ok in Hread as Hr. destruct Hr as (Hres & _ & _).
  unfold hookCommitMsg. run. rewrite Hread.
  fold change_id_marker. rewrite Hnot.
  unfold ReadRandom. rewrite decide_True by done. simpl.
  unfold WriteFile, fault_at in *. simpl.
  rewrite Hres, Hfs, Hwrite. rewrite Sprintf_trailer. reflexivity.
Qed.

(** A message with the marker: the handler returns and changes nothing. *)
Lemma hookCommitMsg_present (name : string) (w : world) (b : bytes) :
  ReadFile name w = Ok b →
  Bytes.Contains b change_id_marker = true →
  hookCommitMsg [name] w = (Return tt, w).
Proof.
  intros Hread Hin. unfold hookCommitMsg. run. rewrite Hread.
  fold change_id_marker. by rewrite Hin.
Qed.

(** Whatever the handler does, it reads the file first. *)
Lemma hookCommitMsg_unreadable (name : string) (w : world) (e : error) :
  ReadFile name w = Err e →
  let msg := Fmt.Sprintf "%v" [Fmt.AError e] in
  hookCommitMsg [name] w = (Fatal msg, print_stderr msg w).
Proof.
  intros Hread. unfold hookCommitMsg. run. by rewrite Hread.
Qed.

Lemma with_trailer_marked (data id : bytes) :
  Bytes.Contains (with_trailer data id) change_id_marker = true.
Proof.
  apply Contains_app_l. destruct (trailer_has_change_id id) as [post ->].
  apply Contains_spec. by exists [LF], post.
Qed.

Lemma hex_digits_value (c : byte) :
  hex_digit_value (Fmt.hexdigit (Byte.to_N c / 16)) =
    Some (Byte.to_N c / 16)%N ∧
  hex_digit_value (Fmt.hexdigit (Byte.to_N c mod 16)) =
    Some (Byte.to_N c mod 16)%N.
Proof. destruct c; vm_compute; done. Qed.

Lemma hex_number_hex (b : bytes) (acc : N) :
  hex_number (Fmt.hex b) acc = Some (bytes_number b acc).
Proof.
  revert acc. induction b as [|c b IH]; intros acc; [done|].
  destruct (hex_digits_value c) as [Hhi Hlo].
  simpl. rewrite Hhi, Hlo, IH. do 2 f_equal.
  pose proof (N.div_mod (Byte.to_N c) 16). lia.
Qed.

Lemma hex_encodes (b : bytes) : encodes (Fmt.hex b) b.
Proof. split; [apply hex_length | apply hex_number_hex]. Qed.

(** C1. For a message file whose content does not contain the marker, when
    reading, randomness and writing succeed, the handler rewrites the file
    to the content with all trailing newlines removed, followed by two
    newlines, [Change-Id: I], 40 lower-case hexadecimal digits and one
    newline.  The digits are the 20 random bytes in hexadecimal: read as
    one number, most significant digit first, they write the number the
    bytes write, most significant byte first.  The content [fix bug]
    with a newline becomes [fix bug], a blank line, the trailer line. *)
Theorem hookCommitMsg_appends_trailer (name : string) (w : world) (f : file) :
  fs w !! name = Some (File f) →
  ReadFile name w = Ok (data f) →
  20 ≤ length (entropy w) →
  fault_at OpenWrite name w = None →
  Bytes.Contains (data f) change_id_marker = false →
  ∃ (trimmed : bytes) (h : string) (w' : world),
    let id := take 20 (entropy w) in
    let new :=
      trimmed ++
      of_string (nl +:+ nl +:+ "Change-Id: I" +:+ h +:+ nl) in
    newlines_removed (data f) trimmed ∧
    length id = 20 ∧
    String.length h = 40 ∧
    all_lower_hex h = true ∧
    encodes h id ∧
    hookCommitMsg [name] w = (Return tt, w') ∧
    fs w' = <[name := File (mkFile new (mode f))]> (fs w) ∧
    (data f = of_string ("fix bug" +:+ nl) →
     new = of_string ("fix bug" +:+ nl +:+ nl +:+ "Change-Id: I" +:+
                      h +:+ nl)).
Proof.
  intros Hfs Hread Hrand Hwrite Hnot.
  pose proof (hookCommitMsg_fresh name w f Hfs Hread Hnot Hrand Hwrite) as Hrun.
  simpl in Hrun.
  exists (take (trim_loop (data f) (length (data f))) (data f)).
  exists (Fmt.hex (take 20 (entropy w))).
  eexists. simpl.
  assert (length (take 20 (entropy w)) = 20) as Hlen
    by (rewrite length_take; lia).
  split; [apply trim_loop_spec|].
  split; [done|].
  split; [rewrite hex_length, Hlen; done|].
  split; [apply hex_lower|].
  split; [apply hex_encodes|].
  split; [exact Hrun|].
  split; [reflexivity|].
  intros Hdata.
  assert (take (trim_loop (data f) (length (data f))) (data f) =
          of_string "fix bug") as ->.
  { apply (newlines_removed_unique (data f)); [apply trim_loop_spec|].
    rewrite Hdata. split; [by exists 1 | by vm_compute]. }
  by rewrite <- of_string_app.
Qed.

Lemma hookCommitMsg_appends_trailer_witness :
  ∃ (trimmed : bytes) (h : string) (w' : world),
    let id := replicate 20 xab in
    let new :=
      trimmed ++
      of_string (nl +:+ nl +:+ "Change-Id: I" +:+ h +:+ nl) in
    newlines_removed (of_string ("fix bug" +:+ nl)) trimmed ∧
    length id = 20 ∧
    String.length h = 40 ∧
    all_lower_hex h = true ∧
    encodes h id ∧
    hookCommitMsg [".git/COMMIT_EDITMSG"] (example_world ("fix bug" +:+ nl)) =
      (Return tt, w') ∧
    fs w' = <[".git/COMMIT_EDITMSG" := File (mkFile new 420)]>
              (fs (example_world ("fix bug" +:+ nl))) ∧
    (of_string ("fix bug" +:+ nl) = of_string ("fix bug" +:+ nl) →
     new = of_string ("fix bug" +:+ nl +:+ nl +:+ "Change-Id: I" +:+
                      h +:+ nl)).
Proof.
  apply (hookCommitMsg_appends_trailer ".git/COMMIT_EDITMSG"
           (example_world ("fix bug" +:+ nl))
           (example_message ("fix bug" +:+ nl))).
  - reflexivity.
  - reflexivity.
  - simpl. lia.
  - reflexivity.
  - reflexivity.
Defined.

(** C2. For a message file whose content contains the marker anywhere, the
    handler does not modify the file, whatever precedes and whatever
    follows the marker: the file tree stays as it is, and when the file
    can be read the handler returns and leaves the whole world as it
    found it. *)
Theorem hookCommitMsg_keeps_marked_message
    (name : string) (w : world) (f : file) (pre post : bytes) :
  fs w !! name = Some (File f) →
  data f = pre ++ change_id_marker ++ post →
  fs (snd (hookCommitMsg [name] w)) = fs w ∧
  (ReadFile name w = Ok (data f) → hookCommitMsg [name] w = (Return tt, w)).
Proof.
  intros Hfs Hdata.
  assert (Bytes.Contains (data f) change_id_marker = true) as Hin
    by (apply Contains_spec; eauto).
  destruct (ReadFile name w) as [b|e] eqn:Hread.
  - apply ReadFile_Ok in Hread as Hr.
    destruct Hr as (_ & _ & g & Hg & <-).
    assert (g = f) as -> by congruence.
    rewrite (hookCommitMsg_present _ _ _ Hread Hin). done.
  - rewrite (hookCommitMsg_unreadable _ _ _ Hread). done.
Qed.

Lemma hookCommitMsg_keeps_marked_message_witness :
  let w := example_world ("fix" +:+ nl +:+ "Change-Id: abc" +:+ nl +:+ "more") in
  fs (snd (hookCommitMsg [".git/COMMIT_EDITMSG"] w)) = fs w ∧
  (ReadFile ".git/COMMIT_EDITMSG" w =
     Ok (of_string ("fix" +:+ nl +:+ "Change-Id: abc" +:+ nl +:+ "more")) →
   hookCommitMsg [".git/COMMIT_EDITMSG"] w = (Return tt, w)).
Proof.
  apply (hookCommitMsg_keeps_marked_message ".git/COMMIT_EDITMSG" _
           (example_message ("fix" +:+ nl +:+ "Change-Id: abc" +:+ nl +:+ "more"))
           (of_string "fix") (of_string ("abc" +:+ nl +:+ "more"))).
  - reflexivity.
  - reflexivity.
Defined.

(** What a successful run leaves behind. *)
Lemma hookCommitMsg_Return_inv (args : list string) (w w1 : world) :
  hookCommitMsg args w = (Return tt, w1) →
  ∃ name b, args = [name] ∧ ReadFile name w1 = Ok b ∧
            Bytes.Contains b change_id_marker = true.
Proof.
  intros Hrun. destruct args as [|name [|? ?]]; try discriminate Hrun.
  exists name. revert Hrun. unfold hookCommitMsg. run.
  destruct (ReadFile name w) as [b|e] eqn:Hread; [|discriminate].
  fold change_id_marker.
  destruct (Bytes.Contains b change_id_marker) eqn:Hin.
  - intros [= <-]. eauto.
  - unfold ReadRandom. case_decide; [|discriminate]. simpl.
    apply ReadFile_Ok in Hread as (Hres & Hopen & f & Hfs & <-).
    unfold WriteFile, fault_at in *. simpl.
    rewrite Hres, Hfs.
    destruct (faults w OpenWrite !! name) as [x|] eqn:Hw; [discriminate|].
    rewrite Sprintf_trailer. intros [= <-].
    exists (with_trailer (data f) (take 20 (entropy w))).
    split; [done|]. split; [|apply with_trailer_marked].
    apply ReadFile_Ok. unfold fault_at. simpl.
    rewrite lookup_insert_eq. eauto.
Qed.

(** C8. Running the handler a second time on the message file leaves the
    file as the first run left it: after a successful first run the file
    holds the marker, so the second run returns and changes nothing. *)
Theorem hookCommitMsg_twice (args : list string) (w w1 : world) :
  hookCommitMsg args w = (Return tt, w1) →
  (∃ name b, args = [name] ∧ ReadFile name w1 = Ok b ∧
             Bytes.Contains b change_id_marker = true) ∧
  hookCommitMsg args w1 = (Return tt, w1).
Proof.
  intros Hrun.
  destruct (hookCommitMsg_Return_inv _ _ _ Hrun) as (name & b & -> & Hread & Hin).
  split; [eauto|]. by apply (hookCommitMsg_present name w1 b).
Qed.

Lemma hookCommitMsg_twice_witness :
  let w := example_world ("fix bug" +:+ nl) in
  let w1 := snd (hookCommitMsg [".git/COMMIT_EDITMSG"] w) in
  (∃ name b, [".git/COMMIT_EDITMSG"] = [name] ∧ ReadFile name w1 = Ok b ∧
             Bytes.Contains b change_id_marker = true) ∧
  hookCommitMsg [".git/COMMIT_EDITMSG"] w1 = (Return tt, w1).
Proof.
  apply (hookCommitMsg_twice [".git/COMMIT_EDITMSG"]
           (example_world ("fix bug" +:+ nl))).
  reflexivity.
Defined.

(** A prefix that does not end in a newline survives the trimming. *)
Lemma trimmed_keeps_prefix (data trimmed pfx rest : bytes) :
  newlines_removed data trimmed →
  data = pfx ++ rest →
  last pfx ≠ Some LF →
  ∃ mid, trimmed = pfx ++ mid.
Proof.
  intros [[k Hk] _] Hdata Hlast.
  destruct pfx as [|c pfx _] using rev_ind; [by exists trimmed|].
  rewrite last_snoc in Hlast.
  assert (data !! length pfx = Some c) as Hc.
  { rewrite Hdata, <- app_assoc. simpl. by rewrite list_lookup_middle. }
  destruct (decide (length pfx < length trimmed)) as [Hlt|Hge].
  - exists (drop (S (length pfx)) trimmed).
    rewrite <- (take_drop (S (length pfx)) trimmed) at 1. f_equal.
    assert (take (S (length pfx)) trimmed = take (S (length pfx)) data) as ->.
    { rewrite Hk. rewrite take_app_le by lia. done. }
    rewrite Hdata. rewrite take_app_length'; [done|].
    rewrite length_app. simpl. lia.
  - exfalso. rewrite Hk in Hc.
    rewrite lookup_app_r in Hc by lia.
    apply lookup_replicate in Hc as [-> _]. done.
Qed.

(** C10. A message file that begins with [Change-Id: ] at offset 0 and has
    no marker (the same bytes after a newline) is not taken to carry a
    trailer: the handler keeps the first line and appends a trailer of its
    own, so that the file then holds two [Change-Id: ] lines. *)
Theorem hookCommitMsg_misses_first_line
    (name : string) (w : world) (f : file) (rest : bytes) :
  fs w !! name = Some (File f) →
  ReadFile name w = Ok (data f) →
  20 ≤ length (entropy w) →
  fault_at OpenWrite name w = None →
  data f = of_string "Change-Id: " ++ rest →
  Bytes.Contains (data f) change_id_marker = false →
  ∃ (mid : bytes) (w' : world),
    let id := take 20 (entropy w) in
    let new :=
      of_string "Change-Id: " ++ mid ++
      of_string (nl +:+ nl +:+ "Change-Id: I" +:+ Fmt.hex id +:+ nl) in
    hookCommitMsg [name] w = (Return tt, w') ∧
    fs w' = <[name := File (mkFile new (mode f))]> (fs w) ∧
    new ≠ data f.
Proof.
  intros Hfs Hread Hrand Hwrite Hdata Hnot.
  pose proof (hookCommitMsg_fresh name w f Hfs Hread Hnot Hrand Hwrite) as Hrun.
  simpl in Hrun.
  destruct (trimmed_keeps_prefix (data f) _ _ rest
              (trim_loop_spec (data f)) Hdata) as [mid Hmid]; [by vm_compute|].
  assert (with_trailer (data f) (take 20 (entropy w)) =
          of_string "Change-Id: " ++ mid ++
          of_string (trailer (take 20 (entropy w)))) as Hnew.
  { unfold with_trailer. by rewrite Hmid, <- app_assoc. }
  exists mid. eexists. cbv zeta. fold (trailer (take 20 (entropy w))).
  rewrite <- Hnew. split; [exact Hrun|]. split; [done|].
  intros Heq.
  pose proof (with_trailer_marked (data f) (take 20 (entropy w))) as Hin.
  rewrite Heq in Hin. congruence.
Qed.

Lemma hookCommitMsg_misses_first_line_witness :
  ∃ (mid : bytes) (w' : world),
    let w := example_world ("Change-Id: I0123" +:+ nl) in
    let id := replicate 20 xab in
    let new :=
      of_string "Change-Id: " ++ mid ++
      of_string (nl +:+ nl +:+ "Change-Id: I" +:+ Fmt.hex id +:+ nl) in
    hookCommitMsg [".git/COMMIT_EDITMSG"] w = (Return tt, w') ∧
    fs w' = <[".git/COMMIT_EDITMSG" := File (mkFile new 420)]> (fs w) ∧
    new ≠ of_string ("Change-Id: I0123" +:+ nl).
Proof.
  apply (hookCommitMsg_misses_first_line ".git/COMMIT_EDITMSG"
           (example_world ("Change-Id: I0123" +:+ nl))
           (example_message ("Change-Id: I0123" +:+ nl))
           (of_string ("I0123" +:+ nl))).
  - reflexivity.
  - reflexivity.
  - simpl. lia.
  - reflexivity.
  - reflexivity.
  - reflexivity.
Defined.

(** ** The dispatcher *)

(** C7. [hookInvoke] with no argument ends the process with the usage
    message; with [commit-msg] first it is the commit-msg handler on the
    remaining arguments; with any other hook name it returns and leaves
    the world as it is. *)
Theorem hookInvoke_dispatch (w : world) :
  hookInvoke [] w =
    (Fatal "usage: git-review hook-invoke <hook-name> [args...]",
     print_stderr "usage: git-review hook-invoke <hook-name> [args...]" w) ∧
  (∀ rest, hookInvoke ("commit-msg" :: rest) w = hookCommitMsg rest w) ∧
  (∀ hook rest, hook ≠ "commit-msg" →
     hookInvoke (hook :: rest) w = (Return tt, w)).
Proof.
  split; [reflexivity|]. split; [reflexivity|].
  intros hook rest Hne. unfold hookInvoke.
  apply String.eqb_neq in Hne. by rewrite Hne.
Qed.

Lemma hookInvoke_dispatch_witness :
  hookInvoke ["pre-commit"; "x"] (example_world "fix bug") =
    (Return tt, example_world "fix bug").
Proof.
  apply (hookInvoke_dispatch (example_world "fix bug")). by vm_compute.
Defined.

(** ** Resolving the root of the repository *)

Section WalkProperties.

Context {FP : Filepath} {laws : FilepathLaws FP}.

Lemma up_S (k : nat) (dir : string) : up (S k) dir = up k (Dir dir).
Proof. unfold up. by rewrite Nat.iter_succ_r. Qed.

Lemma repoRoot_loop_S (fuel rootlen : nat) (dir : string) (w : world) :
  repoRoot_loop (S fuel) rootlen dir w =
    if has_git w dir then (Return dir, w)
    else if at_root rootlen dir
         then (Fatal not_found, print_stderr not_found w)
    else repoRoot_loop fuel rootlen (Dir dir) w.
Proof.
  simpl. run. fold (has_git w dir). destruct (has_git w dir); [done|].
  fold (at_root rootlen dir). by destruct (at_root rootlen dir).
Qed.

(** The loop changes nothing but the error stream, when it dies. *)
Lemma repoRoot_loop_pure (fuel rootlen : nat) (dir : string) (w : world) :
  snd (repoRoot_loop fuel rootlen dir w) =
  left_by (fst (repoRoot_loop fuel rootlen dir w)) w.
Proof.
  revert dir. induction fuel as [|fuel IH]; intros dir; [done|].
  rewrite repoRoot_loop_S.
  destruct (has_git w dir); [done|]. by destruct (at_root rootlen dir).
Qed.

(** The walk: the loop climbs [k] levels, passing directories that are
    neither roots nor hold [.git], and ends at the first directory that
    holds [.git] or, failing that, at the root. *)
Lemma repoRoot_loop_walk (w : world) (n : nat) :
  ∀ dir, String.length dir ≤ n → IsAbs dir = true →
  ∃ k, k ≤ n ∧
    (∀ j, j < k →
       has_git w (up j dir) = false ∧
       at_root (root_len dir) (up j dir) = false) ∧
    IsAbs (up k dir) = true ∧ root_len (up k dir) = root_len dir ∧
    ((has_git w (up k dir) = true ∧
      ∀ fuel, k < fuel →
        repoRoot_loop fuel (root_len dir) dir w = (Return (up k dir), w)) ∨
     (has_git w (up k dir) = false ∧
      at_root (root_len dir) (up k dir) = true ∧
      ∀ fuel, k < fuel →
        repoRoot_loop fuel (root_len dir) dir w =
          (Fatal not_found, print_stderr not_found w))).
Proof.
  induction n as [|n IH]; intros dir Hlen Habs.
  - (* a path of length 0 cannot shrink: it is found or it is a root *)
    exists 0. split; [lia|]. split; [intros j Hj; lia|].
    split; [done|]. split; [done|].
    destruct (has_git w dir) eqn:Hgit.
    + left. split; [done|]. intros [|fuel] Hf; [lia|].
      by rewrite repoRoot_loop_S, Hgit.
    + destruct (at_root (root_len dir) dir) eqn:Hroot.
      * right. split; [done|]. split; [done|]. intros [|fuel] Hf; [lia|].
        by rewrite repoRoot_loop_S, Hgit, Hroot.
      * destruct (Dir_shrinks dir Habs Hroot) as [Hlt _]. lia.
  - destruct (has_git w dir) eqn:Hgit.
    { exists 0. split; [lia|]. split; [intros j Hj; lia|].
      split; [done|]. split; [done|].
      left. split; [done|]. intros [|fuel] Hf; [lia|].
      by rewrite repoRoot_loop_S, Hgit. }
    destruct (at_root (root_len dir) dir) eqn:Hroot.
    { exists 0. split; [lia|]. split; [intros j Hj; lia|].
      split; [done|]. split; [done|].
      right. split; [done|]. split; [done|]. intros [|fuel] Hf; [lia|].
      by rewrite repoRoot_loop_S, Hgit, Hroot. }
    destruct (Dir_shrinks dir Habs Hroot) as (Hlt & Habs' & Hlen').
    destruct (IH (Dir dir)) as (k & Hk & Hbefore & Hka & Hkl & Hend);
      [lia|done|].
    rewrite Hlen' in Hbefore, Hend, Hkl.
    exists (S k). split; [lia|]. split.
    { intros [|j] Hj; [done|]. rewrite up_S. apply Hbefore. lia. }
    rewrite up_S. split; [done|]. split; [done|].
    destruct Hend as [[Hg Hrun] | (Hg & Hr & Hrun)]; [left | right].
    + split; [done|]. intros [|fuel] Hf; [lia|].
      rewrite repoRoot_loop_S, Hgit, Hroot. apply Hrun. lia.
    + split; [done|]. split; [done|]. intros [|fuel] Hf; [lia|].
      rewrite repoRoot_loop_S, Hgit, Hroot. apply Hrun. lia.
Qed.

Lemma repoRoot_cwd (fuel : nat) (w : world) (dir : string) :
  cwd w = Some dir →
  repoRoot fuel w = repoRoot_loop fuel (root_len dir) dir w.
Proof. intros Hcwd. unfold repoRoot, Getwd. run. by rewrite Hcwd. Qed.

(** [repoRoot] changes nothing but the error stream, when it dies. *)
Lemma repoRoot_pure (fuel : nat) (w : world) :
  snd (repoRoot fuel w) = left_by (fst (repoRoot fuel w)) w.
Proof.
  destruct (cwd w) as [dir|] eqn:Hcwd.
  - rewrite (repoRoot_cwd _ _ _ Hcwd). apply repoRoot_loop_pure.
  - unfold repoRoot, Getwd. run. by rewrite Hcwd.
Qed.

(** A root is its own ancestor at every level. *)
Lemma up_root (k : nat) (dir : string) :
  IsAbs dir = true → at_root (root_len dir) dir = true → up k dir = dir.
Proof.
  intros Habs Hroot. induction k as [|k IH]; [done|].
  by rewrite up_S, (Dir_root _ Habs Hroot).
Qed.

Lemma up_add (a b : nat) (dir : string) : up (a + b) dir = up a (up b dir).
Proof. unfold up. by rewrite Nat.iter_add. Qed.

(** The first directory on the way up that holds [.git] is returned. *)
Lemma repoRoot_found (w : world) (wd : string) (k : nat) :
  cwd w = Some wd → IsAbs wd = true →
  has_git w (up k wd) = true →
  (∀ j, j < k → has_git w (up j wd) = false) →
  ∀ fuel, k < fuel → repoRoot fuel w = (Return (up k wd), w).
Proof.
  intros Hcwd Habs Hgit Hmin fuel Hfuel.
  destruct (repoRoot_loop_walk w (String.length wd) wd)
    as (k0 & Hk0 & Hbefore & Hka & Hkl & Hend); [lia|done|].
  rewrite (repoRoot_cwd _ _ _ Hcwd).
  destruct Hend as [[Hg Hrun] | (Hg & Hr & Hrun)].
  - assert (k = k0) as ->.
    { destruct (lt_eq_lt_dec k k0) as [[Hlt | ->] | Hgt]; [|done|].
      - destruct (Hbefore k Hlt) as [Hno _]. congruence.
      - pose proof (Hmin k0 Hgt). congruence. }
    by apply Hrun.
  - exfalso. destruct (le_lt_dec k k0) as [Hle | Hgt].
    + destruct (decide (k = k0)) as [-> | Hne]; [congruence|].
      destruct (Hbefore k) as [Hno _]; [lia | congruence].
    + replace k with ((k - k0) + k0) in Hgit by lia.
      rewrite up_add, up_root in Hgit; [congruence | done |].
      by rewrite Hkl.
Qed.

End WalkProperties.

(** ** Installing the hooks *)

Lemma to_string_eqb (b : bytes) (s : string) :
  (to_string b =? s)%string = true ↔ b = of_string s.
Proof.
  rewrite String.eqb_eq. unfold to_string, of_string. split.
  - intros <-. by rewrite list_byte_of_string_of_list_byte.
  - intros ->. by rewrite string_of_list_byte_of_string.
Qed.

Lemma same_env_refl (w : world) : same_env w w.
Proof. by repeat split. Qed.

Lemma same_env_trans (w1 w2 w3 : world) :
  same_env w1 w2 → same_env w2 w3 → same_env w1 w3.
Proof.
  intros (? & ? & ? & ?) (? & ? & ? & ?). repeat split; congruence.
Qed.

Lemma verbosef_run (format : string) (args : list Fmt.arg) (w : world) :
  ∃ w', verbosef format args w = (Return tt, w') ∧
        same_env w w' ∧ fs w' = fs w ∧ calls w' = calls w ∧
        stderr w' = stderr w ++ said w (Fmt.Sprintf format args) ∧
        ((verbose w ≤ 0)%Z → w' = w).
Proof.
  unfold verbosef, said. case_decide.
  - eexists. split; [done|]. repeat split; simpl; try done. lia.
  - exists w. split; [done|]. repeat split; try done. by rewrite app_nil_r.
Qed.

Lemma Stat_Ok (name : string) (w : world) :
  is_ok (Stat name w) = true ↔
  fault_at Resolve name w = None ∧ is_Some (fs w !! name).
Proof.
  unfold Stat, resolve.
  destruct (fault_at Resolve name w); [split; [done | intros [? _]; done]|].
  destruct (fs w !! name); simpl.
  - split; eauto.
  - split; [done | intros [_ [? ?]]; done].
Qed.

Lemma Stat_NotExist (name : string) (w : world) (e : error) :
  Stat name w = Err e →
  IsNotExist e = true ↔ fault_at Resolve name w = None ∧ fs w !! name = None.
Proof.
  unfold Stat, resolve.
  destruct (fault_at Resolve name w).
  { intros [= <-]. split; [done | intros [? _]; done]. }
  destruct (fs w !! name); [done|]. intros [= <-]. done.
Qed.

(** The dispatcher script is not the old script. *)
Lemma hookContent_not_old :
  of_string (hookContent "commit-msg") ≠ of_string oldCommitMsgHook.
Proof. by vm_compute. Qed.

Lemma old_not_hookContent :
  (to_string (of_string oldCommitMsgHook) =? hookContent "commit-msg")%string
  = false.
Proof. by vm_compute. Qed.

Section Install.

Context {FP : Filepath}.

(** The migration, case by case: it does nothing, or it announces the
    removal and calls [Remove], which deletes the file or fails. *)
Lemma installHook_migrate_cases (hookFile filename : string) (w : world) :
  ∃ w', installHook_migrate hookFile filename w = (Return tt, w') ∧
    same_env w w' ∧
    ((w' = w ∧
      (hookFile ≠ "commit-msg" ∨
       ReadFile filename w ≠ Ok (of_string oldCommitMsgHook))) ∨
     (hookFile = "commit-msg" ∧
      ReadFile filename w = Ok (of_string oldCommitMsgHook) ∧
      calls w' = calls w ++ [CallRemove filename] ∧
      stderr w' = stderr w ++ said w removing ∧
      match fault_at Unlink filename w with
      | None => fs w' = delete filename (fs w)
      | Some _ => fs w' = fs w
      end)).
Proof.
  unfold installHook_migrate.
  destruct (hookFile =? "commit-msg")%string eqn:Hname.
  2:{ apply String.eqb_neq in Hname. exists w.
      split; [done|]. split; [apply same_env_refl|]. left. eauto. }
  apply String.eqb_eq in Hname as ->. run.
  destruct (ReadFile filename w) as [b|e] eqn:Hread.
  2:{ exists w. split; [done|]. split; [apply same_env_refl|].
      left. split; [done|]. right. done. }
  destruct (to_string b =? oldCommitMsgHook)%string eqn:Hold.
  2:{ exists w. split; [done|]. split; [apply same_env_refl|].
      left. split; [done|]. right. intros [= ->].
      apply not_true_iff_false in Hold. apply Hold.
      by apply to_string_eqb. }
  apply to_string_eqb in Hold as ->.
  destruct (verbosef_run removing [] w)
    as (wv & Hv & Henv & Hfs & Hcalls & Herr & _).
  unfold removing in Hv. rewrite Hv.
  apply ReadFile_Ok in Hread as Hr. destruct Hr as (Hres & _ & f & Hf & _).
  destruct Henv as (Hfaults & Hcwd & Hverb & Humask).
  unfold Remove, resolve, fault_at in *. simpl.
  rewrite Hfaults, Hfs, Hres, Hf.
  destruct (faults w Unlink !! filename) as [x|] eqn:Hx.
  - eexists. split; [done|]. split; [by repeat split|].
    right. simpl. rewrite Hcalls, Hfs. by repeat split.
  - eexists. split; [done|]. split; [by repeat split|].
    right. simpl. rewrite Hcalls. by repeat split.
Qed.

(** The rest of the loop body, case by case on what [Stat] finds. *)
Lemma installHook_write_cases (hookFile filename : string) (w : world) :
  ∃ o w', installHook_write hookFile filename w = (o, w') ∧
    same_env w w' ∧
    match Stat filename w with
    | Ok _ =>
        o = Return tt ∧ fs w' = fs w ∧ calls w' = calls w ∧
        stderr w' = stderr w ++ existing_note hookFile filename w
    | Err e =>
        if IsNotExist e then
          calls w' =
            calls w ++
            [CallWriteFile filename (of_string (hookContent hookFile)) 448] ∧
          match fault_at Create filename w with
          | None =>
              o = Return tt ∧
              fs w' = <[filename := File (hook_file hookFile w)]> (fs w) ∧
              stderr w' =
                stderr w ++
                said w (Fmt.Sprintf "installing %s hook" [Fmt.AString hookFile])
          | Some x =>
              o = Fatal (Fmt.Sprintf "writing hook: %v"
                           [Fmt.AError (PathError "open" filename (EFAULT x))]) ∧
              fs w' = fs w
          end
        else
          o = Fatal (Fmt.Sprintf "checking hook: %v" [Fmt.AError e]) ∧
          fs w' = fs w ∧ calls w' = calls w
    end.
Proof.
  unfold installHook_write. run. fold (hookContent hookFile).
  destruct (Stat filename w) as [n|e] eqn:Hstat.
  - unfold existing_note. case_decide as Hv.
    + destruct (ReadFile filename w) as [b|err] eqn:Hread.
      * destruct (negb (to_string b =? hookContent hookFile)%string).
        -- destruct (verbosef_run "unexpected hook content in %s"
                       [Fmt.AString filename] w)
             as (wv & -> & Henv & Hfs & Hcalls & Herr & _).
           exists (Return tt), wv. unfold said in Herr.
           rewrite decide_True in Herr by done. done.
        -- exists (Return tt), w. rewrite app_nil_r.
           split; [done|]. split; [apply same_env_refl | done].
      * destruct (verbosef_run "reading hook: %v" [Fmt.AError err] w)
          as (wv & -> & Henv & Hfs & Hcalls & Herr & _).
        exists (Return tt), wv. unfold said in Herr.
        rewrite decide_True in Herr by done. done.
    + exists (Return tt), w. rewrite app_nil_r.
      split; [done|]. split; [apply same_env_refl | done].
  - destruct (IsNotExist e) eqn:Hne; simpl.
    2:{ eexists _, _. split; [done|]. split; [by repeat split | done]. }
    apply (Stat_NotExist _ _ _ Hstat) in Hne as [Hres Hnone].
    destruct (verbosef_run "installing %s hook" [Fmt.AString hookFile] w)
      as (wv & -> & Henv & Hfs & Hcalls & Herr & _).
    pose proof Henv as (Hfaults & Hcwd & Hverb & Humask).
    unfold WriteFile, fault_at in *. simpl.
    rewrite Hfaults, Hfs, Hres, Hnone.
    destruct (faults w Create !! filename) as [x|] eqn:Hx.
    + eexists _, _. split; [done|]. split; [by repeat split|].
      simpl. rewrite Hcalls. done.
    + eexists _, _. split; [done|]. split; [by repeat split|].
      simpl. rewrite Hcalls. unfold hook_file. rewrite Humask. done.
Qed.

(** [installHook] is its loop body for the one hook it manages: the
    root, the migration, the rest. *)
Lemma installHook_run (fuel : nat) (w : world) :
  match fst (repoRoot fuel w) with
  | Return root =>
      ∃ wm, installHook_migrate "commit-msg" (hook_at root) w =
              (Return tt, wm) ∧
            installHook fuel w =
              installHook_write "commit-msg" (hook_at root) wm
  | Fatal msg => installHook fuel w = (Fatal msg, print_stderr msg w)
  | OutOfFuel => installHook fuel w = (OutOfFuel, w)
  end.
Proof.
  pose proof (repoRoot_pure fuel w) as Hpure.
  unfold installHook, hookFiles, forRange, installHook_body. run.
  destruct (repoRoot fuel w) as [[root|msg|] w0]; simpl in *; subst w0;
    [|done..].
  destruct (installHook_migrate_cases "commit-msg" (hook_at root) w)
    as (wm & Hm & _).
  exists wm. split; [done|]. unfold hook_at in *. rewrite Hm.
  by destruct (installHook_write _ _ wm) as [[[]|msg|] w'].
Qed.

(** [repoRoot] looks at the working directory and at the entries named
    [.git] only. *)
Lemma repoRoot_ext (fuel : nat) (w w' : world) :
  cwd w' = cwd w → (∀ d, has_git w' d = has_git w d) →
  fst (repoRoot fuel w') = fst (repoRoot fuel w).
Proof.
  intros Hcwd Hgit. unfold repoRoot, Getwd. run. rewrite Hcwd.
  destruct (cwd w) as [dir|]; [|done]. clear Hcwd.
  match goal with
  | |- context [repoRoot_loop _ ?n _ _] => generalize n
  end.
  intros rootlen.
  revert dir. induction fuel as [|fuel IH]; intros dir; [done|].
  rewrite !repoRoot_loop_S, Hgit.
  destruct (has_git w dir); [done|].
  destruct (at_root rootlen dir); [done|]. apply IH.
Qed.

(** C4. The migration deletes the file at the path it is given if and
    only if the hook is [commit-msg] and the file is there with exactly
    the content of the old script (and can be read and removed); a file
    that differs from the old script is left alone, and so is every
    file when the hook has another name. *)
Theorem legacy_migration_exact (hookFile filename : string) (w : world) :
  let w' := snd (installHook_migrate hookFile filename w) in
  (hookFile = "commit-msg" →
   ∀ f, fs w !! filename = Some (File f) →
        data f = of_string oldCommitMsgHook →
        fault_at Resolve filename w = None →
        fault_at OpenRead filename w = None →
        fault_at Unlink filename w = None →
        fs w' = delete filename (fs w)) ∧
  (fs w' ≠ fs w →
   hookFile = "commit-msg" ∧
   (∃ f, fs w !! filename = Some (File f) ∧
         data f = of_string oldCommitMsgHook) ∧
   fs w' = delete filename (fs w)) ∧
  (∀ f, fs w !! filename = Some (File f) →
        data f ≠ of_string oldCommitMsgHook → w' = w) ∧
  (hookFile ≠ "commit-msg" → w' = w).
Proof.
  destruct (installHook_migrate_cases hookFile filename w)
    as (w' & Hrun & _ & Hcases).
  rewrite Hrun. simpl.
  destruct Hcases as [[-> Hwhy] | (-> & Hread & _ & _ & Hfs)].
  - split; [|split; [done|split; done]].
    intros -> f Hf Hdata Hres Hopen Hunlink. exfalso.
    destruct Hwhy as [? | Hne]; [done|]. apply Hne.
    apply ReadFile_Ok. eauto.
  - apply ReadFile_Ok in Hread as Hr.
    destruct Hr as (_ & _ & f & Hf & Hdata).
    split; [|split; [|split]].
    + intros _ g Hg _ _ _ Hunlink. by rewrite Hunlink in Hfs.
    + intros Hne. split; [done|]. split; [eauto|].
      destruct (fault_at Unlink filename w); [done | done].
    + intros g Hg Hdiff. congruence.
    + done.
Qed.

(** A file that is not the old script survives the migration ... *)
Lemma installHook_migrate_frame
    (hookFile filename p : string) (f : file) (w : world) :
  fs w !! p = Some (File f) → data f ≠ of_string oldCommitMsgHook →
  fs (snd (installHook_migrate hookFile filename w)) !! p = Some (File f).
Proof.
  intros Hp Hdiff.
  destruct (installHook_migrate_cases hookFile filename w)
    as (w' & Hrun & _ & Hcases).
  rewrite Hrun. simpl.
  destruct Hcases as [[-> _] | (_ & Hread & _ & _ & Hfs)]; [done|].
  apply ReadFile_Ok in Hread as (_ & _ & g & Hg & Hdata).
  assert (filename ≠ p) as Hne by (intros ->; congruence).
  destruct (fault_at Unlink filename w); rewrite Hfs; [done|].
  by rewrite lookup_delete_ne.
Qed.

(** ... and the rest of the loop body, as every file does. *)
Lemma installHook_write_frame
    (hookFile filename p : string) (n : node) (w : world) :
  fs w !! p = Some n →
  fs (snd (installHook_write hookFile filename w)) !! p = Some n.
Proof.
  intros Hp.
  destruct (installHook_write_cases hookFile filename w)
    as (o & w' & Hrun & _ & Hcases).
  rewrite Hrun. simpl.
  destruct (Stat filename w) as [m|e] eqn:Hstat.
  { destruct Hcases as (_ & -> & _). done. }
  destruct (IsNotExist e) eqn:Hne.
  2:{ destruct Hcases as (_ & -> & _). done. }
  apply (Stat_NotExist _ _ _ Hstat) in Hne as [_ Hnone].
  assert (filename ≠ p) as Hdiff by (intros ->; congruence).
  destruct Hcases as (_ & Hfs).
  destruct (fault_at Create filename w).
  - destruct Hfs as [_ ->]. done.
  - destruct Hfs as (_ & -> & _). by rewrite lookup_insert_ne.
Qed.

(** C5. A file that is there before [installHook] and is not the old
    script is there afterwards with the same bytes and the same mode.
    When it is the hook file itself, [installHook] returns normally and
    issues no call that changes the file tree; that its content is not
    the dispatcher script shows at most as a note on the error stream. *)
Theorem installHook_keeps_existing_hook (fuel : nat) (w : world) :
  (∀ p f, fs w !! p = Some (File f) →
          data f ≠ of_string oldCommitMsgHook →
          fs (snd (installHook fuel w)) !! p = Some (File f)) ∧
  (∀ root f, fst (repoRoot fuel w) = Return root →
             fs w !! hook_at root = Some (File f) →
             data f ≠ of_string oldCommitMsgHook →
             fault_at Resolve (hook_at root) w = None →
             ∃ w', installHook fuel w = (Return tt, w') ∧
                   fs w' = fs w ∧ calls w' = calls w ∧
                   stderr w' =
                     stderr w ++
                     existing_note "commit-msg" (hook_at root) w).
Proof.
  pose proof (installHook_run fuel w) as Hrun. split.
  - intros p f Hp Hdiff.
    destruct (fst (repoRoot fuel w)) as [root|msg|];
      [|by rewrite Hrun..].
    destruct Hrun as (wm & Hm & ->).
    apply installHook_write_frame.
    replace wm with (snd (installHook_migrate "commit-msg" (hook_at root) w))
      by (by rewrite Hm).
    by apply installHook_migrate_frame.
  - intros root f Hroot Hf Hdiff Hres. rewrite Hroot in Hrun.
    destruct Hrun as (wm & Hm & ->).
    destruct (installHook_migrate_cases "commit-msg" (hook_at root) w)
      as (wm' & Hm' & _ & Hcases).
    assert (wm' = wm) as -> by congruence.
    destruct Hcases as [[-> _] | (_ & Hread & _)].
    2:{ apply ReadFile_Ok in Hread as (_ & _ & g & Hg & Hdata). congruence. }
    destruct (installHook_write_cases "commit-msg" (hook_at root) w)
      as (o & w' & Hw & _ & Hcases).
    assert (is_ok (Stat (hook_at root) w) = true) as Hok
      by (apply Stat_Ok; eauto).
    destruct (Stat (hook_at root) w); [|done].
    destruct Hcases as (-> & ? & ? & ?). eauto.
Qed.

(** The removal fails: [installHook] goes on, finds the file still
    there and leaves it. *)
Lemma installHook_failed_removal_run
    (fuel : nat) (w : world) (root : string) (x : fault) :
  fst (repoRoot fuel w) = Return root →
  ReadFile (hook_at root) w = Ok (of_string oldCommitMsgHook) →
  fault_at Unlink (hook_at root) w = Some x →
  ∃ w', installHook fuel w = (Return tt, w') ∧
        same_env w w' ∧ fs w' = fs w ∧
        calls w' = calls w ++ [CallRemove (hook_at root)] ∧
        stderr w' =
          stderr w ++ said w removing ++
          said w (Fmt.Sprintf "unexpected hook content in %s"
                    [Fmt.AString (hook_at root)]).
Proof.
  intros Hroot Hread Hunlink.
  pose proof (installHook_run fuel w) as Hrun. rewrite Hroot in Hrun.
  destruct Hrun as (wm & Hm & ->).
  destruct (installHook_migrate_cases "commit-msg" (hook_at root) w)
    as (wm' & Hm' & Henv & Hcases).
  assert (wm' = wm) as -> by congruence.
  destruct Hcases as [[_ [? | ?]] | (_ & _ & Hcalls & Herr & Hfs)];
    [done..|].
  rewrite Hunlink in Hfs.
  pose proof Henv as (Hfaults & _ & Hverb & _).
  assert (ReadFile (hook_at root) wm = Ok (of_string oldCommitMsgHook))
    as Hread' by (by rewrite (ReadFile_ext _ w wm), Hread; [|f_equal|]).
  destruct (installHook_write_cases "commit-msg" (hook_at root) wm)
    as (o & w' & Hw & Henv' & Hcases).
  assert (is_ok (Stat (hook_at root) wm) = true) as Hok.
  { apply ReadFile_Ok in Hread' as (? & _ & f & Hf & _).
    apply Stat_Ok. eauto. }
  destruct (Stat (hook_at root) wm); [|done].
  destruct Hcases as (-> & Hfs' & Hcalls' & Herr').
  exists w'. split; [done|].
  split; [by apply (same_env_trans _ wm)|].
  split; [congruence|]. split; [congruence|].
  rewrite Herr', Herr, <- app_assoc. do 2 f_equal.
  unfold existing_note, said. rewrite Hverb, Hread', old_not_hookContent.
  simpl. by case_decide.
Qed.

(** After a successful [installHook] the hook file is there, and it is
    not an old script that could be removed; nothing else changed. *)
Lemma installHook_leaves_hook (fuel : nat) (w w1 : world) :
  installHook fuel w = (Return tt, w1) →
  ∃ root, fst (repoRoot fuel w) = Return root ∧
    same_env w w1 ∧
    (∀ p, p ≠ hook_at root → fs w1 !! p = fs w !! p) ∧
    is_ok (Stat (hook_at root) w1) = true ∧
    (ReadFile (hook_at root) w1 = Ok (of_string oldCommitMsgHook) →
     is_Some (fault_at Unlink (hook_at root) w1)).
Proof.
  intros Hinst. pose proof (installHook_run fuel w) as Hrun.
  destruct (fst (repoRoot fuel w)) as [root|msg|]; [|congruence..].
  exists root. split; [done|].
  destruct Hrun as (wm & Hm & Hw). rewrite Hinst in Hw. symmetry in Hw.
  destruct (installHook_migrate_cases "commit-msg" (hook_at root) w)
    as (wm' & Hm' & Henv & Hmig).
  assert (wm' = wm) as -> by congruence.
  destruct (installHook_write_cases "commit-msg" (hook_at root) wm)
    as (o & w' & Hw' & Henv' & Hwri).
  rewrite Hw in Hw'. injection Hw' as <- <-.
  pose proof (same_env_trans _ _ _ Henv Henv') as Henv1.
  split; [done|].
  pose proof Henv as (Hfaults & _).
  pose proof Henv1 as (Hfaults1 & _).
  destruct (Stat (hook_at root) wm) as [n|e] eqn:Hstat.
  - (* the file is there after the migration *)
    destruct Hwri as (_ & Hfs1 & _).
    assert (is_ok (Stat (hook_at root) wm) = true) as Hok by (by rewrite Hstat).
    apply Stat_Ok in Hok as [Hres Hsome].
    destruct Hmig as [[-> Hwhy] | (_ & Hread & _ & _ & Hfs)].
    + split; [by intros; rewrite Hfs1|].
      split; [apply Stat_Ok; unfold fault_at in *; by rewrite Hfaults1, Hfs1|].
      intros Hread1. exfalso. destruct Hwhy as [? | Hne]; [done|].
      apply Hne. rewrite <- Hread1. symmetry.
      apply ReadFile_ext; [by rewrite Hfs1 | done].
    + destruct (fault_at Unlink (hook_at root) w) as [x|] eqn:Hunlink.
      * split; [by intros; rewrite Hfs1, Hfs|].
        split; [apply Stat_Ok; unfold fault_at in *;
                by rewrite Hfaults1, Hfs1, <- Hfaults|].
        intros _. unfold fault_at in *. rewrite Hfaults1, Hunlink. eauto.
      * rewrite Hfs, lookup_delete_eq in Hsome. by destruct Hsome.
  - destruct (IsNotExist e) eqn:Hne; [|by destruct Hwri].
    apply (Stat_NotExist _ _ _ Hstat) in Hne as [Hres Hnone].
    destruct Hwri as (_ & Hfs1).
    destruct (fault_at Create (hook_at root) wm); [by destruct Hfs1|].
    destruct Hfs1 as (_ & Hfs1 & _).
    assert (∀ p, p ≠ hook_at root → fs wm !! p = fs w !! p) as Hframe.
    { intros p Hp.
      destruct Hmig as [[-> _] | (_ & _ & _ & _ & Hfs)]; [done|].
      destruct (fault_at Unlink (hook_at root) w); rewrite Hfs; [done|].
      by rewrite lookup_delete_ne. }
    split; [by intros p Hp; rewrite Hfs1, lookup_insert_ne, Hframe|].
    split.
    { apply Stat_Ok. unfold fault_at in *.
      rewrite Hfaults1, <- Hfaults, Hres, Hfs1, lookup_insert_eq. eauto. }
    intros Hread1. exfalso.
    apply ReadFile_Ok in Hread1 as (_ & _ & f & Hf & Hdata).
    rewrite Hfs1, lookup_insert_eq in Hf. injection Hf as <-.
    by apply hookContent_not_old.
Qed.

(** C9, as the program has it.  When the removal of the old script
    fails, the error of [os.Remove] is dropped: [installHook] goes on and
    returns normally, the file stays as it is and is not overwritten.
    The diagnostics are the announcement made before the attempt and the
    note that the file found afterwards is not the dispatcher script;
    none of them is about the failure. *)
Theorem installHook_removal_failure_ignored
    (fuel : nat) (w : world) (root : string) (x : fault) :
  fst (repoRoot fuel w) = Return root →
  ReadFile (hook_at root) w = Ok (of_string oldCommitMsgHook) →
  fault_at Unlink (hook_at root) w = Some x →
  fst (Remove (hook_at root) w) =
    Err (PathError "remove" (hook_at root) (EFAULT x)) ∧
  ∃ w', installHook fuel w = (Return tt, w') ∧
        fs w' = fs w ∧
        calls w' = calls w ++ [CallRemove (hook_at root)] ∧
        stderr w' =
          stderr w ++ said w removing ++
          said w (Fmt.Sprintf "unexpected hook content in %s"
                    [Fmt.AString (hook_at root)]).
Proof.
  intros Hroot Hread Hunlink. split.
  - apply ReadFile_Ok in Hread as (Hres & _ & f & Hf & _).
    unfold Remove, resolve, fault_at in *. simpl.
    by rewrite Hres, Hf, Hunlink.
  - destruct (installHook_failed_removal_run fuel w root x Hroot Hread Hunlink)
      as (w' & ? & _ & ? & ? & ?).
    eauto.
Qed.

End Install.

Section InstallTwice.

Context {FP : Filepath} {laws : FilepathLaws FP}.

(** C3. A second [installHook] after a successful first one returns
    normally, leaves the file tree as the first call left it and calls
    [WriteFile] for no file. *)
Theorem installHook_idempotent (fuel : nat) (w w1 : world) :
  installHook fuel w = (Return tt, w1) →
  ∃ w2 cs, installHook fuel w1 = (Return tt, w2) ∧
           fs w2 = fs w1 ∧
           calls w2 = calls w1 ++ cs ∧
           forallb (λ c, negb (is_write c)) cs = true.
Proof.
  intros Hinst.
  destruct (installHook_leaves_hook fuel w w1 Hinst)
    as (root & Hroot & Henv & Hframe & Hok & Hold).
  pose proof Henv as (Hfaults & Hcwd & _).
  assert (fst (repoRoot fuel w1) = Return root) as Hroot1.
  { rewrite <- Hroot. apply repoRoot_ext; [done|].
    intros d. unfold has_git. f_equal.
    apply Stat_ext; [|done]. apply Hframe. apply hook_not_git. }
  pose proof (installHook_run fuel w1) as Hrun. rewrite Hroot1 in Hrun.
  destruct Hrun as (wm & Hm & Hrun).
  destruct (installHook_migrate_cases "commit-msg" (hook_at root) w1)
    as (wm' & Hm' & _ & Hmig).
  assert (wm' = wm) as -> by congruence.
  destruct Hmig as [[-> _] | (_ & Hread & _)].
  - destruct (installHook_write_cases "commit-msg" (hook_at root) w1)
      as (o & w2 & Hw & _ & Hwri).
    destruct (Stat (hook_at root) w1); [|done].
    destruct Hwri as (-> & Hfs & Hcalls & _).
    exists w2, []. rewrite app_nil_r. by rewrite Hrun.
  - destruct (Hold Hread) as [x Hunlink].
    destruct (installHook_failed_removal_run fuel w1 root x
                Hroot1 Hread Hunlink) as (w2 & Hw & _ & Hfs & Hcalls & _).
    exists w2, [CallRemove (hook_at root)]. done.
Qed.

End InstallTwice.

(** ** [path/filepath] on Unix: the documented cases *)

Example Clean_cases :
  map (on_chars Unix.Clean)
    ["abc//def//ghi"; "abc/./def"; "abc/def/../ghi"; "../../abc";
     "abc/def/../../.."; "/../abc"; "abc/../../././../def"; "/abc/";
     "abc/"; "."; ".."; "//abc"; "/abc/def/../../.."; "/"; EmptyString] =
    ["abc/def/ghi"; "abc/def"; "abc/ghi"; "../../abc";
     ".."; "/abc"; "../../def"; "/abc";
     "abc"; "."; ".."; "/abc"; "/"; "/"; "."].
Proof. reflexivity. Qed.

Example Dir_cases :
  map Dir ["/foo/bar/baz.js"; "/foo/bar/baz"; "/foo/bar/baz/"; "/dirty//path///";
           "dev.txt"; "../todo.txt"; ".."; "."; "/"; EmptyString] =
    ["/foo/bar"; "/foo/bar"; "/foo/bar/baz"; "/dirty/path";
     "."; ".."; "."; "."; "/"; "."].
Proof. reflexivity. Qed.

Example Join_cases :
  [Join "a" "b"; Join "a" EmptyString; Join EmptyString "b"; Join "/" "a";
   Join "a/" "b"; Join "a" "../b"; Join EmptyString EmptyString;
   Join "/home/gopher" ".git"; Join "/home/gopher" (hookPath +:+ "commit-msg")] =
  ["a/b"; "a"; "b"; "/a";
   "a/b"; "b"; EmptyString;
   "/home/gopher/.git"; "/home/gopher/.git/hooks/commit-msg"].
Proof. reflexivity. Qed.

(** ** [path/filepath] on Unix: elements *)

Module UnixFacts.
Import Unix.

Lemma split_not_nil (s : chars) : split s ≠ [].
Proof.
  destruct s as [|c s]; simpl; [done|].
  destruct (IsPathSeparator c); [done|]. by destruct (split s).
Qed.

Lemma split_sep (s : chars) : split (sep :: s) = [] :: split s.
Proof. reflexivity. Qed.

(** A path is its elements with separators between them. *)
Lemma join_split (s : chars) : join (split s) = s.
Proof.
  induction s as [|c s IH]; [done|]. simpl.
  pose proof (split_not_nil s) as Hne.
  unfold IsPathSeparator. case_bool_decide as Hc.
  - subst c. simpl. destruct (split s) as [|h t]; [done|].
    by rewrite IH.
  - destruct (split s) as [|h t]; [done|].
    destruct t as [|h' t]; simpl in *; by rewrite <- IH.
Qed.

Lemma length_join (elems : list chars) :
  elems ≠ [] → S (length (join elems)) = weight elems.
Proof.
  induction elems as [|e elems IH]; [done|]. intros _.
  destruct elems as [|e' elems]; [simpl; lia|].
  change (join (e :: e' :: elems)) with (e ++ sep :: join (e' :: elems)).
  rewrite length_app. cbn [length].
  change (weight (e :: e' :: elems))
    with (S (length e) + weight (e' :: elems)).
  rewrite <- IH by done. lia.
Qed.

Lemma weight_split (s : chars) : weight (split s) = S (length s).
Proof.
  rewrite <- length_join by apply split_not_nil. by rewrite join_split.
Qed.

Lemma weight_app (l1 l2 : list chars) :
  weight (l1 ++ l2) = weight l1 + weight l2.
Proof. unfold weight. induction l1; simpl; lia. Qed.

Lemma weight_rev (l : list chars) : weight (rev l) = weight l.
Proof.
  induction l as [|e l IH]; [done|]. simpl rev.
  rewrite weight_app, IH. unfold weight. simpl. lia.
Qed.

(** A separator ends an element and starts the next. *)
Lemma split_app_sep (s t : chars) :
  split (s ++ sep :: t) = split s ++ split t.
Proof.
  induction s as [|c s IH]; [done|]. simpl.
  rewrite IH. destruct (IsPathSeparator c); [done|].
  pose proof (split_not_nil s). by destruct (split s).
Qed.

(** An element without separators is its own element list. *)
Lemma split_elem (e : chars) : sep_free e = true → split e = [e].
Proof.
  unfold sep_free. induction e as [|c e IH]; [done|]. simpl.
  intros [Hc He]%andb_true_iff. apply negb_true_iff in Hc.
  by rewrite Hc, IH.
Qed.

(** What [Clean] has written never weighs more than what it has read,
    empty elements not counted. *)
Lemma clean_step_weight (rooted : bool) (out : list chars) (e : chars) :
  weight (clean_step rooted out e) ≤
  weight out + (if decide (e = []) then 0 else S (length e)).
Proof.
  unfold clean_step. case_decide; [lia|].
  case_decide; [lia|]. case_decide.
  - destruct out as [|top rest].
    + destruct rooted; unfold weight; simpl; lia.
    + case_decide; unfold weight; simpl; lia.
  - unfold weight. simpl. lia.
Qed.

Lemma clean_fold_weight (rooted : bool) (elems out : list chars) :
  weight (fold_left (clean_step rooted) elems out) ≤
  weight out + weight_read elems.
Proof.
  revert out. induction elems as [|e elems IH]; intros out; simpl; [lia|].
  etrans; [apply IH|].
  pose proof (clean_step_weight rooted out e). lia.
Qed.

Lemma weight_read_le (elems : list chars) :
  weight_read elems ≤ weight elems.
Proof.
  induction elems as [|e elems IH]; simpl; [done|].
  case_decide; lia.
Qed.

Lemma weight_read_app (l1 l2 : list chars) :
  weight_read (l1 ++ l2) = weight_read l1 + weight_read l2.
Proof. unfold weight_read. induction l1; simpl; lia. Qed.

End UnixFacts.

(** ** [path/filepath] on Unix: parents *)

Module UnixDir.
Import Unix UnixFacts.

Lemma Clean_rooted (t : chars) :
  Clean (sep :: t) =
    sep :: join (rev (fold_left (clean_step true) (split t) [])).
Proof. reflexivity. Qed.

(** A cleaned rooted path is no longer than what was read of it. *)
Lemma length_Clean_rooted (t : chars) :
  length (Clean (sep :: t)) ≤ Nat.max 1 (weight_read (split t)).
Proof.
  rewrite Clean_rooted. cbn [length].
  pose proof (clean_fold_weight true (split t) []) as Hw.
  change (weight []) with 0 in Hw.
  destruct (rev (fold_left (clean_step true) (split t) [])) as [|e out] eqn:Hout.
  - simpl. lia.
  - rewrite <- weight_rev, Hout in Hw.
    rewrite length_join by done. lia.
Qed.

Lemma drop_elem_length (r : chars) : length (drop_elem r) ≤ length r.
Proof.
  induction r as [|c r IH]; simpl; [done|].
  destruct (IsPathSeparator c); simpl; lia.
Qed.

Lemma drop_elem_head (r : chars) :
  drop_elem r = [] ∨ ∃ r', drop_elem r = sep :: r'.
Proof.
  induction r as [|c r IH]; simpl; [by left|].
  unfold IsPathSeparator. case_bool_decide as Hc; [|done].
  right. subst c. eauto.
Qed.

(** Read from the end, a path with a separator keeps everything from
    its last separator on. *)
Lemma drop_elem_keeps (r u : chars) :
  ∃ r', drop_elem (r ++ sep :: u) = r' ++ sep :: u.
Proof.
  induction r as [|c r IH]; simpl.
  - by exists [].
  - destruct (IsPathSeparator c).
    + by exists (c :: r).
    + apply IH.
Qed.

(** The directory part of a rooted path: the root, or a rooted path
    that ends with a separator; never longer than the path. *)
Lemma dir_part_rooted (t : chars) :
  let q := rev (drop_elem (rev (sep :: t))) in
  length q ≤ S (length t) ∧
  (q = [sep] ∨ ∃ m, q = sep :: m ++ [sep]).
Proof.
  simpl. split.
  - rewrite length_rev.
    etrans; [apply drop_elem_length|].
    rewrite length_app, length_rev. simpl. lia.
  - destruct (drop_elem_keeps (rev t) []) as [r' Hr'].
    rewrite Hr'. destruct (drop_elem_head (rev t ++ [sep])) as [Hnil | [r'' Hhd]].
    + rewrite Hr' in Hnil. by destruct r'.
    + rewrite Hr' in Hhd. destruct r' as [|c r'].
      * by left.
      * right. injection Hhd as -> _. exists (rev r').
        by rewrite rev_app_distr.
Qed.

(** The parent of a rooted path other than the root is rooted and
    shorter. *)
Lemma Dir_shrinks_chars (t : chars) :
  t ≠ [] →
  length (Dir (sep :: t)) < length (sep :: t) ∧
  IsAbs (Dir (sep :: t)) = true.
Proof.
  intros Ht. unfold Dir.
  destruct (dir_part_rooted t) as [Hlen [Hq | [m Hq]]];
    simpl in Hlen, Hq; simpl rev; rewrite Hq in *.
  - split; [|done]. destruct t; [done|]. simpl. lia.
  - split; [|done].
    pose proof (length_Clean_rooted (m ++ [sep])) as Hc.
    rewrite split_app_sep, weight_read_app in Hc.
    change (weight_read (split [])) with 0 in Hc.
    pose proof (weight_read_le (split m)) as Hm.
    rewrite weight_split in Hm.
    simpl in Hlen. rewrite length_app in Hlen. simpl in *. lia.
Qed.

Lemma join_snoc (l : list chars) (e : chars) :
  ∃ pre, join (l ++ [e]) = pre ++ e.
Proof.
  induction l as [|e' l IH]; [by exists []|].
  destruct IH as [pre Hpre]. exists (e' ++ sep :: pre).
  change ((e' :: l) ++ [e]) with (e' :: (l ++ [e])).
  destruct (l ++ [e]) as [|x y] eqn:Hl; [by destruct l|].
  change (join (e' :: x :: y)) with (e' ++ sep :: join (x :: y)).
  by rewrite Hpre, <- app_assoc.
Qed.

(** A cleaned path ends with its last element when that is plain. *)
Lemma Clean_ends (s e : chars) :
  plain e → ∃ pre, Clean (s ++ sep :: e) = pre ++ e.
Proof.
  intros (Hne & Hdot & Hdd & Hplain).
  assert (∀ rooted,
    rev (fold_left (clean_step rooted) (split (s ++ sep :: e)) []) =
    rev (fold_left (clean_step rooted) (split s) []) ++ [e]) as Hout.
  { intros rooted.
    rewrite split_app_sep, (split_elem e Hplain), fold_left_app. simpl.
    unfold clean_step at 1. by rewrite !decide_False by done. }
  unfold Clean.
  destruct (s ++ sep :: e) as [|c path] eqn:Hpath; [by destruct s|].
  cbv zeta. rewrite Hout.
  destruct (join_snoc
              (rev (fold_left (clean_step (IsPathSeparator c)) (split s) []))
              e) as [pre Hpre].
  destruct (IsPathSeparator c).
  - exists (sep :: pre). by rewrite Hpre.
  - exists pre. rewrite <- Hpre.
    by destruct (rev (fold_left (clean_step false) (split s) []) ++ [e])
      eqn:Hl; [destruct (rev (fold_left (clean_step false) (split s) []))|].
Qed.

Lemma Join_git_ends (a : chars) : ∃ pre, Join a git_elem = pre ++ git_elem.
Proof.
  destruct a as [|c a]; [by exists []|].
  apply (Clean_ends (c :: a) git_elem). by vm_compute.
Qed.

Lemma Join_hook_ends (a : chars) : ∃ pre, Join a hook_elems = pre ++ hook_elem.
Proof.
  destruct a as [|c a]; [by exists (list_ascii_of_string ".git/hooks/")|].
  replace (Join (c :: a) hook_elems)
    with (Clean (((c :: a) ++ sep :: hooks_dir) ++ sep :: hook_elem))
    by (by rewrite <- app_assoc).
  apply Clean_ends. by vm_compute.
Qed.

(** No path to [.git] is the path of the commit-msg hook. *)
Lemma Join_git_not_hook (a b : chars) : Join a git_elem ≠ Join b hook_elems.
Proof.
  destruct (Join_git_ends a) as [p ->].
  destruct (Join_hook_ends b) as [q ->].
  intros Heq. apply (f_equal last) in Heq.
  unfold git_elem, hook_elem in Heq. simpl in Heq.
  rewrite !last_app in Heq. simpl in Heq. done.
Qed.

(** *** Nested directories *)

Lemma plain_sep_free (e : chars) : plain e → sep_free e = true.
Proof. by intros (_ & _ & _ & ?). Qed.

(** Reading from the end, the last element is dropped whole. *)
Lemma drop_elem_elem (e r : chars) :
  sep_free e = true → drop_elem (rev e ++ r) = drop_elem r.
Proof.
  revert r. induction e as [|c e IH]; intros r He; [done|].
  apply andb_true_iff in He as [Hc He]. apply negb_true_iff in Hc.
  simpl rev. rewrite <- app_assoc. rewrite IH by done.
  simpl. by rewrite Hc.
Qed.

Lemma join_cons (e : chars) (elems : list chars) :
  elems ≠ [] → join (e :: elems) = e ++ sep :: join elems.
Proof. by destruct elems. Qed.

Lemma join_app_elem (elems : list chars) (e : chars) :
  elems ≠ [] → join (elems ++ [e]) = join elems ++ sep :: e.
Proof.
  induction elems as [|e' elems IH]; [done|]. intros _.
  destruct elems as [|e'' elems]; [done|].
  change ((e' :: e'' :: elems) ++ [e]) with (e' :: ((e'' :: elems) ++ [e])).
  rewrite join_cons by done. rewrite IH by done.
  rewrite (join_cons e') by done. by rewrite <- app_assoc.
Qed.

(** Elements without separators are the elements of their path. *)
Lemma split_join (elems : list chars) :
  elems ≠ [] → Forall (λ e, sep_free e = true) elems →
  split (join elems) = elems.
Proof.
  induction elems as [|e elems IH]; [done|]. intros _ Hall.
  apply Forall_cons in Hall as [He Hall].
  destruct elems as [|e' elems]; [by apply split_elem|].
  rewrite join_cons by done.
  rewrite split_app_sep, (split_elem e He), IH by done. done.
Qed.

(** [Clean] keeps plain elements as they are. *)
Lemma clean_fold_plain (rooted : bool) (elems out : list chars) :
  Forall plain elems →
  fold_left (clean_step rooted) elems out = rev elems ++ out.
Proof.
  revert out. induction elems as [|e elems IH]; intros out Hall; [done|].
  apply Forall_cons in Hall as [(Hne & Hdot & Hdd & _) Hall].
  simpl. rewrite <- app_assoc. rewrite <- IH by done. f_equal.
  unfold clean_step. by rewrite !decide_False by done.
Qed.

(** A rooted path of plain elements followed by a separator cleans to
    the path without it. *)
Lemma Clean_rooted_slash (elems : list chars) :
  elems ≠ [] → Forall plain elems →
  Clean (rooted_path elems ++ [sep]) = rooted_path elems.
Proof.
  intros Hne Hall. unfold rooted_path.
  change ((sep :: join elems) ++ [sep]) with (sep :: (join elems ++ [sep])).
  rewrite Clean_rooted, split_app_sep, fold_left_app.
  rewrite split_join; [|done|].
  2:{ eapply Forall_impl; [exact Hall|]. apply plain_sep_free. }
  rewrite (clean_fold_plain true elems) by done. simpl.
  unfold clean_step. rewrite decide_True by done.
  by rewrite app_nil_r, rev_involutive.
Qed.

(** The parent of a rooted path of plain elements is the path of all
    its elements but the last. *)
Lemma Dir_rooted_path (elems : list chars) (e : chars) :
  Forall plain (elems ++ [e]) →
  Dir (rooted_path (elems ++ [e])) = rooted_path elems.
Proof.
  intros Hall. apply Forall_app in Hall as [Hall He].
  apply Forall_inv in He. apply plain_sep_free in He as Hfree.
  unfold Dir. destruct elems as [|e' elems].
  - unfold rooted_path. simpl app. simpl join.
    change (rev (sep :: e)) with (rev e ++ [sep]).
    by rewrite drop_elem_elem.
  - assert (rooted_path ((e' :: elems) ++ [e]) =
            (rooted_path (e' :: elems) ++ [sep]) ++ e) as ->.
    { unfold rooted_path. rewrite join_app_elem by done.
      simpl. by rewrite <- !app_assoc. }
    rewrite rev_app_distr, drop_elem_elem by done.
    rewrite rev_app_distr.
    set (r := rev (rooted_path (e' :: elems))).
    change (drop_elem (rev [sep] ++ r)) with (rev [sep] ++ r).
    subst r. rewrite <- rev_app_distr, rev_involutive.
    by apply Clean_rooted_slash.
Qed.

End UnixDir.

(** ** [path/filepath] on Unix: the laws *)

Lemma length_list_ascii_of_string (s : string) :
  length (list_ascii_of_string s) = String.length s.
Proof. induction s as [|c s IH]; simpl; [done | by rewrite IH]. Qed.

Lemma length_string_of_list_ascii (l : list ascii) :
  String.length (string_of_list_ascii l) = length l.
Proof. induction l as [|c l IH]; simpl; [done | by rewrite IH]. Qed.

Lemma unix_root_len (d : string) : root_len d = 1.
Proof. reflexivity. Qed.

(** On Unix the test for the root holds of the path [/] alone. *)
Lemma unix_at_root (d : string) :
  IsAbs d = true → at_root 1 d = true ↔ d = "/".
Proof.
  destruct d as [|c d]; [done|]. simpl.
  unfold Unix.IsPathSeparator. intros Hc%bool_decide_eq_true. subst c.
  unfold at_root. simpl. destruct d as [|c d]; [done|]. simpl. done.
Qed.

Lemma unix_laws : FilepathLaws unix.
Proof.
  split.
  - intros d Habs Hroot. rewrite unix_root_len in Hroot.
    split; [|split; [|done]].
    + destruct d as [|c d]; [done|]. simpl in Habs.
      apply bool_decide_eq_true in Habs. subst c.
      assert (list_ascii_of_string d ≠ []) as Hd.
      { destruct d; [|done]. done. }
      destruct (UnixDir.Dir_shrinks_chars _ Hd) as [Hlt _].
      unfold Dir, unix, on_chars. rewrite length_string_of_list_ascii.
      simpl in *. rewrite length_list_ascii_of_string in Hlt. done.
    + destruct d as [|c d]; [done|]. simpl in Habs.
      apply bool_decide_eq_true in Habs. subst c.
      assert (list_ascii_of_string d ≠ []) as Hd.
      { destruct d; [|done]. done. }
      destruct (UnixDir.Dir_shrinks_chars _ Hd) as [_ Ha].
      unfold IsAbs, Dir, unix, on_chars.
      by rewrite list_ascii_of_string_of_list_ascii.
  - intros d Habs Hroot. rewrite unix_root_len in Hroot.
    apply (unix_at_root d Habs) in Hroot. by subst d.
  - intros d r Heq. unfold Join, unix in Heq.
    apply (f_equal list_ascii_of_string) in Heq.
    rewrite !list_ascii_of_string_of_list_ascii in Heq.
    by apply (UnixDir.Join_git_not_hook
                (list_ascii_of_string d) (list_ascii_of_string r)).
Qed.

(** ** [repoRoot] on Unix *)

Lemma unix_Dir_path (elems : list (list ascii)) (e : list ascii) :
  Forall Unix.plain (elems ++ [e]) →
  Dir (unix_path (elems ++ [e])) = unix_path elems.
Proof.
  intros Hall. unfold Dir, unix, on_chars, unix_path.
  by rewrite list_ascii_of_string_of_list_ascii, UnixDir.Dir_rooted_path.
Qed.

(** From a directory nested in [top], as many steps up as the nesting is
    deep lead to [top]. *)
Lemma unix_up_path (top subs : list (list ascii)) :
  Forall Unix.plain (top ++ subs) →
  up (length subs) (unix_path (top ++ subs)) = unix_path top.
Proof.
  induction subs as [|e subs IH] using rev_ind; intros Hall.
  - by rewrite app_nil_r.
  - rewrite length_app, Nat.add_comm. simpl Nat.add.
    rewrite up_S, app_assoc, unix_Dir_path by (by rewrite <- app_assoc).
    apply IH. rewrite app_assoc in Hall. by apply Forall_app in Hall as [? _].
Qed.

(** On Unix, from a directory nested at any depth in a tree with [.git]
    at the top and nowhere below, [repoRoot] returns the top. *)
Lemma unix_repoRoot_nested
    (w : world) (top subs : list (list ascii)) (fuel : nat) :
  Forall Unix.plain (top ++ subs) →
  cwd w = Some (unix_path (top ++ subs)) →
  has_git w (unix_path top) = true →
  (∀ n, 0 < n ≤ length subs →
        has_git w (unix_path (top ++ take n subs)) = false) →
  length subs < fuel →
  repoRoot fuel w = (Return (unix_path top), w).
Proof.
  intros Hall Hcwd Htop Hbelow Hfuel.
  rewrite <- (unix_up_path top subs Hall).
  apply (repoRoot_found (laws := unix_laws)); try done.
  - by rewrite unix_up_path.
  - intros j Hj.
    pose proof (take_drop (length subs - j) subs) as Hsplit.
    assert (length (drop (length subs - j) subs) = j) as Hlen
      by (rewrite length_drop; lia).
    rewrite <- Hsplit, app_assoc in Hall |- *.
    rewrite <- Hlen at 1. rewrite unix_up_path by done.
    apply Hbelow. lia.
Qed.

(** ** The examples *)

(** ** [path/filepath] on Windows: the documented cases *)

Example Windows_Clean_cases :
  map (on_chars Windows.Clean)
    ["c:"; "c:\"; "c:\abc"; "c:abc\..\..\.\.\..\def"; "c:\abc\def\..\..";
     "c:\..\abc"; "c:..\abc"; "\"; "/"; "\\i\..\c$"; "\\i\..\i\c$";
     "\\host\share\foo\..\bar"; "//host/share/foo/../baz"; "\\a\b\..\c";
     "\\a\b"; "abc//def//ghi"; EmptyString] =
    ["c:."; "c:\"; "c:\abc"; "c:..\..\def"; "c:\";
     "c:\abc"; "c:..\abc"; "\"; "\"; "\c$"; "\i\c$";
     "\\host\share\bar"; "\\host\share\baz"; "\\a\b\c";
     "\\a\b"; "abc\def\ghi"; "."].
Proof. reflexivity. Qed.

Example Windows_Dir_cases :
  map (@Dir windows)
    ["c:\"; "c:."; "c:\a\b"; "c:a\b"; "c:a\b\c";
     "\\host\share\"; "\\host\share\a"; "\\host\share\a\b"] =
    ["c:\"; "c:."; "c:\a"; "c:a"; "c:a\b";
     "\\host\share\"; "\\host\share\"; "\\host\share\a"].
Proof. reflexivity. Qed.

Example Windows_VolumeName_cases :
  map (@VolumeName windows)
    ["c:"; "2:"; EmptyString; "\\\host"; "\\\host\share"; "\\host"; "//host";
     "\\host\"; "\\host\share"; "//host/share"; "\\host\share\";
     "\\host\share\foo"; "//host/share/foo";
     "\\host\share\\foo\\\bar"; "\\host\share\foo\..\bar"] =
    ["c:"; EmptyString; EmptyString; EmptyString; EmptyString; EmptyString;
     EmptyString; EmptyString; "\\host\share"; "//host/share"; "\\host\share";
     "\\host\share"; "//host/share"; "\\host\share"; "\\host\share"].
Proof. reflexivity. Qed.

Example Windows_IsAbs_cases :
  map (@IsAbs windows)
    ["C:\"; "c\"; "c::"; "c:"; "/"; "\"; "\Windows"; "c:a\b"; "c:\a\b";
     "c:/a/b"; "\\host\share\foo"; "//host/share/foo/bar"] =
    [true; false; false; false; false; false; false; false; true;
     true; true; true].
Proof. reflexivity. Qed.

Example Windows_Join_cases :
  [@Join windows "directory" "file"; @Join windows "C:\Windows\" "System32";
   @Join windows "C:\Windows\" EmptyString; @Join windows "C:\" "Windows";
   @Join windows "\\host\share" "foo";
   @Join windows "C:\Users\gopher" ".git";
   @Join windows "C:\Users\gopher" (hookPath +:+ "commit-msg")] =
  ["directory\file"; "C:\Windows\System32"; "C:\Windows"; "C:\Windows";
   "\\host\share\foo";
   "C:\Users\gopher\.git"; "C:\Users\gopher\.git\hooks\commit-msg"].
Proof. reflexivity. Qed.

(** ** [path/filepath] on Windows *)

Module WindowsFacts.
Import Windows.

Lemma win_split_not_nil (s : chars) : split s ≠ [].
Proof.
  destruct s as [|c s]; simpl; [done|].
  destruct (IsPathSeparator c); [done|]. by destruct (split s).
Qed.

(** A separator ends an element and starts the next. *)
Lemma win_split_app_sep (s t : chars) :
  split (s ++ sep :: t) = split s ++ split t.
Proof.
  induction s as [|c s IH]; [done|]. simpl.
  rewrite IH. destruct (IsPathSeparator c); [done|].
  pose proof (win_split_not_nil s). by destruct (split s).
Qed.

Lemma win_split_elem (e : chars) : sep_free e = true → split e = [e].
Proof.
  induction e as [|c e IH]; [done|]. intros He.
  apply andb_true_iff in He as [Hc He]. apply negb_true_iff in Hc.
  simpl. by rewrite Hc, IH.
Qed.

Lemma win_join_cons (e : chars) (elems : list chars) :
  elems ≠ [] → join (e :: elems) = e ++ sep :: join elems.
Proof. by destruct elems. Qed.

Lemma win_join_app_elem (elems : list chars) (e : chars) :
  elems ≠ [] → join (elems ++ [e]) = join elems ++ sep :: e.
Proof.
  induction elems as [|e' elems IH]; [done|]. intros _.
  destruct elems as [|e'' elems]; [done|].
  change ((e' :: e'' :: elems) ++ [e]) with (e' :: ((e'' :: elems) ++ [e])).
  rewrite win_join_cons by done. rewrite IH by done.
  rewrite (win_join_cons e') by done. by rewrite <- app_assoc.
Qed.

Lemma win_plain_sep_free (e : chars) : plain e → sep_free e = true.
Proof. by intros (_ & _ & _ & ?). Qed.

(** Elements without separators are the elements of their path. *)
Lemma win_split_join (elems : list chars) :
  elems ≠ [] → Forall plain elems → split (join elems) = elems.
Proof.
  induction elems as [|e elems IH]; [done|]. intros _ Hall.
  apply Forall_cons in Hall as [He%win_plain_sep_free Hall].
  destruct elems as [|e' elems]; [by apply win_split_elem|].
  rewrite win_join_cons by done.
  rewrite win_split_app_sep, (win_split_elem e He), IH by done. done.
Qed.

(** Reading from the end, the last element is dropped whole. *)
Lemma win_drop_elem_elem (e r : chars) :
  sep_free e = true → drop_elem (rev e ++ r) = drop_elem r.
Proof.
  revert r. induction e as [|c e IH]; intros r He; [done|].
  apply andb_true_iff in He as [Hc He]. apply negb_true_iff in Hc.
  simpl rev. rewrite <- app_assoc. rewrite IH by done.
  simpl. by rewrite Hc.
Qed.

(** The loop of [Clean] keeps plain elements as they are. *)
Lemma win_clean_fold_plain (rooted : bool) (elems out : list chars) :
  Forall plain elems →
  fold_left (Unix.clean_step rooted) elems out = rev elems ++ out.
Proof.
  revert out. induction elems as [|e elems IH]; intros out Hall; [done|].
  apply Forall_cons in Hall as [(Hne & Hdot & Hdd & _) Hall].
  simpl. rewrite <- app_assoc. rewrite <- IH by done. f_equal.
  unfold Unix.clean_step. by rewrite !decide_False by done.
Qed.

Lemma join_nil (elems : list chars) :
  Forall plain elems → join elems = [] → elems = [].
Proof.
  destruct elems as [|e elems]; [done|]. intros Hall Hj.
  apply Forall_cons in Hall as [(Hne & _) _].
  destruct elems as [|e' elems]; simpl in Hj; [done|].
  by destruct e.
Qed.

(** The first character of a path of plain elements is no separator. *)
Lemma join_head (elems : list chars) (c : ascii) (t : chars) :
  Forall plain elems → join elems = c :: t → IsPathSeparator c = false.
Proof.
  destruct elems as [|e elems]; [done|]. intros Hall Hj.
  apply Forall_cons in Hall as [(Hne & _ & _ & Hfree) _].
  destruct e as [|c' e]; [done|].
  apply andb_true_iff in Hfree as [Hc _]. apply negb_true_iff in Hc.
  destruct elems as [|e' elems]; simpl in Hj; congruence.
Qed.

(** *** [FromSlash] *)

Lemma FromSlash_sep_free (e : chars) : sep_free e = true → FromSlash e = e.
Proof.
  induction e as [|c e IH]; [done|]. intros He.
  apply andb_true_iff in He as [Hc He]. apply negb_true_iff in Hc.
  apply orb_false_iff in Hc as [_ Hc].
  unfold FromSlash in *. simpl. by rewrite Hc, IH.
Qed.

Lemma FromSlash_sep (t : chars) : FromSlash (sep :: t) = sep :: FromSlash t.
Proof. reflexivity. Qed.

Lemma FromSlash_app (s t : chars) :
  FromSlash (s ++ t) = FromSlash s ++ FromSlash t.
Proof. apply map_app. Qed.

Lemma FromSlash_join (elems : list chars) :
  Forall plain elems → FromSlash (join elems) = join elems.
Proof.
  induction elems as [|e elems IH]; [done|]. intros Hall.
  apply Forall_cons in Hall as [He%win_plain_sep_free Hall].
  destruct elems as [|e' elems]; [by apply FromSlash_sep_free|].
  rewrite win_join_cons by done.
  by rewrite FromSlash_app, FromSlash_sep, FromSlash_sep_free, IH.
Qed.

Lemma letter_not_slash (c : ascii) :
  is_letter c = true → bool_decide (c = "/"%char) = false.
Proof.
  intros Hc. apply bool_decide_eq_false. intros ->. by vm_compute in Hc.
Qed.

Lemma FromSlash_volume (vol : chars) : volume vol → FromSlash vol = vol.
Proof.
  intros [c Hc | host share [Hh _] [Hs _]].
  - unfold FromSlash. simpl. by rewrite (letter_not_slash c Hc).
  - rewrite !FromSlash_sep, FromSlash_app, FromSlash_sep.
    by rewrite !FromSlash_sep_free.
Qed.

(** *** Volume names *)

Lemma share_end_name (s t : chars) :
  sep_free s = true → share_end (s ++ sep :: t) = length s.
Proof.
  induction s as [|c s IH]; [done|]. intros Hs.
  apply andb_true_iff in Hs as [Hc Hs]. apply negb_true_iff in Hc.
  simpl. by rewrite Hc, IH.
Qed.

Lemma unc_scan_host (x share t : chars) (n : nat) :
  sep_free x = true → unc_name share →
  unc_scan (x ++ sep :: share ++ sep :: t) n = n + length x + 1 + length share.
Proof.
  intros Hx [Hs (d & s' & -> & Hd)].
  revert n. induction x as [|c x IH]; intros n.
  - apply andb_true_iff in Hs as Hs'. destruct Hs' as [Hdsep _].
    apply negb_true_iff in Hdsep.
    change (unc_scan ([] ++ sep :: (d :: s') ++ sep :: t) n)
      with (if IsPathSeparator d then 0
            else if bool_decide (d = "."%char) then 0
            else S n + share_end ((d :: s') ++ sep :: t)).
    rewrite Hdsep, bool_decide_eq_false_2 by done.
    rewrite share_end_name by done. simpl. lia.
  - apply andb_true_iff in Hx as [Hc Hx]. apply negb_true_iff in Hc.
    specialize (IH Hx).
    destruct (x ++ sep :: (d :: s') ++ sep :: t) as [|d' r] eqn:Heq.
    { by destruct x. }
    change (unc_scan ((c :: x) ++ sep :: (d :: s') ++ sep :: t) n)
      with (unc_scan (c :: x ++ sep :: (d :: s') ++ sep :: t) n).
    rewrite Heq.
    change (unc_scan (c :: d' :: r) n)
      with (if IsPathSeparator c then
              if IsPathSeparator d' then 0
              else if bool_decide (d' = "."%char) then 0
              else S n + share_end (d' :: r)
            else unc_scan (d' :: r) (S n)).
    rewrite Hc, IH. simpl. lia.
Qed.

(** The volume name of a path on a volume is that volume. *)
Lemma volumeNameLen_volume (vol t : chars) :
  volume vol → volumeNameLen (vol ++ sep :: t) = length vol.
Proof.
  intros [c Hc | host share Hhost Hshare].
  - simpl. by rewrite Hc.
  - destruct Hhost as [Hh (h & host' & -> & Hdot)].
    apply andb_true_iff in Hh as [Hhsep Hh']. apply negb_true_iff in Hhsep.
    assert (5 ≤ length ((sep :: sep :: (h :: host') ++ sep :: share) ++
                        sep :: t)) as Hlen.
    { destruct Hshare as [_ (d & s' & -> & _)].
      rewrite length_app. simpl. rewrite length_app. simpl. lia. }
    apply Nat.leb_le in Hlen.
    change (volumeNameLen
              ((sep :: sep :: (h :: host') ++ sep :: share) ++ sep :: t))
      with (if (5 <=? length ((sep :: sep :: (h :: host') ++ sep :: share)
                              ++ sep :: t)) &&
               true && true && negb (IsPathSeparator h) &&
               negb (bool_decide (h = "."%char))
            then unc_scan ((host' ++ sep :: share) ++ sep :: t) 3
            else 0).
    rewrite Hlen, Hhsep, bool_decide_eq_false_2 by done. simpl andb.
    cbv iota. rewrite <- app_assoc.
    change ((sep :: share) ++ sep :: t) with (sep :: share ++ sep :: t).
    rewrite unc_scan_host by done.
    simpl. rewrite length_app. simpl. lia.
Qed.

(** What [Dir] hands to [Clean] has no volume name. *)
Lemma volumeNameLen_rooted (t : chars) :
  match t with
  | [] => True
  | d :: _ => IsPathSeparator d = false
  end →
  volumeNameLen (sep :: t) = 0.
Proof.
  destruct t as [|d [|e t]]; intros Hd; unfold volumeNameLen.
  - done.
  - change (is_letter sep) with false. by rewrite andb_false_r.
  - change (is_letter sep) with false. rewrite andb_false_r, Hd.
    by rewrite andb_false_r.
Qed.

(** *** [Clean] and [Dir] *)

Lemma win_Clean_rooted (t : chars) :
  match t with
  | [] => True
  | d :: _ => IsPathSeparator d = false
  end →
  Clean (sep :: t) =
  FromSlash
    (sep :: join (rev (fold_left (Unix.clean_step true) (split t) []))).
Proof.
  intros Ht. unfold Clean. rewrite (volumeNameLen_rooted t Ht). reflexivity.
Qed.

(** A rooted path of plain elements is clean. *)
Lemma Clean_rooted_elems (elems : list chars) :
  Forall plain elems → Clean (sep :: join elems) = sep :: join elems.
Proof.
  intros Hall. rewrite win_Clean_rooted.
  2:{ destruct (join elems) as [|c t] eqn:Hj; [done|].
      by apply (join_head elems c t). }
  destruct elems as [|e elems]; [reflexivity|].
  rewrite win_split_join, win_clean_fold_plain by done.
  rewrite app_nil_r, rev_involutive.
  by rewrite FromSlash_sep, FromSlash_join.
Qed.

(** Followed by a separator, it cleans to the path without it. *)
Lemma win_Clean_rooted_slash (elems : list chars) :
  elems ≠ [] → Forall plain elems →
  Clean (sep :: join elems ++ [sep]) = sep :: join elems.
Proof.
  intros Hne Hall. rewrite win_Clean_rooted.
  2:{ destruct (join elems) as [|c t] eqn:Hj.
      - apply join_nil in Hj; done.
      - by apply (join_head elems c t). }
  rewrite win_split_app_sep, fold_left_app.
  rewrite win_split_join, (win_clean_fold_plain true elems) by done.
  cbn [fold_left Windows.split]. unfold Unix.clean_step. rewrite decide_True by done.
  rewrite app_nil_r, rev_involutive.
  by rewrite FromSlash_sep, FromSlash_join.
Qed.

Lemma VolumeName_rooted_path (vol : chars) (elems : list chars) :
  volume vol → VolumeName (rooted_path vol elems) = vol.
Proof.
  intros Hvol. unfold VolumeName, rooted_path.
  rewrite volumeNameLen_volume by done. by rewrite take_app_length.
Qed.

(** The parent of the path of plain elements on a volume is the path
    of all its elements but the last. *)
Lemma win_Dir_rooted_path (vol : chars) (elems : list chars) (e : chars) :
  volume vol → Forall plain (elems ++ [e]) →
  Dir (rooted_path vol (elems ++ [e])) = rooted_path vol elems.
Proof.
  intros Hvol Hall. apply Forall_app in Hall as [Hall He].
  apply Forall_inv in He. apply win_plain_sep_free in He as Hfree.
  unfold Dir. rewrite VolumeName_rooted_path by done.
  unfold rooted_path at 1. rewrite drop_app_length.
  unfold rooted_path. f_equal.
  destruct elems as [|e' elems].
  - simpl app. simpl join.
    change (rev (sep :: e)) with (rev e ++ [sep]).
    rewrite win_drop_elem_elem by done.
    apply (Clean_rooted_elems []). done.
  - rewrite win_join_app_elem by done.
    change (sep :: join (e' :: elems) ++ sep :: e)
      with ((sep :: join (e' :: elems)) ++ [sep] ++ e).
    rewrite app_assoc, rev_app_distr, win_drop_elem_elem by done.
    rewrite rev_app_distr.
    set (r := rev (sep :: join (e' :: elems))).
    change (drop_elem (rev [sep] ++ r)) with (rev [sep] ++ r).
    subst r. rewrite <- rev_app_distr, rev_involutive.
    by apply win_Clean_rooted_slash.
Qed.

(** The root of a volume is its own parent. *)
Lemma Dir_root (vol : chars) :
  volume vol → Dir (rooted_path vol []) = rooted_path vol [].
Proof.
  intros Hvol. unfold Dir. rewrite VolumeName_rooted_path by done.
  unfold rooted_path. rewrite drop_app_length. reflexivity.
Qed.

Lemma length_join_snoc (elems : list chars) (e : chars) :
  e ≠ [] → length (join elems) < length (join (elems ++ [e])).
Proof.
  intros He. destruct elems as [|e' elems].
  - simpl. destruct e; [done | simpl; lia].
  - rewrite win_join_app_elem by done. rewrite length_app. simpl. lia.
Qed.

End WindowsFacts.

Lemma string_of_list_ascii_app (s t : list ascii) :
  string_of_list_ascii (s ++ t) =
  string_of_list_ascii s +:+ string_of_list_ascii t.
Proof.
  induction s as [|c s IH]; [done|].
  change (String c (string_of_list_ascii (s ++ t)) =
          String c (string_of_list_ascii s +:+ string_of_list_ascii t)).
  by rewrite IH.
Qed.

Lemma get_string_of_list_ascii (s t : list ascii) (c : ascii) :
  String.get (length s) (string_of_list_ascii (s ++ c :: t)) = Some c.
Proof. induction s as [|c' s IH]; [done|]. exact IH. Qed.

(** ** [repoRoot] on Windows *)

Lemma windows_VolumeName (vol : list ascii) (elems : list (list ascii)) :
  Windows.volume vol →
  @VolumeName windows (windows_path vol elems) = string_of_list_ascii vol.
Proof.
  intros Hvol. unfold VolumeName, windows, on_chars, windows_path.
  rewrite list_ascii_of_string_of_list_ascii.
  by rewrite WindowsFacts.VolumeName_rooted_path.
Qed.

Lemma windows_root_len (vol : list ascii) (elems : list (list ascii)) :
  Windows.volume vol →
  @root_len windows (windows_path vol elems) = 1 + length vol.
Proof.
  intros Hvol. unfold root_len.
  change (@GOOS windows =? "windows")%string with true. cbv iota.
  by rewrite windows_VolumeName, length_string_of_list_ascii.
Qed.

(** On Windows the test for the root holds of the root of the volume
    alone. *)
Lemma windows_at_root (vol : list ascii) (elems : list (list ascii)) :
  Forall Windows.plain elems →
  @at_root windows (1 + length vol) (windows_path vol elems) = true ↔
  elems = [].
Proof.
  intros Hall. unfold at_root, windows_path, Windows.rooted_path.
  rewrite length_string_of_list_ascii, length_app.
  replace (1 + length vol - 1) with (length vol) by lia.
  rewrite get_string_of_list_ascii.
  rewrite bool_decide_eq_true_2 by done. rewrite andb_true_r.
  rewrite Nat.eqb_eq. simpl. split.
  - intros Hlen. apply WindowsFacts.join_nil; [done|].
    destruct (Windows.join elems); [done | simpl in Hlen; lia].
  - intros ->. simpl. lia.
Qed.

Lemma windows_Dir_path
    (vol : list ascii) (elems : list (list ascii)) (e : list ascii) :
  Windows.volume vol → Forall Windows.plain (elems ++ [e]) →
  @Dir windows (windows_path vol (elems ++ [e])) = windows_path vol elems.
Proof.
  intros Hvol Hall. unfold Dir, windows, on_chars, windows_path.
  by rewrite list_ascii_of_string_of_list_ascii, WindowsFacts.win_Dir_rooted_path.
Qed.

Lemma windows_walk_laws (vol : list ascii) :
  Windows.volume vol → WalkLaws windows (on_volume vol).
Proof.
  intros Hvol. split.
  - intros d (elems & Hall & ->) Hroot.
    rewrite windows_root_len in Hroot by done.
    destruct elems as [|e elems _] using rev_ind.
    { by rewrite (proj2 (windows_at_root vol [] Hall)) in Hroot. }
    rewrite windows_Dir_path by done.
    apply Forall_app in Hall as [Hall He]. apply Forall_inv in He.
    split; [|split].
    + unfold windows_path, Windows.rooted_path.
      rewrite !length_string_of_list_ascii, !length_app. simpl.
      pose proof (WindowsFacts.length_join_snoc elems e (proj1 He)). lia.
    + by exists elems.
    + by rewrite !windows_root_len.
  - intros d (elems & Hall & ->) Hroot.
    rewrite windows_root_len in Hroot by done.
    apply windows_at_root in Hroot; [|done]. subst elems.
    unfold Dir, windows, on_chars, windows_path.
    by rewrite list_ascii_of_string_of_list_ascii, WindowsFacts.Dir_root.
Qed.

Lemma unix_walk_laws : WalkLaws unix (λ d, @IsAbs unix d = true).
Proof.
  split.
  - intros d Habs Hroot. by apply (Dir_shrinks (FilepathLaws := unix_laws)).
  - intros d Habs Hroot. by apply (Dir_root (FilepathLaws := unix_laws)).
Qed.

(** ** The walk of [repoRoot] on a platform *)

Section WalkOk.

Context {FP : Filepath} {ok : string → Prop} {laws : WalkLaws FP ok}.

(** The walk: the loop climbs [k] levels, passing directories that are
    neither roots nor hold [.git], and ends at the first directory that
    holds [.git] or, failing that, at the root. *)
Lemma repoRoot_loop_walk_ok (w : world) (n : nat) :
  ∀ dir, String.length dir ≤ n → ok dir →
  ∃ k, k ≤ n ∧
    (∀ j, j < k →
       has_git w (up j dir) = false ∧
       at_root (root_len dir) (up j dir) = false) ∧
    ok (up k dir) ∧ root_len (up k dir) = root_len dir ∧
    ((has_git w (up k dir) = true ∧
      ∀ fuel, k < fuel →
        repoRoot_loop fuel (root_len dir) dir w = (Return (up k dir), w)) ∨
     (has_git w (up k dir) = false ∧
      at_root (root_len dir) (up k dir) = true ∧
      ∀ fuel, k < fuel →
        repoRoot_loop fuel (root_len dir) dir w =
          (Fatal not_found, print_stderr not_found w))).
Proof.
  induction n as [|n IH]; intros dir Hlen Hok.
  - exists 0. split; [lia|]. split; [intros j Hj; lia|].
    split; [done|]. split; [done|].
    destruct (has_git w dir) eqn:Hgit.
    + left. split; [done|]. intros [|fuel] Hf; [lia|].
      by rewrite repoRoot_loop_S, Hgit.
    + destruct (at_root (root_len dir) dir) eqn:Hroot.
      * right. split; [done|]. split; [done|]. intros [|fuel] Hf; [lia|].
        by rewrite repoRoot_loop_S, Hgit, Hroot.
      * destruct (walk_shrinks dir Hok Hroot) as [Hlt _]. lia.
  - destruct (has_git w dir) eqn:Hgit.
    { exists 0. split; [lia|]. split; [intros j Hj; lia|].
      split; [done|]. split; [done|].
      left. split; [done|]. intros [|fuel] Hf; [lia|].
      by rewrite repoRoot_loop_S, Hgit. }
    destruct (at_root (root_len dir) dir) eqn:Hroot.
    { exists 0. split; [lia|]. split; [intros j Hj; lia|].
      split; [done|]. split; [done|].
      right. split; [done|]. split; [done|]. intros [|fuel] Hf; [lia|].
      by rewrite repoRoot_loop_S, Hgit, Hroot. }
    destruct (walk_shrinks dir Hok Hroot) as (Hlt & Hok' & Hlen').
    destruct (IH (Dir dir)) as (k & Hk & Hbefore & Hka & Hkl & Hend);
      [lia|done|].
    rewrite Hlen' in Hbefore, Hend, Hkl.
    exists (S k). split; [lia|]. split.
    { intros [|j] Hj; [done|]. rewrite up_S. apply Hbefore. lia. }
    rewrite up_S. split; [done|]. split; [done|].
    destruct Hend as [[Hg Hrun] | (Hg & Hr & Hrun)]; [left | right].
    + split; [done|]. intros [|fuel] Hf; [lia|].
      rewrite repoRoot_loop_S, Hgit, Hroot. apply Hrun. lia.
    + split; [done|]. split; [done|]. intros [|fuel] Hf; [lia|].
      rewrite repoRoot_loop_S, Hgit, Hroot. apply Hrun. lia.
Qed.

(** A root is its own ancestor at every level. *)
Lemma up_root_ok (k : nat) (dir : string) :
  ok dir → at_root (root_len dir) dir = true → up k dir = dir.
Proof.
  intros Hok Hroot. induction k as [|k IH]; [done|].
  by rewrite up_S, (walk_root _ Hok Hroot).
Qed.

(** [repoRoot] from a working directory of the platform. *)
Lemma repoRoot_walk (w : world) (wd : string) :
  ok wd → cwd w = Some wd →
  (∀ k, has_git w (up k wd) = true →
        (∀ j, j < k → has_git w (up j wd) = false) →
        ∀ fuel, k < fuel → repoRoot fuel w = (Return (up k wd), w)) ∧
  ((∀ k, has_git w (up k wd) = false) →
   ∃ k, k ≤ String.length wd ∧ ok (up k wd) ∧
        at_root (root_len wd) (up k wd) = true ∧
        ∀ fuel, k < fuel →
          repoRoot fuel w = (Fatal not_found, print_stderr not_found w)) ∧
  (∀ fuel, String.length wd < fuel → fst (repoRoot fuel w) ≠ OutOfFuel).
Proof.
  intros Hok Hcwd.
  destruct (repoRoot_loop_walk_ok w (String.length wd) wd)
    as (k0 & Hk0 & Hbefore & Hka & Hkl & Hend); [lia|done|].
  split; [|split].
  - intros k Hgit Hmin fuel Hfuel. rewrite (repoRoot_cwd _ _ _ Hcwd).
    destruct Hend as [[Hg Hrun] | (Hg & Hr & Hrun)].
    + assert (k = k0) as ->.
      { destruct (lt_eq_lt_dec k k0) as [[Hlt | ->] | Hgt]; [|done|].
        - destruct (Hbefore k Hlt) as [Hno _]. congruence.
        - pose proof (Hmin k0 Hgt). congruence. }
      by apply Hrun.
    + exfalso. destruct (le_lt_dec k k0) as [Hle | Hgt].
      * destruct (decide (k = k0)) as [-> | Hne]; [congruence|].
        destruct (Hbefore k) as [Hno _]; [lia | congruence].
      * replace k with ((k - k0) + k0) in Hgit by lia.
        rewrite up_add, up_root_ok in Hgit; [congruence | done |].
        by rewrite Hkl.
  - intros Hnone. destruct Hend as [[Hg Hrun] | (Hg & Hr & Hrun)].
    + rewrite Hnone in Hg. done.
    + exists k0. split; [done|]. split; [done|]. split; [done|].
      intros fuel Hfuel. rewrite (repoRoot_cwd _ _ _ Hcwd). by apply Hrun.
  - intros fuel Hfuel. rewrite (repoRoot_cwd _ _ _ Hcwd).
    destruct Hend as [[Hg Hrun] | (Hg & Hr & Hrun)];
      rewrite Hrun by lia; done.
Qed.

End WalkOk.

(** C6. [repoRoot] starts at the working directory and climbs one
    directory at a time.  It returns the first directory on the way that
    holds an entry named [.git], however many levels up that is.  When no
    directory on the way holds one, it ends the process at the root of
    the file system: on Unix the path [/], on Windows the volume name of
    the working directory, a drive or a share, followed by a backslash;
    that path has the length [rootlen] the code computes and ends with
    the separator.  In no case does it loop: more iterations than the
    working directory has characters are never needed.  This holds on
    Unix from every absolute working directory, and on Windows from the
    path of a directory on a drive or a share. *)
Theorem repoRoot_finds_enclosing_root
    (FP : Filepath) (w : world) (wd : string) :
  working_directory FP wd → cwd w = Some wd →
  (∀ k, has_git w (up k wd) = true →
        (∀ j, j < k → has_git w (up j wd) = false) →
        ∀ fuel, k < fuel → repoRoot fuel w = (Return (up k wd), w)) ∧
  ((∀ k, has_git w (up k wd) = false) →
   ∃ k, k ≤ String.length wd ∧
        up k wd = volume_root wd ∧
        String.length (up k wd) = root_len wd ∧
        String.get (root_len wd - 1) (up k wd) = Some Separator ∧
        ∀ fuel, k < fuel →
          repoRoot fuel w = (Fatal not_found, print_stderr not_found w)) ∧
  (∀ fuel, String.length wd < fuel → fst (repoRoot fuel w) ≠ OutOfFuel).
Proof.
  intros [d Habs | vol elems Hvol Hall] Hcwd.
  - destruct (repoRoot_walk (laws := unix_walk_laws) w d Habs Hcwd)
      as (Hfound & Hnone & Hloop).
    split; [done|]. split; [|done].
    intros Hno. destruct (Hnone Hno) as (k & Hk & Hok & Hroot & Hrun).
    exists k. split; [done|].
    apply (unix_at_root _ Hok) in Hroot. rewrite Hroot. done.
  - destruct (repoRoot_walk (laws := windows_walk_laws vol Hvol) w
                (windows_path vol elems))
      as (Hfound & Hnone & Hloop); [by exists elems | done |].
    split; [done|]. split; [|done].
    intros Hno. destruct (Hnone Hno) as (k & Hk & Hok & Hroot & Hrun).
    exists k. split; [done|].
    destruct Hok as (elems' & Hall' & Hup).
    rewrite windows_root_len in * by done.
    rewrite Hup in Hroot. apply windows_at_root in Hroot; [|done].
    subst elems'. rewrite Hup.
    unfold volume_root. rewrite windows_VolumeName by done.
    unfold windows_path, Windows.rooted_path.
    rewrite string_of_list_ascii_app.
    split; [done|].
    rewrite <- string_of_list_ascii_app, length_string_of_list_ascii.
    rewrite length_app. split; [simpl; lia|].
    replace (1 + length vol - 1) with (length vol) by lia.
    split; [apply get_string_of_list_ascii | done].
Qed.

Lemma repoRoot_finds_enclosing_root_witness :
  repoRoot 32 (repo_world None None 0) =
    (Return repo_root, repo_world None None 0) ∧
  @repoRoot windows 32 (windows_world true) =
    (Return (windows_path drive_c repo_elems), windows_world true) ∧
  ∃ k, @up windows k (windows_path drive_c (repo_elems ++ sub_elems)) =
         windows_path drive_c [] ∧
       @repoRoot windows 64 (windows_world false) =
         (Fatal not_found, print_stderr not_found (windows_world false)).
Proof.
  assert (Forall Windows.plain (repo_elems ++ sub_elems)) as Hall
    by (repeat constructor; (discriminate || reflexivity)).
  split; [|split].
  - destruct (repoRoot_finds_enclosing_root unix
                (repo_world None None 0) "/home/gopher/src/review/cmd/sub"
                (unix_wd "/home/gopher/src/review/cmd/sub" eq_refl) eq_refl)
      as [Hfound _].
    apply (Hfound 2).
    + vm_compute. reflexivity.
    + intros [|[|j]] Hj; [vm_compute; reflexivity.. | lia].
    + lia.
  - destruct (repoRoot_finds_enclosing_root windows
                (windows_world true)
                (windows_path drive_c (repo_elems ++ sub_elems))
                (windows_wd drive_c (repo_elems ++ sub_elems)
                   (Windows.drive "C" eq_refl) Hall) eq_refl) as [Hfound _].
    apply (Hfound 2).
    + vm_compute. reflexivity.
    + intros [|[|j]] Hj; [vm_compute; reflexivity.. | lia].
    + lia.
  - destruct (repoRoot_finds_enclosing_root windows
                (windows_world false)
                (windows_path drive_c (repo_elems ++ sub_elems))
                (windows_wd drive_c (repo_elems ++ sub_elems)
                   (Windows.drive "C" eq_refl) Hall) eq_refl)
      as (_ & Hnone & _).
    destruct Hnone as (k & Hk & Hup & _ & _ & Hrun).
    + assert (∀ k, ∃ j, j ≤ 6 ∧
                @up windows k (windows_path drive_c (repo_elems ++ sub_elems)) =
                @up windows j (windows_path drive_c (repo_elems ++ sub_elems)))
        as Hin.
      { induction k as [|k (j & Hj & IH)]; [exists 0; split; [lia|done]|].
        change (@up windows (S k)
                  (windows_path drive_c (repo_elems ++ sub_elems)))
          with (@Dir windows
                  (@up windows k
                     (windows_path drive_c (repo_elems ++ sub_elems)))).
        rewrite IH. destruct (decide (j = 6)) as [-> | Hne].
        - exists 6. split; [lia|]. vm_compute. reflexivity.
        - exists (S j). split; [lia|]. reflexivity. }
      intros k. destruct (Hin k) as (j & Hj & ->).
      do 7 (destruct j as [|j]; [vm_compute; reflexivity|]). lia.
    + exists k. split; [exact Hup|]. apply Hrun.
      vm_compute in Hk. lia.
Defined.

Lemma installHook_idempotent_witness :
  let w1 := snd (installHook 32 (repo_world None None 1)) in
  ∃ w2 cs, installHook 32 w1 = (Return tt, w2) ∧
           fs w2 = fs w1 ∧
           calls w2 = calls w1 ++ cs ∧
           forallb (λ c, negb (is_write c)) cs = true.
Proof.
  apply (installHook_idempotent (laws := unix_laws) 32
           (repo_world None None 1)).
  vm_compute. reflexivity.
Defined.

Lemma legacy_migration_exact_witness :
  let w := repo_world (Some (File nearly_old_hook)) None 1 in
  snd (installHook_migrate "commit-msg" repo_hook w) = w.
Proof.
  destruct (legacy_migration_exact "commit-msg" repo_hook
              (repo_world (Some (File nearly_old_hook)) None 1))
    as (_ & _ & Hdiffers & _).
  apply (Hdiffers nearly_old_hook).
  - vm_compute. reflexivity.
  - intros Heq. apply (f_equal length) in Heq. vm_compute in Heq.
    discriminate.
Defined.

Lemma installHook_keeps_existing_hook_witness :
  let w := repo_world (Some (File custom_hook)) None 1 in
  fs (snd (installHook 32 w)) !! repo_hook = Some (File custom_hook).
Proof.
  destruct (installHook_keeps_existing_hook 32
              (repo_world (Some (File custom_hook)) None 1)) as [Hkept _].
  apply (Hkept repo_hook custom_hook).
  - vm_compute. reflexivity.
  - intros Heq. apply (f_equal length) in Heq. vm_compute in Heq.
    discriminate.
Defined.

Lemma installHook_removal_failure_ignored_witness :
  let w := repo_world (Some old_hook) (Some EPERM) 1 in
  fst (Remove (hook_at repo_root) w) =
    Err (PathError "remove" (hook_at repo_root) (EFAULT EPERM)) ∧
  ∃ w', installHook 32 w = (Return tt, w') ∧
        fs w' = fs w ∧
        calls w' = calls w ++ [CallRemove (hook_at repo_root)] ∧
        stderr w' =
          stderr w ++ said w removing ++
          said w (Fmt.Sprintf "unexpected hook content in %s"
                    [Fmt.AString (hook_at repo_root)]).
Proof.
  apply (installHook_removal_failure_ignored 32
           (repo_world (Some old_hook) (Some EPERM) 1) repo_root EPERM).
  - vm_compute. reflexivity.
  - vm_compute. reflexivity.
  - vm_compute. reflexivity.
Defined.

(** C9 as stated fails.  The old script is in place, removing it fails
    with [EPERM], the verbosity is on: [installHook] returns normally, and
    of the two lines it prints none reports the error; what the migration
    prints is what it prints when the removal succeeds. *)
Lemma removal_failure_not_surfaced :
  let w := repo_world (Some old_hook) (Some EPERM) 1 in
  let w_ok := repo_world (Some old_hook) None 1 in
  let e := PathError "remove" repo_hook (EFAULT EPERM) in
  let w' := snd (installHook 32 w) in
  fst (Remove repo_hook w) = Err e ∧
  fst (installHook 32 w) = Return tt ∧
  stderr w' =
    ["removing old commit-msg hook";
     "unexpected hook content in /home/gopher/src/review/.git/hooks/commit-msg"] ∧
  failure_surfaced e w w' = false ∧
  stderr (snd (installHook_migrate "commit-msg" repo_hook w)) =
  stderr (snd (installHook_migrate "commit-msg" repo_hook w_ok)).
Proof. vm_compute. repeat split; reflexivity. Qed.


(** * Further properties *)

(** ** [repoRoot] *)

Section RootSound.

Context {FP : Filepath}.

Lemma repoRoot_loop_sound (w : world) (rootlen fuel : nat) :
  ∀ dir r w',
    repoRoot_loop fuel rootlen dir w = (Return r, w') →
    w' = w ∧ has_git w r = true ∧
    ∃ k, k < fuel ∧ r = up k dir ∧
         ∀ j, j < k → has_git w (up j dir) = false.
Proof.
  induction fuel as [|fuel IH]; intros dir r w' Hrun; [done|].
  rewrite repoRoot_loop_S in Hrun.
  destruct (has_git w dir) eqn:Hgit.
  - injection Hrun as <- <-. split; [done|]. split; [done|].
    exists 0. split; [lia|]. split; [done|]. intros j Hj. lia.
  - destruct (at_root rootlen dir); [done|].
    destruct (IH _ _ _ Hrun) as (-> & Hr & k & Hk & -> & Hmin).
    split; [done|]. split; [done|].
    exists (S k). split; [lia|]. split; [by rewrite up_S|].
    intros [|j] Hj; [done|]. rewrite up_S. apply Hmin. lia.
Qed.

(** X1. Whatever [repoRoot] returns holds an entry named [.git] and is
    the working directory or one of its parents, reached by [filepath.Dir]
    alone, with no [.git] in the directories passed on the way; the
    world is left as it was.  This needs nothing of the platform. *)
Theorem repoRoot_returns_repository
    (fuel : nat) (w w' : world) (r : string) :
  repoRoot fuel w = (Return r, w') →
  w' = w ∧ has_git w r = true ∧
  ∃ wd k, cwd w = Some wd ∧ k < fuel ∧ r = up k wd ∧
          ∀ j, j < k → has_git w (up j wd) = false.
Proof.
  intros Hrun. destruct (cwd w) as [wd|] eqn:Hcwd.
  - rewrite (repoRoot_cwd _ _ _ Hcwd) in Hrun.
    destruct (repoRoot_loop_sound _ _ _ _ _ _ Hrun)
      as (-> & Hgit & k & Hk & -> & Hmin).
    split; [done|]. split; [done|]. exists wd, k. done.
  - revert Hrun. unfold repoRoot, Getwd. run. by rewrite Hcwd.
Qed.

(** What [repoRoot] returns holds [.git]. *)
Lemma repoRoot_loop_sound_root (fuel : nat) (w w' : world) (r : string) :
  repoRoot fuel w = (Return r, w') → has_git w r = true ∧ w' = w.
Proof.
  intros Hrun. destruct (cwd w) as [wd|] eqn:Hcwd.
  - rewrite (repoRoot_cwd _ _ _ Hcwd) in Hrun.
    by destruct (repoRoot_loop_sound _ _ _ _ _ _ Hrun) as (-> & ? & _).
  - revert Hrun. unfold repoRoot, Getwd. run. by rewrite Hcwd.
Qed.

End RootSound.

Lemma repoRoot_returns_repository_witness :
  has_git (repo_world None None 0) repo_root = true.
Proof.
  apply (repoRoot_returns_repository 32 (repo_world None None 0)
           (repo_world None None 0) repo_root).
  vm_compute. reflexivity.
Defined.

Section RootErrors.

Context {FP : Filepath}.

Lemma repoRoot_loop_dies (w : world) (rootlen fuel : nat) :
  ∀ dir msg w',
    repoRoot_loop fuel rootlen dir w = (Fatal msg, w') → msg = not_found.
Proof.
  induction fuel as [|fuel IH]; intros dir msg w' Hrun; [done|].
  rewrite repoRoot_loop_S in Hrun.
  destruct (has_git w dir); [done|].
  destruct (at_root rootlen dir); [by injection Hrun as <- _|].
  by apply (IH _ _ _ Hrun).
Qed.

(** X18. [repoRoot] only looks: in every outcome the file tree, the
    calls made and the random source are as before.  It ends the process
    in two ways only, each with its message on the error stream: the
    working directory cannot be had, or the walk reached the root and
    found no [.git]. *)
Theorem repoRoot_only_looks (fuel : nat) (w : world) :
  let o := fst (repoRoot fuel w) in
  let w' := snd (repoRoot fuel w) in
  fs w' = fs w ∧ calls w' = calls w ∧ entropy w' = entropy w ∧
  match o with
  | Fatal msg =>
      w' = print_stderr msg w ∧
      (msg = not_found ∨
       ∃ e, Getwd w = Err e ∧
            msg = Fmt.Sprintf "could not get current directory: %v"
                    [Fmt.AError e])
  | _ => w' = w
  end.
Proof.
  simpl. pose proof (repoRoot_pure fuel w) as Hpure.
  destruct (repoRoot fuel w) as [o w'] eqn:Hrun. simpl in *. subst w'.
  destruct o as [r|msg|]; simpl; [done| |done].
  split; [done|]. split; [done|]. split; [done|]. split; [done|].
  destruct (cwd w) as [wd|] eqn:Hcwd.
  - left. rewrite (repoRoot_cwd _ _ _ Hcwd) in Hrun.
    by apply (repoRoot_loop_dies _ _ _ _ _ _ Hrun).
  - right. revert Hrun. unfold repoRoot, Getwd. run. rewrite Hcwd.
    intros [= <-]. eauto.
Qed.

End RootErrors.

(** ** [installHook] *)

Lemma Stat_absent (name : string) (w : world) :
  fault_at Resolve name w = None → fs w !! name = None →
  Stat name w = Err (PathError "stat" name ENOENT).
Proof. intros Hres Hnone. unfold Stat, resolve. by rewrite Hres, Hnone. Qed.

Lemma to_of_string (s : string) : to_string (of_string s) = s.
Proof. apply string_of_list_byte_of_string. Qed.

Lemma hookContent_commit_msg : hookContent "commit-msg" = commit_msg_script.
Proof. reflexivity. Qed.

(** Mode 0700 less any umask has no bit for the group or for others. *)
Lemma owner_only (u : Z) : Z.land (Z.ldiff 448 u) 63 = 0%Z.
Proof.
  apply Z.bits_inj'. intros n Hn.
  rewrite Z.land_spec, Z.ldiff_spec, Z.bits_0.
  destruct (Z.testbit 63 n) eqn:H63; [|by rewrite andb_false_r].
  assert (n < 6)%Z as Hlt.
  { destruct (Z.ltb_spec n 6) as [|Hge]; [done|].
    rewrite Z.bits_above_log2 in H63; [done | lia |].
    change (Z.log2 63) with 5%Z. lia. }
  assert (n = 0 ∨ n = 1 ∨ n = 2 ∨ n = 3 ∨ n = 4 ∨ n = 5)%Z as Hn' by lia.
  by destruct Hn' as [-> | [-> | [-> | [-> | [-> | ->]]]]].
Qed.

Section InstallMore.

Context {FP : Filepath}.

(** No hook file and no fault: the dispatcher script is written. *)
Lemma installHook_fresh_run (fuel : nat) (w : world) (root : string) :
  fst (repoRoot fuel w) = Return root →
  fs w !! hook_at root = None →
  fault_at Resolve (hook_at root) w = None →
  fault_at Create (hook_at root) w = None →
  ∃ w', installHook fuel w = (Return tt, w') ∧
        same_env w w' ∧
        fs w' = <[hook_at root := File (hook_file "commit-msg" w)]> (fs w) ∧
        calls w' =
          calls w ++
          [CallWriteFile (hook_at root)
             (of_string (hookContent "commit-msg")) 448] ∧
        stderr w' =
          stderr w ++
          said w (Fmt.Sprintf "installing %s hook" [Fmt.AString "commit-msg"]).
Proof.
  intros Hroot Hnone Hres Hcreate.
  pose proof (installHook_run fuel w) as Hrun. rewrite Hroot in Hrun.
  destruct Hrun as (wm & Hm & ->).
  destruct (installHook_migrate_cases "commit-msg" (hook_at root) w)
    as (wm' & Hm' & _ & Hmig).
  assert (wm' = wm) as -> by congruence.
  destruct Hmig as [[-> _] | (_ & Hread & _)].
  2:{ apply ReadFile_Ok in Hread as (_ & _ & f & Hf & _). congruence. }
  destruct (installHook_write_cases "commit-msg" (hook_at root) w)
    as (o & w' & Hw & Henv & Hwri).
  rewrite (Stat_absent _ _ Hres Hnone) in Hwri. simpl in Hwri.
  rewrite Hcreate in Hwri. destruct Hwri as (Hcalls & -> & Hfs & Herr).
  exists w'. done.
Qed.

(** X3. With no entry at the path of the commit-msg hook, and the
    directory [.git/hooks] that is to hold it in place, [installHook]
    creates the file with the dispatcher script: two lines, the shebang
    and the [exec] of [git-review hook-invoke commit-msg] with the
    arguments passed on.  Its mode is 0700 less the umask, so that neither
    the group nor others have any access whatever the umask is; one
    [WriteFile] is the only call that changes the file tree. *)
Theorem installHook_creates_hook (fuel : nat) (w : world) (root : string) :
  fst (repoRoot fuel w) = Return root →
  fs w !! Dir (hook_at root) = Some Directory →
  fs w !! hook_at root = None →
  fault_at Resolve (hook_at root) w = None →
  fault_at Create (hook_at root) w = None →
  ∃ w' f, installHook fuel w = (Return tt, w') ∧
          fs w' = <[hook_at root := File f]> (fs w) ∧
          to_string (data f) = commit_msg_script ∧
          mode f = Z.ldiff 448 (umask w) ∧
          Z.land (mode f) 63 = 0%Z ∧
          calls w' = calls w ++ [CallWriteFile (hook_at root) (data f) 448].
Proof.
  intros Hroot _ Hnone Hres Hcreate.
  destruct (installHook_fresh_run fuel w root Hroot Hnone Hres Hcreate)
    as (w' & Hrun & _ & Hfs & Hcalls & _).
  exists w', (hook_file "commit-msg" w).
  split; [done|]. split; [done|].
  split; [simpl; by rewrite to_of_string|].
  split; [done|]. split; [apply owner_only | done].
Qed.

End InstallMore.

Lemma installHook_creates_hook_witness :
  ∃ w' f, installHook 32 (repo_world None None 0) = (Return tt, w') ∧
          fs w' = <[hook_at repo_root := File f]> (fs (repo_world None None 0)) ∧
          to_string (data f) = commit_msg_script ∧
          mode f = Z.ldiff 448 (umask (repo_world None None 0)) ∧
          Z.land (mode f) 63 = 0%Z ∧
          calls w' =
            calls (repo_world None None 0) ++
            [CallWriteFile (hook_at repo_root) (data f) 448].
Proof.
  apply (installHook_creates_hook 32 (repo_world None None 0) repo_root).
  - vm_compute. reflexivity.
  - vm_compute. reflexivity.
  - vm_compute. reflexivity.
  - vm_compute. reflexivity.
  - vm_compute. reflexivity.
Defined.

Section InstallErrors.

Context {FP : Filepath}.

(** The old script is in place and can be removed: what the migration
    leaves for the rest of the loop body. *)
Lemma installHook_migrate_removes (filename : string) (w : world) :
  ReadFile filename w = Ok (of_string oldCommitMsgHook) →
  fault_at Unlink filename w = None →
  ∃ wm, installHook_migrate "commit-msg" filename w = (Return tt, wm) ∧
        same_env w wm ∧
        fs wm = delete filename (fs w) ∧
        calls wm = calls w ++ [CallRemove filename] ∧
        stderr wm = stderr w ++ said w removing.
Proof.
  intros Hread Hunlink.
  destruct (installHook_migrate_cases "commit-msg" filename w)
    as (wm & Hm & Henv & Hmig).
  exists wm. split; [done|]. split; [done|].
  destruct Hmig as [[_ [? | ?]] | (_ & _ & Hcalls & Herr & Hfs)]; [done..|].
  by rewrite Hunlink in Hfs.
Qed.

(** X4. With the old script at the path of the commit-msg hook,
    [installHook] removes it and writes the dispatcher script in its
    place, as a new file: its mode is 0700 less the umask, not the mode of
    the old script.  The calls are one [Remove] and then one [WriteFile]. *)
Theorem installHook_replaces_old_hook
    (fuel : nat) (w : world) (root : string) :
  fst (repoRoot fuel w) = Return root →
  ReadFile (hook_at root) w = Ok (of_string oldCommitMsgHook) →
  fault_at Unlink (hook_at root) w = None →
  fault_at Create (hook_at root) w = None →
  ∃ w', installHook fuel w = (Return tt, w') ∧
        fs w' = <[hook_at root := File (hook_file "commit-msg" w)]> (fs w) ∧
        calls w' =
          calls w ++
          [CallRemove (hook_at root);
           CallWriteFile (hook_at root)
             (of_string (hookContent "commit-msg")) 448] ∧
        stderr w' =
          stderr w ++ said w removing ++
          said w (Fmt.Sprintf "installing %s hook" [Fmt.AString "commit-msg"]).
Proof.
  intros Hroot Hread Hunlink Hcreate.
  pose proof (installHook_run fuel w) as Hrun. rewrite Hroot in Hrun.
  destruct Hrun as (wm & Hm & ->).
  destruct (installHook_migrate_removes _ _ Hread Hunlink)
    as (wm' & Hm' & Henv & Hfs & Hcalls & Herr).
  assert (wm' = wm) as -> by congruence.
  pose proof Henv as (Hfaults & _ & Hverb & Humask).
  apply ReadFile_Ok in Hread as (Hres & _).
  destruct (installHook_write_cases "commit-msg" (hook_at root) wm)
    as (o & w' & -> & _ & Hwri).
  rewrite (Stat_absent _ wm) in Hwri.
  2:{ unfold fault_at in *. by rewrite Hfaults. }
  2:{ by rewrite Hfs, lookup_delete_eq. }
  simpl in Hwri. unfold fault_at in *. rewrite Hfaults, Hcreate in Hwri.
  destruct Hwri as (Hcalls' & -> & Hfs' & Herr').
  exists w'. split; [done|].
  split.
  { rewrite Hfs', Hfs, insert_delete_eq. unfold hook_file. by rewrite Humask. }
  split; [by rewrite Hcalls', Hcalls, <- app_assoc|].
  rewrite Herr', Herr, <- app_assoc. unfold said. by rewrite Hverb.
Qed.

(** X5. When the dispatcher script cannot be created, [installHook] ends
    the process with [writing hook:] and the error.  No entry is at the
    path of the hook afterwards: an old script that was removed before
    the write is not put back. *)
Theorem installHook_write_failure
    (fuel : nat) (w : world) (root : string) (x : fault) :
  fst (repoRoot fuel w) = Return root →
  fault_at Resolve (hook_at root) w = None →
  fs w !! hook_at root = None ∨
  (ReadFile (hook_at root) w = Ok (of_string oldCommitMsgHook) ∧
   fault_at Unlink (hook_at root) w = None) →
  fault_at Create (hook_at root) w = Some x →
  ∃ w', installHook fuel w =
          (Fatal (Fmt.Sprintf "writing hook: %v"
                    [Fmt.AError (PathError "open" (hook_at root) (EFAULT x))]),
           w') ∧
        fs w' = delete (hook_at root) (fs w).
Proof.
  intros Hroot Hres Hhook Hcreate.
  pose proof (installHook_run fuel w) as Hrun. rewrite Hroot in Hrun.
  destruct Hrun as (wm & Hm & ->).
  assert (same_env w wm ∧ fs wm = delete (hook_at root) (fs w)) as [Henv Hfs].
  { destruct Hhook as [Hnone | [Hread Hunlink]].
    - destruct (installHook_migrate_cases "commit-msg" (hook_at root) w)
        as (wm' & Hm' & Henv & Hmig).
      assert (wm' = wm) as -> by congruence.
      destruct Hmig as [[-> _] | (_ & Hread & _)].
      + split; [done|]. by rewrite delete_id.
      + apply ReadFile_Ok in Hread as (_ & _ & f & Hf & _). congruence.
    - destruct (installHook_migrate_removes _ _ Hread Hunlink)
        as (wm' & Hm' & Henv & Hfs & _).
      assert (wm' = wm) as -> by congruence. done. }
  pose proof Henv as (Hfaults & _).
  destruct (installHook_write_cases "commit-msg" (hook_at root) wm)
    as (o & w' & -> & _ & Hwri).
  rewrite (Stat_absent _ wm) in Hwri.
  2:{ unfold fault_at in *. by rewrite Hfaults. }
  2:{ by rewrite Hfs, lookup_delete_eq. }
  simpl in Hwri. unfold fault_at in *. rewrite Hfaults, Hcreate in Hwri.
  destruct Hwri as (_ & -> & Hfs').
  exists w'. split; [done|]. by rewrite Hfs'.
Qed.

(** X6. When the entry at the path of the hook cannot be examined for a
    reason other than its absence, [installHook] ends the process with
    [checking hook:] and the error of [Stat]; it reads nothing more,
    removes nothing and writes nothing. *)
Theorem installHook_stat_failure
    (fuel : nat) (w : world) (root : string) (x : fault) :
  fst (repoRoot fuel w) = Return root →
  fault_at Resolve (hook_at root) w = Some x →
  installHook fuel w =
    died (Fmt.Sprintf "checking hook: %v"
            [Fmt.AError (PathError "stat" (hook_at root) (EFAULT x))]) w.
Proof.
  intros Hroot Hres.
  pose proof (installHook_run fuel w) as Hrun. rewrite Hroot in Hrun.
  destruct Hrun as (wm & Hm & ->).
  destruct (installHook_migrate_cases "commit-msg" (hook_at root) w)
    as (wm' & Hm' & _ & Hmig).
  assert (wm' = wm) as -> by congruence.
  destruct Hmig as [[-> _] | (_ & Hread & _)].
  2:{ apply ReadFile_Ok in Hread as (? & _). congruence. }
  unfold installHook_write, Stat, resolve. run. by rewrite Hres.
Qed.

(** X7. An entry at the path of the hook that cannot be read (a
    directory, a file the process may not open) counts as an installed
    hook, even when it holds the old script: [installHook] returns
    normally and issues no call that changes the file tree; in verbose
    mode it prints [reading hook:] and the error. *)
Theorem installHook_unreadable_entry
    (fuel : nat) (w : world) (root : string) (n : node) (e : error) :
  fst (repoRoot fuel w) = Return root →
  fault_at Resolve (hook_at root) w = None →
  fs w !! hook_at root = Some n →
  ReadFile (hook_at root) w = Err e →
  ∃ w', installHook fuel w = (Return tt, w') ∧
        fs w' = fs w ∧ calls w' = calls w ∧
        stderr w' =
          stderr w ++
          said w (Fmt.Sprintf "reading hook: %v" [Fmt.AError e]).
Proof.
  intros Hroot Hres Hn Hread.
  pose proof (installHook_run fuel w) as Hrun. rewrite Hroot in Hrun.
  destruct Hrun as (wm & Hm & ->).
  destruct (installHook_migrate_cases "commit-msg" (hook_at root) w)
    as (wm' & Hm' & _ & Hmig).
  assert (wm' = wm) as -> by congruence.
  destruct Hmig as [[-> _] | (_ & Hread' & _)]; [|congruence].
  destruct (installHook_write_cases "commit-msg" (hook_at root) w)
    as (o & w' & Hw & _ & Hwri).
  assert (is_ok (Stat (hook_at root) w) = true) as Hok
    by (apply Stat_Ok; eauto).
  destruct (Stat (hook_at root) w); [|done].
  destruct Hwri as (-> & Hfs & Hcalls & Herr).
  exists w'. split; [done|]. split; [done|]. split; [done|].
  rewrite Herr. unfold existing_note, said. by rewrite Hread.
Qed.

(** X8. [installHook] changes nothing but the entry at the path of the
    commit-msg hook under the root that [repoRoot] returns: every other
    path holds what it held, every call that changes the file tree names
    the hook, and the working directory, the umask, the verbosity and the
    faults stay.  When [repoRoot] returns no root, no such call is made. *)
Theorem installHook_touches_hook_only (fuel : nat) (w : world) :
  let w' := snd (installHook fuel w) in
  match fst (repoRoot fuel w) with
  | Return root =>
      (∀ p, p ≠ hook_at root → fs w' !! p = fs w !! p) ∧
      (∃ cs, calls w' = calls w ++ cs ∧
             Forall (λ c, call_name c = hook_at root) cs) ∧
      same_env w w'
  | _ => fs w' = fs w ∧ calls w' = calls w
  end.
Proof.
  pose proof (installHook_run fuel w) as Hrun. simpl.
  destruct (fst (repoRoot fuel w)) as [root|msg|]; [|by rewrite Hrun..].
  destruct Hrun as (wm & Hm & ->).
  destruct (installHook_migrate_cases "commit-msg" (hook_at root) w)
    as (wm' & Hm' & Henv & Hmig).
  assert (wm' = wm) as -> by congruence.
  destruct (installHook_write_cases "commit-msg" (hook_at root) wm)
    as (o & w' & -> & Henv' & Hwri).
  simpl.
  assert ((∀ p, p ≠ hook_at root → fs wm !! p = fs w !! p) ∧
          ∃ cs, calls wm = calls w ++ cs ∧
                Forall (λ c, call_name c = hook_at root) cs)
    as [Hframe (cs & Hcalls & Hcs)].
  { destruct Hmig as [[-> _] | (_ & _ & Hcalls & _ & Hfs)].
    - split; [done|]. exists []. by rewrite app_nil_r.
    - split.
      + intros p Hp.
        destruct (fault_at Unlink (hook_at root) w); rewrite Hfs; [done|].
        by rewrite lookup_delete_ne.
      + exists [CallRemove (hook_at root)]. split; [done|].
        by repeat constructor. }
  assert ((∀ p, p ≠ hook_at root → fs w' !! p = fs wm !! p) ∧
          ∃ cs', calls w' = calls wm ++ cs' ∧
                 Forall (λ c, call_name c = hook_at root) cs')
    as [Hframe' (cs' & Hcalls' & Hcs')].
  { destruct (Stat (hook_at root) wm) as [n|e].
    - destruct Hwri as (_ & -> & -> & _).
      split; [done|]. exists []. by rewrite app_nil_r.
    - destruct (IsNotExist e).
      + destruct Hwri as (Hc & Hfs). split.
        * intros p Hp. destruct (fault_at Create (hook_at root) wm).
          -- by destruct Hfs as [_ ->].
          -- destruct Hfs as (_ & -> & _). by rewrite lookup_insert_ne.
        * eexists. split; [exact Hc|]. by repeat constructor.
      + destruct Hwri as (_ & -> & ->).
        split; [done|]. exists []. by rewrite app_nil_r. }
  split; [intros p Hp; by rewrite Hframe', Hframe|].
  split; [|by apply (same_env_trans _ wm)].
  exists (cs ++ cs'). rewrite Hcalls', Hcalls, <- app_assoc.
  split; [done|]. by apply Forall_app.
Qed.

End InstallErrors.

Lemma installHook_replaces_old_hook_witness :
  let w := repo_world (Some old_hook) None 1 in
  ∃ w', installHook 32 w = (Return tt, w') ∧
        fs w' = <[hook_at repo_root := File (hook_file "commit-msg" w)]> (fs w) ∧
        calls w' =
          calls w ++
          [CallRemove (hook_at repo_root);
           CallWriteFile (hook_at repo_root)
             (of_string (hookContent "commit-msg")) 448] ∧
        stderr w' =
          stderr w ++ said w removing ++
          said w (Fmt.Sprintf "installing %s hook" [Fmt.AString "commit-msg"]).
Proof.
  apply (installHook_replaces_old_hook 32
           (repo_world (Some old_hook) None 1) repo_root).
  - vm_compute. reflexivity.
  - vm_compute. reflexivity.
  - vm_compute. reflexivity.
  - vm_compute. reflexivity.
Defined.

Lemma installHook_write_failure_witness :
  let w := repo_world_fault (Some old_hook) create_fails 0 in
  ∃ w', installHook 32 w =
          (Fatal (Fmt.Sprintf "writing hook: %v"
                    [Fmt.AError
                       (PathError "open" (hook_at repo_root) (EFAULT EACCES))]),
           w') ∧
        fs w' = delete (hook_at repo_root) (fs w).
Proof.
  apply (installHook_write_failure 32
           (repo_world_fault (Some old_hook) create_fails 0) repo_root EACCES).
  - vm_compute. reflexivity.
  - vm_compute. reflexivity.
  - right. split; vm_compute; reflexivity.
  - vm_compute. reflexivity.
Defined.

Lemma installHook_stat_failure_witness :
  let w := repo_world_fault (Some (File custom_hook)) resolve_fails 0 in
  installHook 32 w =
    died (Fmt.Sprintf "checking hook: %v"
            [Fmt.AError (PathError "stat" (hook_at repo_root) (EFAULT EACCES))])
      w.
Proof.
  apply (installHook_stat_failure 32
           (repo_world_fault (Some (File custom_hook)) resolve_fails 0)
           repo_root EACCES).
  - vm_compute. reflexivity.
  - vm_compute. reflexivity.
Defined.

Lemma installHook_unreadable_entry_witness :
  let w := repo_world (Some Directory) None 1 in
  ∃ w', installHook 32 w = (Return tt, w') ∧
        fs w' = fs w ∧ calls w' = calls w ∧
        stderr w' =
          stderr w ++
          said w (Fmt.Sprintf "reading hook: %v"
                    [Fmt.AError (PathError "read" (hook_at repo_root) EISDIR)]).
Proof.
  apply (installHook_unreadable_entry 32
           (repo_world (Some Directory) None 1) repo_root Directory).
  - vm_compute. reflexivity.
  - vm_compute. reflexivity.
  - vm_compute. reflexivity.
  - vm_compute. reflexivity.
Defined.

Section InstallLaws.

Context {FP : Filepath} {laws : FilepathLaws FP}.

(** X2. Outside every repository [installHook] ends the process with
    the message of [repoRoot] before it reads, removes or writes any hook
    file: from an absolute working directory none of whose ancestors
    holds [.git], the outcome is [git root not found] and the world gains
    that line on the error stream and nothing else. *)
Theorem installHook_outside_repository (w : world) (wd : string) (fuel : nat) :
  cwd w = Some wd → IsAbs wd = true →
  (∀ k, k ≤ String.length wd → has_git w (up k wd) = false) →
  String.length wd < fuel →
  installHook fuel w = died not_found w.
Proof.
  intros Hcwd Habs Hnone Hfuel.
  destruct (repoRoot_loop_walk w (String.length wd) wd)
    as (k & Hk & _ & _ & _ & Hend); [lia|done|].
  destruct Hend as [[Hg _] | (_ & _ & Hrun)].
  { rewrite Hnone in Hg by done. done. }
  pose proof (installHook_run fuel w) as Hinst.
  rewrite (repoRoot_cwd _ _ _ Hcwd), Hrun in Hinst by lia. done.
Qed.

(** The root is found again after the hook file changed. *)
Lemma repoRoot_after_install (fuel : nat) (w w1 : world) (root : string) :
  same_env w w1 →
  (∀ p, p ≠ hook_at root → fs w1 !! p = fs w !! p) →
  fst (repoRoot fuel w1) = fst (repoRoot fuel w).
Proof.
  intros (Hfaults & Hcwd & _) Hframe.
  apply repoRoot_ext; [done|].
  intros d. unfold has_git. f_equal.
  apply Stat_ext; [|done]. apply Hframe. apply hook_not_git.
Qed.

Lemma Ok_inj {A} (a b : A) : Ok a = Ok b → a = b.
Proof. by intros [= ->]. Qed.

(** A successful [installHook] that found no entry at the path of the
    hook met no fault on the way. *)
Lemma installHook_created (fuel : nat) (w w1 : world) (root : string) :
  fst (repoRoot fuel w) = Return root →
  fs w !! hook_at root = None →
  installHook fuel w = (Return tt, w1) →
  fault_at Resolve (hook_at root) w = None ∧
  fault_at Create (hook_at root) w = None.
Proof.
  intros Hroot Hnone Hinst.
  pose proof (installHook_run fuel w) as Hrun. rewrite Hroot in Hrun.
  destruct Hrun as (wm & Hm & Hrun). rewrite Hinst in Hrun.
  destruct (installHook_migrate_cases "commit-msg" (hook_at root) w)
    as (wm' & Hm' & _ & Hmig).
  assert (wm' = wm) as -> by congruence.
  destruct Hmig as [[-> _] | (_ & Hread & _)].
  2:{ apply ReadFile_Ok in Hread as (_ & _ & f & Hf & _). congruence. }
  destruct (installHook_write_cases "commit-msg" (hook_at root) w)
    as (o & w' & Hw & _ & Hwri).
  rewrite <- Hrun in Hw. injection Hw as <- <-.
  destruct (fault_at Resolve (hook_at root) w) as [x|] eqn:Hres.
  { revert Hwri. unfold Stat, resolve. rewrite Hres. simpl. by intros [? _]. }
  split; [done|].
  rewrite (Stat_absent _ _ Hres Hnone) in Hwri. simpl in Hwri.
  destruct (fault_at Create (hook_at root) w); [by destruct Hwri as (_ & ? & _) | done].
Qed.

(** X10. After [installHook] has created the hook file, a second
    [installHook] finds the content it would write: it returns normally,
    prints nothing even in verbose mode, issues no call that changes the
    file tree and leaves the tree as it is. *)
Theorem installHook_again_is_silent
    (fuel : nat) (w w1 : world) (root : string) :
  fst (repoRoot fuel w) = Return root →
  fs w !! hook_at root = None →
  fault_at OpenRead (hook_at root) w = None →
  installHook fuel w = (Return tt, w1) →
  ∃ w2, installHook fuel w1 = (Return tt, w2) ∧
        fs w2 = fs w1 ∧ calls w2 = calls w1 ∧ stderr w2 = stderr w1.
Proof.
  intros Hroot Hnone Hopen Hinst.
  destruct (installHook_created fuel w w1 root Hroot Hnone Hinst)
    as [Hres Hcreate].
  destruct (installHook_fresh_run fuel w root Hroot Hnone Hres Hcreate)
    as (w1' & Hrun & Henv & Hfs & _).
  assert (w1' = w1) as -> by congruence.
  pose proof Henv as (Hfaults & _).
  assert (ReadFile (hook_at root) w1 = Ok (of_string (hookContent "commit-msg")))
    as Hread.
  { apply ReadFile_Ok. unfold fault_at in *. rewrite !Hfaults, Hfs.
    rewrite lookup_insert_eq. eauto. }
  assert (fst (repoRoot fuel w1) = Return root) as Hroot1.
  { rewrite <- Hroot. apply (repoRoot_after_install _ _ _ root); [done|].
    intros p Hp. by rewrite Hfs, lookup_insert_ne. }
  pose proof (installHook_run fuel w1) as Hrun1. rewrite Hroot1 in Hrun1.
  destruct Hrun1 as (wm & Hm & ->).
  destruct (installHook_migrate_cases "commit-msg" (hook_at root) w1)
    as (wm' & Hm' & _ & Hmig).
  assert (wm' = wm) as -> by congruence.
  destruct Hmig as [[-> _] | (_ & Hread' & _)].
  2:{ rewrite Hread in Hread'. apply Ok_inj in Hread'.
      by apply hookContent_not_old in Hread'. }
  destruct (installHook_write_cases "commit-msg" (hook_at root) w1)
    as (o & w2 & Hw & _ & Hwri).
  assert (is_ok (Stat (hook_at root) w1) = true) as Hok.
  { apply ReadFile_Ok in Hread as (? & _ & f & ? & _). apply Stat_Ok. eauto. }
  destruct (Stat (hook_at root) w1); [|done].
  destruct Hwri as (-> & ? & ? & Herr).
  exists w2. split; [done|]. split; [done|]. split; [done|].
  rewrite Herr. unfold existing_note. rewrite Hread, to_of_string.
  rewrite String.eqb_refl. simpl. case_decide; by rewrite app_nil_r.
Qed.

End InstallLaws.

Lemma installHook_outside_repository_witness :
  installHook 8 bare_world = died not_found bare_world.
Proof.
  apply (installHook_outside_repository (laws := unix_laws)
           bare_world "/tmp/x" 8 eq_refl eq_refl).
  - intros k Hk.
    do 7 (destruct k as [|k]; [vm_compute; reflexivity|]).
    simpl in Hk. lia.
  - simpl. lia.
Defined.

Lemma installHook_again_is_silent_witness :
  let w1 := snd (installHook 32 (repo_world None None 1)) in
  ∃ w2, installHook 32 w1 = (Return tt, w2) ∧
        fs w2 = fs w1 ∧ calls w2 = calls w1 ∧ stderr w2 = stderr w1.
Proof.
  apply (installHook_again_is_silent (laws := unix_laws) 32
           (repo_world None None 1) _ repo_root).
  - vm_compute. reflexivity.
  - vm_compute. reflexivity.
  - vm_compute. reflexivity.
  - vm_compute. reflexivity.
Defined.

Section InstallPost.

Context {FP : Filepath}.

(** X9. [installHook] returns normally only inside a repository and
    only with an entry at the path of the commit-msg hook under its
    root: afterwards [Stat] of that path succeeds. *)
Theorem installHook_leaves_entry (fuel : nat) (w w1 : world) :
  installHook fuel w = (Return tt, w1) →
  ∃ root, fst (repoRoot fuel w) = Return root ∧
          has_git w root = true ∧
          is_ok (Stat (hook_at root) w1) = true.
Proof.
  intros Hinst.
  destruct (installHook_leaves_hook fuel w w1 Hinst)
    as (root & Hroot & _ & _ & Hok & _).
  exists root. split; [done|]. split; [|done].
  destruct (repoRoot fuel w) as [o w0] eqn:Hrun. simpl in Hroot. subst o.
  by destruct (repoRoot_loop_sound_root _ _ _ _ Hrun).
Qed.

End InstallPost.

Lemma installHook_leaves_entry_witness :
  ∃ root, fst (repoRoot 32 (repo_world None None 0)) = Return root ∧
          has_git (repo_world None None 0) root = true ∧
          is_ok (Stat (hook_at root)
                   (snd (installHook 32 (repo_world None None 0)))) = true.
Proof.
  apply (installHook_leaves_entry 32 (repo_world None None 0)).
  vm_compute. reflexivity.
Defined.

(** ** The commit-msg handler *)

(** Every run of the handler, case by case. *)
Lemma hookCommitMsg_cases (args : list string) (w : world) :
  (length args ≠ 1 ∧ hookCommitMsg args w = died usage_commit_msg w) ∨
  ∃ name, args = [name] ∧
    match ReadFile name w with
    | Err e => hookCommitMsg args w = died (Fmt.Sprintf "%v" [Fmt.AError e]) w
    | Ok b =>
        if Bytes.Contains b change_id_marker
        then hookCommitMsg args w = (Return tt, w)
        else if decide (20 ≤ length (entropy w)) then
          match fault_at OpenWrite name w with
          | Some x =>
              hookCommitMsg args w =
                died (Fmt.Sprintf "%v"
                        [Fmt.AError (PathError "open" name (EFAULT x))])
                  (after_write_call name b w)
          | None =>
              ∃ f, fs w !! name = Some (File f) ∧ data f = b ∧
                   hookCommitMsg args w =
                     (Return tt,
                      set_fs (<[name := File (mkFile
                                  (with_trailer b (take 20 (entropy w)))
                                  (mode f))]> (fs w))
                        (after_write_call name b w))
          end
        else
          hookCommitMsg args w =
            died (Fmt.Sprintf "generating Change-Id: %v"
                    [Fmt.AError (match entropy w with
                                 | [] => EOF
                                 | _ :: _ => ErrUnexpectedEOF
                                 end)])
              (set_entropy [] w)
    end.
Proof.
  destruct args as [|name [|name' args]]; [by left | | by left].
  right. exists name. split; [done|].
  unfold hookCommitMsg. run.
  destruct (ReadFile name w) as [b|e] eqn:Hread; [|done].
  fold change_id_marker.
  destruct (Bytes.Contains b change_id_marker); [done|].
  unfold ReadRandom. case_decide as Hrand; [|done]. simpl.
  apply ReadFile_Ok in Hread as (Hres & _ & f & Hf & Hdata).
  unfold WriteFile, fault_at in *. simpl. rewrite Hres, Hf.
  rewrite Sprintf_trailer. fold (with_trailer b (take 20 (entropy w))).
  destruct (faults w OpenWrite !! name) as [x|]; [done|].
  exists f. done.
Qed.

(** X11. The handler changes nothing but the content of the one file it
    is given.  It creates no file and removes none, leaves every mode as
    it is, and its only call that changes the file tree is at most one
    [WriteFile] of that file with permission 0666.  What it does not
    write it does not change: a run that made no call to [WriteFile],
    as every run that ends before the write does, left the file tree as
    it was.  With other than exactly one argument it ends the process
    with its usage message at once. *)
Theorem hookCommitMsg_touches_content_only (args : list string) (w : world) :
  let w' := snd (hookCommitMsg args w) in
  (∀ p, match fs w !! p with
        | Some (File f) =>
            ∃ f', fs w' !! p = Some (File f') ∧ mode f' = mode f ∧
                  (args ≠ [p] → f' = f)
        | other => fs w' !! p = other
        end) ∧
  (calls w' = calls w ∨
   ∃ name content,
     args = [name] ∧ calls w' = calls w ++ [CallWriteFile name content 438]) ∧
  (calls w' = calls w → fs w' = fs w) ∧
  (length args ≠ 1 → hookCommitMsg args w = died usage_commit_msg w).
Proof.
  assert (∀ q, match fs w !! q with
               | Some (File f) =>
                   ∃ f', fs w !! q = Some (File f') ∧ mode f' = mode f ∧
                         (args ≠ [q] → f' = f)
               | other => fs w !! q = other
               end) as Hsame.
  { intros q. destruct (fs w !! q) as [[f|]|]; eauto. }
  destruct (hookCommitMsg_cases args w) as [[Hlen ->] | (name & -> & Hrun)].
  { simpl. split; [done|]. split; [by left|]. done. }
  cbv zeta. destruct (ReadFile name w) as [b|e].
  2:{ rewrite Hrun. simpl. split; [done|]. split; [by left|]. done. }
  destruct (Bytes.Contains b change_id_marker).
  { rewrite Hrun. simpl. split; [done|]. split; [by left|]. done. }
  case_decide.
  2:{ rewrite Hrun. simpl. split; [done|]. split; [by left|]. done. }
  destruct (fault_at OpenWrite name w) as [x|].
  { rewrite Hrun. simpl. split; [done|]. split; [|done]. right. eauto. }
  destruct Hrun as (f & Hf & Hb & ->). simpl.
  split; [|split; [right; eauto | split; [|done]]].
  2:{ intros Hcalls. apply (f_equal length) in Hcalls.
      rewrite length_app in Hcalls. simpl in Hcalls. lia. }
  intros p. destruct (decide (p = name)) as [-> | Hp].
  - rewrite Hf, lookup_insert_eq. eexists. split; [done|]. by split.
  - rewrite lookup_insert_ne by done.
    destruct (fs w !! p) as [[g|]|]; [|done..].
    exists g. by repeat split.
Qed.

(** X12. When the random source cannot fill the 20 bytes, the handler
    ends the process with [generating Change-Id:] and the error: it calls
    [WriteFile] for no file, and the message is left without a trailer
    rather than with one from fewer random bytes. *)
Theorem hookCommitMsg_needs_randomness
    (name : string) (w : world) (b : bytes) (e : error) :
  ReadFile name w = Ok b →
  Bytes.Contains b change_id_marker = false →
  fst (ReadRandom 20 w) = Err e →
  ∃ w', hookCommitMsg [name] w =
          (Fatal (Fmt.Sprintf "generating Change-Id: %v" [Fmt.AError e]), w') ∧
        fs w' = fs w ∧ calls w' = calls w.
Proof.
  intros Hread Hnot Hrand.
  destruct (hookCommitMsg_cases [name] w) as [[? _] | (name' & [= <-] & Hrun)];
    [done|].
  rewrite Hread, Hnot in Hrun. unfold ReadRandom in Hrand.
  case_decide; [done|]. injection Hrand as <-.
  rewrite Hrun. eexists. split; [done|]. done.
Qed.

Lemma hookCommitMsg_needs_randomness_witness :
  ∃ w', hookCommitMsg ["a.txt"] (two_messages 19) =
          (Fatal (Fmt.Sprintf "generating Change-Id: %v"
                    [Fmt.AError ErrUnexpectedEOF]), w') ∧
        fs w' = fs (two_messages 19) ∧ calls w' = calls (two_messages 19).
Proof.
  apply (hookCommitMsg_needs_randomness "a.txt" (two_messages 19)
           (of_string ("first" +:+ nl)) ErrUnexpectedEOF).
  - vm_compute. reflexivity.
  - vm_compute. reflexivity.
  - vm_compute. reflexivity.
Defined.

(** A message of newlines alone holds no marker and trims to nothing. *)
Lemma newlines_no_marker (k : nat) :
  Bytes.Contains (replicate k LF) change_id_marker = false.
Proof.
  apply not_true_is_false. intros (pre & post & Heq)%Contains_spec.
  assert ("C"%byte ∈ replicate k LF) as Hin.
  { rewrite Heq. apply elem_of_app. right. apply elem_of_app. left.
    vm_compute. by repeat constructor. }
  by apply elem_of_replicate in Hin as [? _].
Qed.

Lemma newlines_trim (k : nat) :
  take (trim_loop (replicate k LF) (length (replicate k LF))) (replicate k LF)
  = [].
Proof.
  apply (newlines_removed_unique (replicate k LF)); [apply trim_loop_spec|].
  split; [by exists k | done].
Qed.

(** X13. A message that is empty or made of newlines alone is replaced
    by the trailer alone: two newlines, the [Change-Id] line, a newline. *)
Theorem hookCommitMsg_blank_message
    (name : string) (w : world) (f : file) (k : nat) :
  fs w !! name = Some (File f) →
  data f = replicate k LF →
  ReadFile name w = Ok (data f) →
  20 ≤ length (entropy w) →
  fault_at OpenWrite name w = None →
  ∃ w', hookCommitMsg [name] w = (Return tt, w') ∧
        fs w' =
          <[name := File (mkFile (of_string (trailer (take 20 (entropy w))))
                            (mode f))]> (fs w).
Proof.
  intros Hf Hdata Hread Hrand Hwrite.
  assert (Bytes.Contains (data f) change_id_marker = false) as Hnot
    by (rewrite Hdata; apply newlines_no_marker).
  pose proof (hookCommitMsg_fresh name w f Hf Hread Hnot Hrand Hwrite) as Hrun.
  simpl in Hrun. eexists. split; [exact Hrun|]. simpl.
  unfold with_trailer. by rewrite Hdata, newlines_trim.
Qed.

Lemma hookCommitMsg_blank_message_witness :
  let w := example_world (nl +:+ nl +:+ nl) in
  ∃ w', hookCommitMsg [".git/COMMIT_EDITMSG"] w = (Return tt, w') ∧
        fs w' =
          <[".git/COMMIT_EDITMSG" :=
              File (mkFile (of_string (trailer (take 20 (entropy w)))) 420)]>
            (fs w).
Proof.
  apply (hookCommitMsg_blank_message ".git/COMMIT_EDITMSG"
           (example_world (nl +:+ nl +:+ nl))
           (example_message (nl +:+ nl +:+ nl)) 3).
  - reflexivity.
  - reflexivity.
  - reflexivity.
  - simpl. lia.
  - reflexivity.
Defined.

(** ** The identifier *)

Lemma unhex_byte (c : byte) :
  Byte.of_N (16 * hexval (Fmt.hexdigit (Byte.to_N c / 16)) +
             hexval (Fmt.hexdigit (Byte.to_N c mod 16))) = Some c.
Proof. destruct c; vm_compute; reflexivity. Qed.

Lemma unhex_hex_cons (x : byte) (b : bytes) (s : string) :
  unhex (Fmt.hex (x :: b) +:+ s) = x :: unhex (Fmt.hex b +:+ s).
Proof.
  change (unhex (Fmt.hex (x :: b) +:+ s))
    with (match Byte.of_N
                  (16 * hexval (Fmt.hexdigit (Byte.to_N x / 16)) +
                   hexval (Fmt.hexdigit (Byte.to_N x mod 16))) with
          | Some c => c :: unhex (Fmt.hex b +:+ s)
          | None => []
          end).
  by rewrite unhex_byte.
Qed.

Lemma unhex_hex_then (b : bytes) (s : string) :
  String.length s ≤ 1 → unhex (Fmt.hex b +:+ s) = b.
Proof.
  intros Hs. induction b as [|x b IH].
  - destruct s as [|c [|c' s]]; [done.. | simpl in Hs; lia].
  - by rewrite unhex_hex_cons, IH.
Qed.

Lemma append_empty_r (s : string) : s +:+ EmptyString = s.
Proof.
  induction s as [|c s IH]; [done|].
  change (String c (s +:+ EmptyString) = String c s). by rewrite IH.
Qed.

Lemma of_string_inj (s t : string) : of_string s = of_string t → s = t.
Proof. intros H. by rewrite <- (to_of_string s), H, to_of_string. Qed.

(** X14. The identifier can be read back from what [%x] printed, so
    that different random bytes give different trailers: for one message,
    what the handler writes determines the random bytes it drew. *)
Theorem change_id_reads_back (data id : bytes) :
  unhex (Fmt.hex id) = id ∧
  ∀ id', with_trailer data id = with_trailer data id' → id = id'.
Proof.
  split.
  - rewrite <- (append_empty_r (Fmt.hex id)).
    apply unhex_hex_then. simpl. lia.
  - intros id' Heq. unfold with_trailer in Heq.
    apply app_inv_head, of_string_inj in Heq.
    unfold trailer in Heq. injection Heq as Heq.
    change (Fmt.hex id +:+ nl = Fmt.hex id' +:+ nl) in Heq.
    rewrite <- (unhex_hex_then id nl), <- (unhex_hex_then id' nl) by done.
    by rewrite Heq.
Qed.

(** X15. Each run draws random bytes of its own: two runs in a row on
    two messages without trailers give the first the trailer of the first
    20 bytes of the random source and the second that of the next 20. *)
Theorem hookCommitMsg_draws_fresh_bytes
    (a b : string) (w : world) (fa fb : file) :
  a ≠ b →
  fs w !! a = Some (File fa) → fs w !! b = Some (File fb) →
  ReadFile a w = Ok (data fa) → ReadFile b w = Ok (data fb) →
  Bytes.Contains (data fa) change_id_marker = false →
  Bytes.Contains (data fb) change_id_marker = false →
  fault_at OpenWrite a w = None → fault_at OpenWrite b w = None →
  40 ≤ length (entropy w) →
  ∃ w2,
    (hookCommitMsg [a] ≫= λ _, hookCommitMsg [b]) w = (Return tt, w2) ∧
    fs w2 =
      <[b := File (mkFile
                     (with_trailer (data fb) (take 20 (drop 20 (entropy w))))
                     (mode fb))]>
        (<[a := File (mkFile (with_trailer (data fa) (take 20 (entropy w)))
                        (mode fa))]> (fs w)) ∧
    entropy w2 = drop 40 (entropy w).
Proof.
  intros Hab Hfa Hfb Hra Hrb Hna Hnb Hwa Hwb Hrand.
  pose proof (hookCommitMsg_fresh a w fa Hfa Hra Hna) as Hrun1.
  cbv zeta in Hrun1. unfold mbind, M_bind. rewrite Hrun1 by (done || lia).
  match goal with |- context [hookCommitMsg [b] ?w1] => set (w1' := w1) end.
  assert (fs w1' !! b = Some (File fb)) as Hfb1
    by (subst w1'; simpl; by rewrite lookup_insert_ne).
  assert (ReadFile b w1' = Ok (data fb)) as Hrb1.
  { rewrite <- Hrb. apply ReadFile_ext; [|done].
    subst w1'. simpl. by rewrite lookup_insert_ne. }
  pose proof (hookCommitMsg_fresh b w1' fb Hfb1 Hrb1 Hnb) as Hrun2.
  cbv zeta in Hrun2. rewrite Hrun2.
  - eexists. split; [done|]. simpl. split; [done|].
    by rewrite drop_drop.
  - subst w1'. simpl. rewrite length_drop. lia.
  - done.
Qed.

Lemma hookCommitMsg_draws_fresh_bytes_witness :
  let w := two_messages 40 in
  ∃ w2,
    (hookCommitMsg ["a.txt"] ≫= λ _, hookCommitMsg ["b.txt"]) w =
      (Return tt, w2) ∧
    fs w2 =
      <["b.txt" :=
          File (mkFile
                  (with_trailer (of_string ("second" +:+ nl))
                     (take 20 (drop 20 (entropy w)))) 420)]>
        (<["a.txt" :=
             File (mkFile
                     (with_trailer (of_string ("first" +:+ nl))
                        (take 20 (entropy w))) 420)]> (fs w)) ∧
    entropy w2 = drop 40 (entropy w).
Proof.
  apply (hookCommitMsg_draws_fresh_bytes "a.txt" "b.txt" (two_messages 40)
           (example_message ("first" +:+ nl))
           (example_message ("second" +:+ nl))).
  - discriminate.
  - reflexivity.
  - reflexivity.
  - reflexivity.
  - reflexivity.
  - reflexivity.
  - reflexivity.
  - reflexivity.
  - reflexivity.
  - simpl. lia.
Defined.

(** ** One trailer *)

Lemma occurrences_none (b p : bytes) :
  occurrences b p = 0 ↔ Bytes.Contains b p = false.
Proof.
  induction b as [|c b IH]; simpl.
  - destruct (Bytes.HasPrefix [] p); simpl; split; (done || lia).
  - destruct (Bytes.HasPrefix (c :: b) p); simpl; [split; (done || lia)|].
    apply IH.
Qed.

Lemma Contains_app_false (t u p : bytes) :
  Bytes.Contains (t ++ u) p = false → Bytes.Contains t p = false.
Proof.
  intros Hno. apply not_true_is_false.
  intros (pre & post & ->)%Contains_spec.
  apply not_true_iff_false in Hno. apply Hno, Contains_spec.
  exists pre, (post ++ u). by rewrite <- !app_assoc.
Qed.

(** A sequence without newlines that starts before a newline ends
    before it. *)
Lemma HasPrefix_before_newline (m s rest : bytes) :
  no_lf m = true →
  Bytes.HasPrefix (s ++ LF :: rest) m = true → Bytes.HasPrefix s m = true.
Proof.
  revert s. induction m as [|x m IH]; intros s Hm Hpre; [done|].
  apply andb_true_iff in Hm as [Hx Hm].
  destruct s as [|y s]; simpl in *.
  - apply andb_true_iff in Hpre as [Hpre _].
    apply byte_eqb_true in Hpre. by subst x.
  - apply andb_true_iff in Hpre as [-> Hpre]. simpl. by apply IH.
Qed.

(** What stands before a newline and holds no occurrence adds none. *)
Lemma occurrences_app_newline (t rest m : bytes) (x : byte) :
  no_lf m = true →
  Bytes.Contains t (x :: m) = false →
  occurrences (t ++ LF :: rest) (x :: m) = occurrences (LF :: rest) (x :: m).
Proof.
  intros Hm. induction t as [|c t IH]; intros Hno; [done|].
  change (Bytes.Contains (c :: t) (x :: m))
    with (Bytes.HasPrefix (c :: t) (x :: m) || Bytes.Contains t (x :: m)) in Hno.
  apply orb_false_iff in Hno as [Hhere Hlater].
  change (occurrences ((c :: t) ++ LF :: rest) (x :: m))
    with ((if Bytes.HasPrefix ((c :: t) ++ LF :: rest) (x :: m) then 1 else 0) +
          occurrences (t ++ LF :: rest) (x :: m)).
  rewrite IH by done.
  destruct (Bytes.HasPrefix ((c :: t) ++ LF :: rest) (x :: m)) eqn:Hpre; [|done].
  simpl in Hpre, Hhere. apply andb_true_iff in Hpre as [Hc Hpre].
  apply HasPrefix_before_newline in Hpre; [|done].
  by rewrite Hc, Hpre in Hhere.
Qed.

(** Where the only newline is the last byte, nothing that is longer
    than a newline and starts with one occurs. *)
Lemma occurrences_last_newline (l m : bytes) (x : byte) :
  no_lf l = true →
  occurrences (l ++ [LF]) (LF :: x :: m) = 0.
Proof.
  induction l as [|c l IH]; intros Hl; [done|].
  apply andb_true_iff in Hl as [Hc Hl].
  change (occurrences ((c :: l) ++ [LF]) (LF :: x :: m))
    with ((if Byte.eqb c LF && Bytes.HasPrefix (l ++ [LF]) (x :: m)
           then 1 else 0) + occurrences (l ++ [LF]) (LF :: x :: m)).
  rewrite IH by done. apply negb_true_iff in Hc. by rewrite Hc.
Qed.

Lemma hex_byte_no_lf (c : byte) : no_lf (of_string (Fmt.hex [c])) = true.
Proof. destruct c; vm_compute; reflexivity. Qed.

Lemma hex_no_lf (id : bytes) : no_lf (of_string (Fmt.hex id)) = true.
Proof.
  induction id as [|c id IH]; [done|].
  change (of_string (Fmt.hex (c :: id)))
    with (of_string (Fmt.hex [c]) ++ of_string (Fmt.hex id)).
  unfold no_lf. rewrite forallb_app. fold (no_lf (of_string (Fmt.hex [c]))).
  fold (no_lf (of_string (Fmt.hex id))). by rewrite hex_byte_no_lf, IH.
Qed.

(** The trailer holds the marker once. *)
Lemma trailer_occurrences (id : bytes) :
  ∃ rest, of_string (trailer id) = LF :: rest ∧
          occurrences (LF :: rest) change_id_marker = 1.
Proof.
  exists (LF :: (of_string "Change-Id: I" ++ of_string (Fmt.hex id)) ++ [LF]).
  split.
  { unfold trailer. rewrite !of_string_app. reflexivity. }
  set (l := of_string "Change-Id: I" ++ of_string (Fmt.hex id)).
  assert (occurrences (l ++ [LF]) change_id_marker = 0) as Hrest.
  { apply (occurrences_last_newline l).
    unfold l, no_lf. rewrite forallb_app.
    fold (no_lf (of_string (Fmt.hex id))). by rewrite hex_no_lf. }
  change (occurrences (LF :: LF :: l ++ [LF]) change_id_marker)
    with (0 + ((if Bytes.HasPrefix (LF :: l ++ [LF]) change_id_marker
                then 1 else 0) +
               occurrences (l ++ [LF]) change_id_marker)).
  rewrite Hrest. reflexivity.
Qed.

Lemma with_trailer_one_marker (data id : bytes) :
  Bytes.Contains data change_id_marker = false →
  occurrences (with_trailer data id) change_id_marker = 1.
Proof.
  intros Hno. unfold with_trailer.
  destruct (trailer_occurrences id) as (rest & -> & Hone).
  rewrite <- Hone.
  apply (occurrences_app_newline _ rest (of_string "Change-Id: ") LF);
    [reflexivity|].
  apply (Contains_app_false _ (drop (trim_loop data (length data)) data)).
  by rewrite take_drop.
Qed.

(** X16. When the handler adds a trailer, the marker it looks for
    occurs in the content it leaves exactly once: nothing of the message
    and nothing of the identifier can make up a second occurrence. *)
Theorem hookCommitMsg_adds_one_marker
    (name : string) (w : world) (f : file) :
  fs w !! name = Some (File f) →
  ReadFile name w = Ok (data f) →
  Bytes.Contains (data f) change_id_marker = false →
  20 ≤ length (entropy w) →
  fault_at OpenWrite name w = None →
  ∃ w' f', hookCommitMsg [name] w = (Return tt, w') ∧
           fs w' !! name = Some (File f') ∧
           occurrences (data f') change_id_marker = 1.
Proof.
  intros Hfs Hread Hno Hrand Hwrite.
  pose proof (hookCommitMsg_fresh name w f Hfs Hread Hno Hrand Hwrite) as Hrun.
  cbv zeta in Hrun. rewrite Hrun.
  eexists _, _. split; [reflexivity|]. split.
  - simpl. apply lookup_insert_eq.
  - simpl. by apply with_trailer_one_marker.
Qed.

Lemma hookCommitMsg_adds_one_marker_witness :
  ∃ w' f',
    hookCommitMsg [".git/COMMIT_EDITMSG"] (example_world ("fix bug" +:+ nl)) =
      (Return tt, w') ∧
    fs w' !! ".git/COMMIT_EDITMSG" = Some (File f') ∧
    occurrences (data f') change_id_marker = 1.
Proof.
  apply (hookCommitMsg_adds_one_marker ".git/COMMIT_EDITMSG"
           (example_world ("fix bug" +:+ nl))
           (example_message ("fix bug" +:+ nl))).
  - reflexivity.
  - reflexivity.
  - reflexivity.
  - simpl. lia.
  - reflexivity.
Defined.

(** ** [installHook] on Unix *)

Lemma clean_fold_split_join (elems : list Unix.chars) :
  Forall Unix.plain elems →
  fold_left (Unix.clean_step true) (Unix.split (Unix.join elems)) [] =
  rev elems.
Proof.
  intros Hall. destruct elems as [|e elems]; [reflexivity|].
  rewrite UnixDir.split_join; [|done|].
  - rewrite UnixDir.clean_fold_plain by done. by rewrite app_nil_r.
  - eapply Forall_impl; [exact Hall|]. apply UnixDir.plain_sep_free.
Qed.

(** Joining plain elements to a rooted path of plain elements gives the
    rooted path of all of them. *)
Lemma Join_rooted_path (top more : list Unix.chars) :
  Forall Unix.plain top → Forall Unix.plain more → more ≠ [] →
  Unix.Join (Unix.rooted_path top) (Unix.join more) =
  Unix.rooted_path (top ++ more).
Proof.
  intros Htop Hmore Hne.
  change (Unix.Join (Unix.rooted_path top) (Unix.join more))
    with (Unix.Clean
            (Unix.sep :: (Unix.join top ++ Unix.sep :: Unix.join more))).
  rewrite UnixDir.Clean_rooted, UnixFacts.split_app_sep, fold_left_app.
  rewrite clean_fold_split_join by done.
  rewrite UnixDir.split_join; [|done|].
  2:{ eapply Forall_impl; [exact Hmore|]. apply UnixDir.plain_sep_free. }
  rewrite UnixDir.clean_fold_plain by done.
  by rewrite <- rev_app_distr, rev_involutive.
Qed.

Lemma unix_hook_at (top : list (list ascii)) :
  Forall Unix.plain top →
  hook_at (unix_path top) = unix_path (top ++ hook_path_elems).
Proof.
  intros Htop. unfold hook_at, Join, unix, unix_path.
  rewrite list_ascii_of_string_of_list_ascii. f_equal.
  apply (Join_rooted_path top hook_path_elems); [done| |done].
  repeat constructor; (discriminate || reflexivity).
Qed.

(** X17. On Unix, [installHook] run in a directory nested at any depth
    in a tree that has [.git] at its top and nowhere below, with the
    directory [.git/hooks] in place and no commit-msg hook yet, creates
    the dispatcher script at [.git/hooks/commit-msg] under the top of
    the tree. *)
Theorem unix_installHook_from_nested
    (w : world) (top subs : list (list ascii)) (fuel : nat) :
  Forall Unix.plain (top ++ subs) →
  cwd w = Some (unix_path (top ++ subs)) →
  has_git w (unix_path top) = true →
  (∀ n, 0 < n ≤ length subs →
        has_git w (unix_path (top ++ take n subs)) = false) →
  length subs < fuel →
  fs w !! unix_path (top ++ hooks_dir_elems) = Some Directory →
  fs w !! unix_path (top ++ hook_path_elems) = None →
  fault_at Resolve (unix_path (top ++ hook_path_elems)) w = None →
  fault_at Create (unix_path (top ++ hook_path_elems)) w = None →
  ∃ w', installHook fuel w = (Return tt, w') ∧
        fs w' =
          <[unix_path (top ++ hook_path_elems) :=
              File (hook_file "commit-msg" w)]> (fs w).
Proof.
  intros Hall Hcwd Hgit Hbelow Hfuel _ Hnone Hres Hcreate.
  pose proof (unix_repoRoot_nested w top subs fuel Hall Hcwd Hgit Hbelow Hfuel)
    as Hroot.
  apply Forall_app in Hall as [Htop _].
  rewrite <- (unix_hook_at top Htop) in *.
  destruct (installHook_fresh_run fuel w (unix_path top))
    as (w' & Hrun & _ & Hfs & _); [by rewrite Hroot | done..|].
  eauto.
Qed.

Lemma unix_installHook_from_nested_witness :
  let w := repo_world None None 0 in
  ∃ w', installHook 32 w = (Return tt, w') ∧
        fs w' =
          <[unix_path (repo_elems ++ hook_path_elems) :=
              File (hook_file "commit-msg" w)]> (fs w).
Proof.
  apply (unix_installHook_from_nested (repo_world None None 0)
           repo_elems sub_elems 32).
  - repeat constructor; (discriminate || reflexivity).
  - reflexivity.
  - vm_compute. reflexivity.
  - intros [|[|[|n]]] Hn; [lia | vm_compute; reflexivity.. | simpl in Hn; lia].
  - simpl. lia.
  - vm_compute. reflexivity.
  - vm_compute. reflexivity.
  - vm_compute. reflexivity.
  - vm_compute. reflexivity.
Defined.
